(** * iquit: the ingestion and enrichment pipeline

    A shallow embedding of the viewing-history pipeline of the repository:
    [csvService.ts] (ingestion), [tmdbService.ts] in its revisions (title
    clean-up, catalogue lookup, the merge store, the batch loop with
    cancellation and checkpoints, statistics, the finished analysis in the
    store), the part of the page component that resumes a run from a
    checkpoint, the updater of the items discovered so far, the sort of the
    grid and the card of the most active period.

    Conventions of the embedding.
    - A JavaScript [Map] keeps its entries in insertion order; it is an
      association list with [set] replacing in place or appending.
    - [localStorage] is a finite map from key strings to stored values;
      [JSON.stringify] followed by [JSON.parse] is taken to give the value
      back, so a stored value is kept as the value itself.
    - What lies outside the repository is an interface: the catalogue
      service ([searchMedia], [getTVShowDetails] with their network errors
      already turned into empty answers, as the source does), and the
      JavaScript runtime ([Date] parsing and formatting, [toLowerCase]).
    - [async] code runs to completion between two [await]s.  A run of
      [processBatch] is a pool of suspended tasks; the order in which their
      continuations run is an input of the model. *)

From Stdlib Require Import ZArith List Lia Bool.
From Stdlib Require Import Strings.String Strings.Ascii.
From Stdlib Require Import Numbers.DecimalString.
From Stdlib Require QArith.QArith_base Numbers.DecimalZ Numbers.DecimalPos.
From stdpp Require Import base option list strings gmap sorting.

(** ** JavaScript values *)

(** [s] is truthy: a string that is present and not empty. *)
Definition truthy (s : option string) : bool :=
  match s with
  | Some s => negb (String.eqb s "")
  | None => false
  end.

(** [a || b] on optional strings. *)
Definition js_or (a b : option string) : option string :=
  if truthy a then a else b.

(** A template literal prints an integer in decimal. *)
Definition Number_toString (n : Z) : string :=
  NilZero.string_of_int (Z.to_int n).

(** [haystack.includes(needle)] *)
Fixpoint includes (haystack needle : string) : bool :=
  String.prefix needle haystack ||
  match haystack with
  | EmptyString => false
  | String _ rest => includes rest needle
  end.

(** ** Data model ([types]) *)

Module NetflixViewingItem.
Record t := mk {
    title : string;
    date : string;
    rawTitle : option string;
    rawDate : option string;
  }.
End NetflixViewingItem.

(** [MediaItem.id] is declared a string; at run time it is the catalogue's
    number for a matched item and the string ["unknown-" + title] for an
    unmatched one. *)
Inductive Id :=
| IdNum (n : Z)
| IdStr (s : string).

Definition Id_toString (i : Id) : string :=
  match i with
  | IdNum n => Number_toString n
  | IdStr s => s
  end.

Module MediaItem.
Record t := mk {
    id : Id;
    title : string;
    type : string;
    posterPath : option string;
    backdropPath : option string;
    overview : option string;
    releaseDate : option string;
    firstAirDate : option string;
    lastAirDate : option string;
    status : option string;
    continuing : option bool;
    watchedDate : string;
    voteAverage : option QArith_base.Q;
    watchCount : option nat;
  }.

Definition with_watchCount (n : option nat) (m : t) : t :=
    mk (id m) (title m) (type m) (posterPath m) (backdropPath m) (overview m)
       (releaseDate m) (firstAirDate m) (lastAirDate m) (status m)
       (continuing m) (watchedDate m) (voteAverage m) n.

Definition with_watchedDate (d : string) (m : t) : t :=
    mk (id m) (title m) (type m) (posterPath m) (backdropPath m) (overview m)
       (releaseDate m) (firstAirDate m) (lastAirDate m) (status m)
       (continuing m) d (voteAverage m) (watchCount m).
End MediaItem.

(** One candidate of the catalogue's multi search ([any] in the source; the
    fields are those the source reads). *)
Module TmdbResult.
Record t := mk {
    id : Z;
    media_type : option string;
    title : option string;
    name : option string;
    poster_path : option string;
    backdrop_path : option string;
    overview : option string;
    release_date : option string;
    first_air_date : option string;
    last_air_date : option string;
    vote_average : option QArith_base.Q;
  }.
End TmdbResult.

Record SearchResponse := { results : option (list TmdbResult.t) }.

Record TvDetails := { tv_status : string }.

Module StatsData.
Record t := mk {
    totalWatched : nat;
    movieCount : nat;
    tvCount : nat;
    watchedByDay : gmap string nat;
    watchedByMonth : gmap string nat;
    watchedByYear : gmap string nat;
    mostWatchedShows : list MediaItem.t;
    continueWatchingShows : list MediaItem.t;
  }.
End StatsData.

(** A row of [results.data] as the CSV library hands it over with
    [header: true]: a column the row does not have is absent. *)
Module CSVData.
Record t := mk {
    Title : option string;
    Date : option string;
  }.
End CSVData.

(** ** The interfaces to the outside *)

(** The title normaliser ([cleanTitle]). *)
Class Normalizer := { cleanTitle : string -> string }.

(** The catalogue service behind [fetch].  [searchMedia] answers
    [{ results: [] }] and [getTVShowDetails] answers [null] when the request
    fails. *)
Class Catalog := {
  searchMedia : string -> SearchResponse;
  getTVShowDetails : Z -> option TvDetails;
}.

(** The runtime: [Date_getTime s] is [new Date(s).getTime()], [None] for an
    invalid date (NaN); [toISOString] formats a time value. *)
Class Runtime := {
  Date_getTime : string -> option Z;
  toISOString : Z -> string;
  toLowerCase : string -> string;
}.

(** ** The merge store: [Map<string, MediaItem>] *)

Definition MediaMap := list (string * MediaItem.t).

Module JsMap.
Fixpoint get (key : string) (m : MediaMap) : option MediaItem.t :=
    match m with
    | [] => None
    | (k, v) :: rest => if String.eqb k key then Some v else get key rest
    end.

Definition has (key : string) (m : MediaMap) : bool :=
    match get key m with Some _ => true | None => false end.

Fixpoint set (key : string) (v : MediaItem.t) (m : MediaMap) : MediaMap :=
    match m with
    | [] => [(key, v)]
    | (k, x) :: rest =>
        if String.eqb k key then (k, v) :: rest else (k, x) :: set key v rest
    end.

Definition keys (m : MediaMap) : list string := map fst m.
Definition values (m : MediaMap) : list MediaItem.t := map snd m.

  (** In-place mutation of the object stored under [key]. *)
Fixpoint mutate (f : MediaItem.t -> MediaItem.t) (key : string) (m : MediaMap)
    : MediaMap :=
    match m with
    | [] => []
    | (k, x) :: rest =>
        if String.eqb k key then (k, f x) :: rest else (k, x) :: mutate f key rest
    end.
End JsMap.

(** ** Array.prototype.sort with a comparator

    The sort is stable.  With a comparator that is a consistent ordering
    every stable sort gives the same array, so insertion is as good as the
    engine's algorithm; a NaN from the comparator counts as 0. *)
Section Sort.
Context {A : Type} (cmp : A -> A -> Z).

Fixpoint sort_insert (x : A) (l : list A) : list A :=
    match l with
    | [] => [x]
    | y :: rest =>
        if (cmp x y <=? 0)%Z then x :: y :: rest else y :: sort_insert x rest
    end.

Fixpoint Array_sort (l : list A) : list A :=
    match l with
    | [] => []
    | x :: rest => sort_insert x (Array_sort rest)
    end.
End Sort.

(** ** tmdbService: items, keys and the merge *)

Definition TMDB_IMG_URL : string := "https://image.tmdb.org/t/p".
Definition POSTER_SIZE : string := "w342".
Definition BACKDROP_SIZE : string := "w1280".

(** [result.media_type || (result.first_air_date ? 'tv' : 'movie')] *)
Definition mediaTypeOf (result : TmdbResult.t) : string :=
  if truthy (TmdbResult.media_type result)
  then default "" (TmdbResult.media_type result)
  else if truthy (TmdbResult.first_air_date result) then "tv" else "movie".

(** [`${result.id}-${mediaType}`] *)
Definition matchedKey (result : TmdbResult.t) : string :=
  Number_toString (TmdbResult.id result) +:+ "-" +:+ mediaTypeOf result.

(** [`unknown-${item.title}`] *)
Definition unknownKey (title : string) : string := "unknown-" +:+ title.

(** [searchResult.results && searchResult.results.length > 0], and then
    [results[0]]. *)
Definition firstResult (r : SearchResponse) : option TmdbResult.t :=
  match results r with
  | Some (result :: _) => Some result
  | _ => None
  end.

(** [(existingItem.watchCount || 1) + 1] *)
Definition bumpWatchCount (w : option nat) : option nat :=
  match w with
  | Some (S n) => Some (S n + 1)
  | _ => Some (1 + 1)
  end.

(** [createMinimalMediaItem]; the optional fields stay undefined. *)
Definition createMinimalMediaItem (title watchedDate : string) : MediaItem.t :=
  {| MediaItem.id := IdStr (unknownKey title);
     MediaItem.title := title;
     MediaItem.type := "movie";
     MediaItem.posterPath := None;
     MediaItem.backdropPath := None;
     MediaItem.overview := None;
     MediaItem.releaseDate := None;
     MediaItem.firstAirDate := None;
     MediaItem.lastAirDate := None;
     MediaItem.status := None;
     MediaItem.continuing := None;
     MediaItem.watchedDate := watchedDate;
     MediaItem.voteAverage := None;
     MediaItem.watchCount := Some 1 |}.

(** The merge key an item stands under: the key [processViewingItem]
    builds for it, read back from the item. *)
Definition mergeKey (item : MediaItem.t) : string :=
  match MediaItem.id item with
  | IdNum n => Number_toString n +:+ "-" +:+ MediaItem.type item
  | IdStr s => s
  end.

Section Pipeline.
Context `{Normalizer} `{Catalog} `{Runtime}.

(** The key under which [processViewingItem] merges a record. *)
Definition recordKey (item : NetflixViewingItem.t) : string :=
  match firstResult (searchMedia (cleanTitle (NetflixViewingItem.title item))) with
  | Some result => matchedKey result
  | None => unknownKey (NetflixViewingItem.title item)
  end.

(** [new Date(a) > new Date(b)]: false as soon as one side is invalid. *)
Definition Date_gt (a b : string) : bool :=
  match Date_getTime a, Date_getTime b with
  | Some x, Some y => (y <? x)%Z
  | _, _ => false
  end.

(** The comparator [(a, b) => new Date(b.watchedDate).getTime() -
    new Date(a.watchedDate).getTime()]. *)
Definition byWatchedDateDesc (a b : MediaItem.t) : Z :=
  match Date_getTime (MediaItem.watchedDate b),
        Date_getTime (MediaItem.watchedDate a) with
  | Some y, Some x => (y - x)%Z
  | _, _ => 0%Z
  end.

(** [createMediaItem]: the detail request is made for a series only.  The
    declared [title: string] is [result.title || result.name]; a candidate
    with neither lies outside the declared type and shows as the empty
    string here. *)
Definition createMediaItem (result : TmdbResult.t) (watchedDate : string)
  : MediaItem.t :=
  let mediaType := mediaTypeOf result in
  let '(status, continuing) :=
    if String.eqb mediaType "tv" then
      match getTVShowDetails (TmdbResult.id result) with
      | Some tvDetails =>
          (tv_status tvDetails,
           existsb (String.eqb (tv_status tvDetails))
                   ["Returning Series"; "In Production"])
      | None => ("", false)
      end
    else ("", false) in
  {| MediaItem.id := IdNum (TmdbResult.id result);
     MediaItem.title :=
       default "" (js_or (TmdbResult.title result) (TmdbResult.name result));
     MediaItem.type := mediaType;
     MediaItem.posterPath :=
       if truthy (TmdbResult.poster_path result)
       then Some (TMDB_IMG_URL +:+ "/" +:+ POSTER_SIZE
                  +:+ default "" (TmdbResult.poster_path result))
       else None;
     MediaItem.backdropPath :=
       if truthy (TmdbResult.backdrop_path result)
       then Some (TMDB_IMG_URL +:+ "/" +:+ BACKDROP_SIZE
                  +:+ default "" (TmdbResult.backdrop_path result))
       else None;
     MediaItem.overview :=
       if truthy (TmdbResult.overview result)
       then TmdbResult.overview result else None;
     MediaItem.releaseDate := TmdbResult.release_date result;
     MediaItem.firstAirDate := TmdbResult.first_air_date result;
     MediaItem.lastAirDate := TmdbResult.last_air_date result;
     MediaItem.status := Some status;
     MediaItem.continuing := Some continuing;
     MediaItem.watchedDate := watchedDate;
     MediaItem.voteAverage := TmdbResult.vote_average result;
     MediaItem.watchCount := Some 1 |}.

(** The mutation [updateExistingMediaItem] makes on the stored object. *)
Definition touch (watchedDate : string) (existingItem : MediaItem.t)
  : MediaItem.t :=
  let bumped :=
    MediaItem.with_watchCount
      (bumpWatchCount (MediaItem.watchCount existingItem)) existingItem in
  if Date_gt watchedDate (MediaItem.watchedDate existingItem)
  then MediaItem.with_watchedDate watchedDate bumped
  else bumped.

(** [updateExistingMediaItem].  Its callers test [mediaMap.has(key)] first;
    on an absent key the source would throw inside [processViewingItem]'s
    [try], which logs and leaves the map as it was. *)
Definition updateExistingMediaItem (mediaMap : MediaMap) (key watchedDate : string)
  : MediaMap :=
  JsMap.mutate (touch watchedDate) key mediaMap.

(** *** [processViewingItem] as a task

    The function suspends at [await searchMedia(...)] and, for a candidate
    whose key is not yet in the map, again at [await createMediaItem(...)];
    the [mediaMap.set] comes after that second suspension. *)
Inductive Task :=
| AwaitSearch (item : NetflixViewingItem.t)
| AwaitCreate (key : string) (result : TmdbResult.t) (watchedDate : string)
| Settled.

(** [processViewingItem], from the suspension at which a task stands up to
    its next suspension. *)
Definition processViewingItem (t : Task) (mediaMap : MediaMap) : Task * MediaMap :=
  match t with
  | AwaitSearch item =>
      let cleanedTitle := cleanTitle (NetflixViewingItem.title item) in
      match firstResult (searchMedia cleanedTitle) with
      | Some result =>
          let key := matchedKey result in
          if JsMap.has key mediaMap
          then (Settled,
                updateExistingMediaItem mediaMap key (NetflixViewingItem.date item))
          else (AwaitCreate key result (NetflixViewingItem.date item), mediaMap)
      | None =>
          let key := unknownKey (NetflixViewingItem.title item) in
          if negb (JsMap.has key mediaMap)
          then (Settled,
                JsMap.set key
                  (createMinimalMediaItem (NetflixViewingItem.title item)
                                          (NetflixViewingItem.date item))
                  mediaMap)
          else (Settled,
                updateExistingMediaItem mediaMap key (NetflixViewingItem.date item))
      end
  | AwaitCreate key result watchedDate =>
      (Settled, JsMap.set key (createMediaItem result watchedDate) mediaMap)
  | Settled => (Settled, mediaMap)
  end.

(** The continuation of task [j] runs, if the pool has one. *)
Definition wake (j : nat) (st : list Task * MediaMap) : list Task * MediaMap :=
  match st.1 !! j with
  | Some t => let '(t', m') := processViewingItem t st.2 in (<[j := t']> st.1, m')
  | None => st
  end.

(** A task runs until it has settled (two continuations at most). *)
Definition finish (t : Task) (mediaMap : MediaMap) : MediaMap :=
  let '(t', m') := processViewingItem t mediaMap in (processViewingItem t' m').2.

(** [processBatch]: [Promise.all] over the tasks of the batch.  [arrivals]
    lists, by position in the batch, the order in which responses arrive and
    continuations run; what is still suspended at its end completes task by
    task, so that an empty [arrivals] is the run in which every lookup
    finishes before the next one answers. *)
Definition processBatch (arrivals : list nat) (batch : list NetflixViewingItem.t)
    (mediaMap : MediaMap) : MediaMap :=
  let '(pool, m) := fold_left (fun st j => wake j st) arrivals
                              (map AwaitSearch batch, mediaMap) in
  fold_left (fun m t => finish t m) pool m.

(** [reportProcessedItem]: the calls of [onItemProcessed], in order. *)
Definition reportProcessedItem (mediaMap : MediaMap)
    (batchItems : list NetflixViewingItem.t) : list MediaItem.t :=
  flat_map (fun batchItem =>
    let cleanedTitle := cleanTitle (NetflixViewingItem.title batchItem) in
    List.filter (fun mediaItem =>
        (includes (toLowerCase (MediaItem.title mediaItem)) (toLowerCase cleanedTitle)
         || includes (toLowerCase cleanedTitle) (toLowerCase (MediaItem.title mediaItem)))
        && String.eqb (MediaItem.watchedDate mediaItem) (NetflixViewingItem.date batchItem))
      (JsMap.values mediaMap))
    batchItems.

End Pipeline.

(** ** tmdbService: module state, persistence and the batch loop *)

(** What [localStorage] holds under a key, as the value that was
    serialised. *)
Inductive Stored :=
| JHistory (viewingHistory : list NetflixViewingItem.t)
| JItems (items : list MediaItem.t)
| JNumber (n : nat)
| JText (s : string).

(** What a run does that can be seen from outside, besides the store: the
    calls on the host's callbacks and the lines of [console.log]. *)
Inductive Effect :=
| Progress (currentCount totalCount : nat)
| ItemProcessed (item : MediaItem.t)
| ConsoleLog (line : string).

(** The state around a run: the module's [processingCancelled], the
    browser's [localStorage], and the effects so far, oldest first. *)
Record World := {
  processingCancelled : bool;
  localStorage : gmap string Stored;
  trace : list Effect;
}.

Definition with_storage (f : gmap string Stored -> gmap string Stored) (w : World)
  : World :=
  {| processingCancelled := processingCancelled w;
     localStorage := f (localStorage w);
     trace := trace w |}.

Definition with_effects (es : list Effect) (w : World) : World :=
  {| processingCancelled := processingCancelled w;
     localStorage := localStorage w;
     trace := trace w ++ es |}.

(** [saveProcessingState].  A write that the browser refuses is caught and
    logged by the source; here the four writes go through. *)
Definition saveProcessingState (viewingHistory : list NetflixViewingItem.t)
    (processedCount : nat) (partialItems : list MediaItem.t)
    (store : gmap string Stored) : gmap string Stored :=
  <["iquit-processing-active" := JText "true"]>
    (<["iquit-partial-items" := JItems partialItems]>
      (<["iquit-processed-count" := JNumber processedCount]>
        (<["iquit-viewing-history" := JHistory viewingHistory]> store))).

Definition clearProcessingState (store : gmap string Stored) : gmap string Stored :=
  delete "iquit-processing-active"
    (delete "iquit-partial-items"
      (delete "iquit-processed-count"
        (delete "iquit-viewing-history" store))).

Definition completeProcessing (store : gmap string Stored) : gmap string Stored :=
  delete "iquit-processing-active" store.

Record ProcessingState := {
  ps_viewingHistory : option (list NetflixViewingItem.t);
  ps_processedCount : nat;
  ps_partialItems : option (list MediaItem.t);
  ps_isProcessing : bool;
}.

(** [loadProcessingState].  An entry that does not parse to the expected
    shape stands for the [catch] branch. *)
Definition loadProcessingState (store : gmap string Stored) : ProcessingState :=
  let failed := {| ps_viewingHistory := None; ps_processedCount := 0;
                   ps_partialItems := None; ps_isProcessing := false |} in
  match store !! "iquit-viewing-history", store !! "iquit-processed-count",
        store !! "iquit-partial-items" with
  | (None | Some (JHistory _)) as h, (None | Some (JNumber _)) as c,
    (None | Some (JItems _)) as p =>
      {| ps_viewingHistory :=
           match h with Some (JHistory l) => Some l | _ => None end;
         ps_processedCount :=
           match c with Some (JNumber n) => n | _ => 0 end;
         ps_partialItems :=
           match p with Some (JItems l) => Some l | _ => None end;
         ps_isProcessing :=
           match store !! "iquit-processing-active" with
           | Some (JText s) => String.eqb s "true"
           | _ => false
           end |}
  | _, _, _ => failed
  end.

(** [cancelProcessing] *)
Definition cancelProcessing (w : World) : World :=
  with_effects [ConsoleLog "Processing cancelled"]
    (with_storage clearProcessingState
       {| processingCancelled := true;
          localStorage := localStorage w;
          trace := trace w |}).

(** [resetCancellation] *)
Definition resetCancellation (w : World) : World :=
  {| processingCancelled := false;
     localStorage := localStorage w;
     trace := trace w |}.

(** What happens around one run while it is suspended, by loop index [i]:
    the order in which the lookups of the batch at [i] answer, and whether
    the host calls [cancelProcessing] while the run awaits that batch, the
    zero-delay yield after it, or the delay before the next batch. *)
Record Timeline := {
  arrivals : nat -> list nat;
  cancelInBatch : nat -> bool;
  cancelInYield : nat -> bool;
  cancelInDelay : nat -> bool;
}.

(** The run is suspended at an [await]; the host acts or not. *)
Definition suspended (hostCancels : bool) (w : World) : World :=
  if hostCancels then cancelProcessing w else w.

Record Outcome := {
  mediaItems : list MediaItem.t;
  cancelled : bool;
}.

Definition batchSize : nat := 40.

Section Scheduler.
Context `{Normalizer} `{Catalog} `{Runtime}.
Variable tl : Timeline.
Variable viewingHistory : list NetflixViewingItem.t.
(** Whether the optional callbacks were passed. *)
Variables progressCallback onItemProcessed : bool.
Variable startIndex : nat.

(** [console.log('Processing aborted at index', i)] *)
Definition aborted (i : nat) (w : World) : World :=
  with_effects
    [ConsoleLog ("Processing aborted at index " +:+ Number_toString (Z.of_nat i))] w.

(** The body of the [for] loop, after the cancellation check. *)
Definition iteration (i : nat) (w : World) (mediaMap : MediaMap)
  : World * MediaMap :=
  let batch := take batchSize (drop i viewingHistory) in
  let w := suspended (cancelInBatch tl i) w in
  let mediaMap := processBatch (arrivals tl i) batch mediaMap in
  let w := if progressCallback
           then with_effects [Progress (i + length batch) (length viewingHistory)] w
           else w in
  let w := if onItemProcessed && (0 <? length batch)
           then with_effects (map ItemProcessed (reportProcessedItem mediaMap batch)) w
           else w in
  let w := if (i mod 10 =? 0) && (startIndex <? i)
           then with_storage
                  (saveProcessingState viewingHistory i (JsMap.values mediaMap)) w
           else w in
  let w := if i mod 10 =? 0 then suspended (cancelInYield tl i) w else w in
  let w := if i + batchSize <? length viewingHistory
           then suspended (cancelInDelay tl i) w else w in
  (w, mediaMap).

(** The [for] loop from index [i], and what follows it.  [None] is a loop
    that has not ended within [fuel] iterations. *)
Fixpoint loop (fuel i : nat) (w : World) (mediaMap : MediaMap)
  : option (Outcome * World) :=
  if i <? length viewingHistory then
    if processingCancelled w then
      Some ({| mediaItems := JsMap.values mediaMap; cancelled := true |}, aborted i w)
    else
      match fuel with
      | 0 => None
      | S fuel =>
          let '(w', mediaMap') := iteration i w mediaMap in
          loop fuel (i + batchSize) w' mediaMap'
      end
  else
    Some ({| mediaItems := Array_sort byWatchedDateDesc (JsMap.values mediaMap);
             cancelled := false |},
          with_storage completeProcessing w).

(** The run as far as its first [n] iterations: the state in which a page
    closed at that moment leaves the store. *)
Fixpoint firstIterations (n i : nat) (w : World) (mediaMap : MediaMap)
  : World * MediaMap :=
  match n with
  | 0 => (w, mediaMap)
  | S n =>
      if (i <? length viewingHistory) && negb (processingCancelled w) then
        let '(w', mediaMap') := iteration i w mediaMap in
        firstIterations n (i + batchSize) w' mediaMap'
      else (w, mediaMap)
  end.

(** [processViewingHistory] *)
Definition processViewingHistory (existingMediaMap : option MediaMap) (w : World)
  : option (Outcome * World) :=
  let w := resetCancellation w in
  let mediaMap := default [] existingMediaMap in
  loop (length viewingHistory) startIndex w mediaMap.

End Scheduler.

Arguments iteration : simpl never.
Arguments processBatch : simpl never.

(** ** tmdbService: statistics *)

(** [s.split('T')[0]] *)
Fixpoint beforeT (s : string) : string :=
  match s with
  | EmptyString => EmptyString
  | String c rest =>
      if Ascii.eqb c "T" then EmptyString else String c (beforeT rest)
  end.

(** [counts[key] = (counts[key] || 0) + 1] *)
Definition increment (key : string) (counts : gmap string nat) : gmap string nat :=
  <[key := default 0 (counts !! key) + 1]> counts.

Record WatchCounts := {
  byDay : gmap string nat;
  byMonth : gmap string nat;
  byYear : gmap string nat;
}.

Section Stats.
Context `{Runtime}.

(** [updateWatchCounts]; [None] is the RangeError that [toISOString] throws
    on an invalid date. *)
Definition updateWatchCounts (item : MediaItem.t) (c : WatchCounts)
  : option WatchCounts :=
  match Date_getTime (MediaItem.watchedDate item) with
  | None => None
  | Some date =>
      let day := beforeT (toISOString date) in
      let month := String.substring 0 7 day in
      let year := String.substring 0 4 day in
      Some {| byDay := increment day (byDay c);
              byMonth := increment month (byMonth c);
              byYear := increment year (byYear c) |}
  end.

(** [calculateWatchCountsByPeriod]: the [forEach], stopped by a throw. *)
Definition calculateWatchCountsByPeriod (mediaItems : list MediaItem.t)
  : option WatchCounts :=
  fold_left (fun acc item => acc ≫= updateWatchCounts item) mediaItems
            (Some {| byDay := ∅; byMonth := ∅; byYear := ∅ |}).

(** [(a, b) => (b.watchCount || 0) - (a.watchCount || 0)] *)
Definition byWatchCountDesc (a b : MediaItem.t) : Z :=
  (Z.of_nat (default 0%nat (MediaItem.watchCount b))
   - Z.of_nat (default 0%nat (MediaItem.watchCount a)))%Z.

(** [generateStats]; [None] when it throws. *)
Definition generateStats (mediaItems : list MediaItem.t) : option StatsData.t :=
  let movies := List.filter (fun item => String.eqb (MediaItem.type item) "movie") mediaItems in
  let tvShows := List.filter (fun item => String.eqb (MediaItem.type item) "tv") mediaItems in
  match calculateWatchCountsByPeriod mediaItems with
  | None => None
  | Some c =>
      let mostWatchedShows := take 10 (Array_sort byWatchCountDesc mediaItems) in
      let continueWatchingShows :=
        Array_sort byWatchedDateDesc
          (List.filter (fun show => default false (MediaItem.continuing show)) tvShows) in
      Some {| StatsData.totalWatched := length mediaItems;
              StatsData.movieCount := length movies;
              StatsData.tvCount := length tvShows;
              StatsData.watchedByDay := byDay c;
              StatsData.watchedByMonth := byMonth c;
              StatsData.watchedByYear := byYear c;
              StatsData.mostWatchedShows := mostWatchedShows;
              StatsData.continueWatchingShows := continueWatchingShows |}
  end.

End Stats.

(** ** tmdbService.ts as it stands under [src/services]

    The earlier, inlined [processViewingHistory]: batches of five, no
    callbacks, no cancellation.  A task suspends at the search and, for a
    new series only, at the detail request. *)
Module Legacy.

Definition batchSize : nat := 5.

Section LegacyScheduler.
Context `{Normalizer} `{Catalog} `{Runtime}.

(** The [else] branch of the unmatched case: the count alone changes. *)
Definition bumpOnly (existingItem : MediaItem.t) : MediaItem.t :=
  MediaItem.with_watchCount
    (bumpWatchCount (MediaItem.watchCount existingItem)) existingItem.

(** The callback given to [batch.map], from one suspension to the next. *)
Definition processItem (t : Task) (mediaMap : MediaMap) : Task * MediaMap :=
  match t with
  | AwaitSearch item =>
      let cleanedTitle := cleanTitle (NetflixViewingItem.title item) in
      match firstResult (searchMedia cleanedTitle) with
      | Some result =>
          let mediaType := mediaTypeOf result in
          let key := matchedKey result in
          if JsMap.has key mediaMap
          then (Settled,
                JsMap.mutate (touch (NetflixViewingItem.date item)) key mediaMap)
          else if String.eqb mediaType "tv"
          then (AwaitCreate key result (NetflixViewingItem.date item), mediaMap)
          else (Settled,
                JsMap.set key
                  (createMediaItem result (NetflixViewingItem.date item)) mediaMap)
      | None =>
          let key := unknownKey (NetflixViewingItem.title item) in
          if negb (JsMap.has key mediaMap)
          then (Settled,
                JsMap.set key
                  (createMinimalMediaItem (NetflixViewingItem.title item)
                                          (NetflixViewingItem.date item))
                  mediaMap)
          else (Settled, JsMap.mutate bumpOnly key mediaMap)
      end
  | AwaitCreate key result watchedDate =>
      (Settled, JsMap.set key (createMediaItem result watchedDate) mediaMap)
  | Settled => (Settled, mediaMap)
  end.

Definition wake (j : nat) (st : list Task * MediaMap) : list Task * MediaMap :=
  match st.1 !! j with
  | Some t => let '(t', m') := processItem t st.2 in (<[j := t']> st.1, m')
  | None => st
  end.

Definition finish (t : Task) (mediaMap : MediaMap) : MediaMap :=
  let '(t', m') := processItem t mediaMap in (processItem t' m').2.

Definition processBatch (arrivals : list nat) (batch : list NetflixViewingItem.t)
    (mediaMap : MediaMap) : MediaMap :=
  let '(pool, m) := fold_left (fun st j => wake j st) arrivals
                              (map AwaitSearch batch, mediaMap) in
  fold_left (fun m t => finish t m) pool m.

Variable arrivals : nat -> list nat.
Variable viewingHistory : list NetflixViewingItem.t.

Fixpoint loop (fuel i : nat) (mediaMap : MediaMap) : option (list MediaItem.t) :=
  if i <? length viewingHistory then
    match fuel with
    | 0 => None
    | S fuel =>
        let batch := take batchSize (drop i viewingHistory) in
        loop fuel (i + batchSize) (processBatch (arrivals i) batch mediaMap)
    end
  else Some (Array_sort byWatchedDateDesc (JsMap.values mediaMap)).

Definition processViewingHistory : option (list MediaItem.t) :=
  loop (length viewingHistory) 0 [].

End LegacyScheduler.
End Legacy.

(** ** csvService: ingestion

    The CSV library parses the file with [header: true] and hands
    [results.data] to the [complete] callback; a file it cannot read goes to
    [error] and rejects the promise.  The functions below are the [complete]
    callback on the parsed rows. *)

Definition toViewingItem (item : CSVData.t) : NetflixViewingItem.t :=
  {| NetflixViewingItem.title := default "" (CSVData.Title item);
     NetflixViewingItem.date := default "" (CSVData.Date item);
     NetflixViewingItem.rawTitle := CSVData.Title item;
     NetflixViewingItem.rawDate := CSVData.Date item |}.

(** The first revision in [csvService.ts]. *)
Module CsvService.
Definition parseNetflixCSV (data : list CSVData.t) : list NetflixViewingItem.t :=
  map toViewingItem
    (List.filter (fun item => truthy (CSVData.Title item) && truthy (CSVData.Date item))
       data).
End CsvService.

(** The second revision in [csvService.ts], which ends in [.slice(0, 50)]. *)
Module CsvServiceSliced.
Definition parseNetflixCSV (data : list CSVData.t) : list NetflixViewingItem.t :=
  take 50
    (map toViewingItem
       (List.filter (fun item => truthy (CSVData.Title item) && truthy (CSVData.Date item))
          data)).
End CsvServiceSliced.

(** ** The page component: starting and resuming a run *)
Module Page.
Section Page.
Context `{Normalizer} `{Catalog} `{Runtime}.

(** The map the resume path builds from the saved partial items, under
    [`${item.id}-${item.type}`]. *)
Definition resumeMediaMap (partialItems : option (list MediaItem.t)) : MediaMap :=
  fold_left
    (fun mediaMap item =>
       JsMap.set (Id_toString (MediaItem.id item) +:+ "-" +:+ MediaItem.type item)
                 item mediaMap)
    (default [] partialItems) [].

(** [handleFileUpload], from the parsed history on, up to the return of
    [processViewingHistory]. *)
Definition handleFileUpload (tl : Timeline) (history : list NetflixViewingItem.t) (w : World)
  : option (Outcome * World) :=
  let w := with_storage clearProcessingState w in
  let w := with_storage (saveProcessingState history 0 []) w in
  processViewingHistory tl history true true 0 None w.

(** The same run when the page is closed after [n] iterations of the loop:
    the state it leaves behind. *)
Definition handleFileUploadClosed (n : nat) (tl : Timeline)
    (history : list NetflixViewingItem.t) (w : World) : World :=
  let w := with_storage clearProcessingState w in
  let w := with_storage (saveProcessingState history 0 []) w in
  (firstIterations tl history true true 0 n 0 (resetCancellation w) []).1.

(** A page load: the module state starts afresh, the store is kept. *)
Definition reload (w : World) : World :=
  {| processingCancelled := false; localStorage := localStorage w; trace := [] |}.

(** [loadSavedData], the branch that resumes a run in progress, up to the
    return of [processViewingHistory]; [None] when there is none to resume. *)
Definition loadSavedData (tl : Timeline) (w : World) : option (option (Outcome * World)) :=
  let st := loadProcessingState (localStorage w) in
  match ps_viewingHistory st with
  | Some viewingHistory =>
      if (0 <? length viewingHistory) && ps_isProcessing st
      then Some (processViewingHistory tl viewingHistory true true
                   (ps_processedCount st)
                   (Some (resumeMediaMap (ps_partialItems st))) w)
      else None
  | None => None
  end.

End Page.
End Page.

(** ** tmdbService: [cleanTitle]

    The three [replace] calls and the [trim], on a title held as its UTF-8
    bytes.  The patterns name ASCII characters only; the line terminators
    that [.] refuses and the white space that [trim] removes are recognised
    by their byte sequences. *)
Module Title.

Definition byte (n : nat) : ascii := ascii_of_nat n.

Definition isDigit (c : ascii) : bool :=
  (48 <=? nat_of_ascii c) && (nat_of_ascii c <=? 57).

(** Comparison under the [i] flag. *)
Definition foldCase (c : ascii) : ascii :=
  if (65 <=? nat_of_ascii c) && (nat_of_ascii c <=? 90)
  then ascii_of_nat (nat_of_ascii c + 32) else c.

Definition sameLetter (a b : ascii) : bool := Ascii.eqb (foldCase a) (foldCase b).

Fixpoint sameText (a b : string) : bool :=
  match a, b with
  | EmptyString, EmptyString => true
  | String x a', String y b' => sameLetter x y && sameText a' b'
  | _, _ => false
  end.

(** U+2028 and U+2029. *)
Definition isSeparator3 (a b c : ascii) : bool :=
  Ascii.eqb a (byte 226) && Ascii.eqb b (byte 128)
  && (Ascii.eqb c (byte 168) || Ascii.eqb c (byte 169)).

(** No line terminator in [s], so that [.*$] matches all of it. *)
Fixpoint dotStarToEnd (s : string) : bool :=
  match s with
  | EmptyString => true
  | String a rest =>
      negb (Ascii.eqb a (byte 10)) && negb (Ascii.eqb a (byte 13))
      && negb match rest with
              | String b (String c _) => isSeparator3 a b c
              | _ => false
              end
      && dotStarToEnd rest
  end.

Fixpoint skipDigits (s : string) : string :=
  match s with
  | String c rest => if isDigit c then skipDigits rest else s
  | EmptyString => EmptyString
  end.

(** [\d+], and what follows it. *)
Definition digits (s : string) : option string :=
  match s with
  | String c rest => if isDigit c then Some (skipDigits rest) else None
  | EmptyString => None
  end.

(** [S\d+:E\d+] at the head of [s]. *)
Definition episodeMarker (s : string) : bool :=
  match s with
  | String c0 r0 =>
      sameLetter c0 "S" &&
      match digits r0 with
      | Some (String colon (String e r1)) =>
          Ascii.eqb colon ":" && sameLetter e "E"
          && match digits r1 with Some _ => true | None => false end
      | _ => false
      end
  | EmptyString => false
  end.

(** [title.replace(/: .*$|S\d+:E\d+.*$/i, '')]: the text is cut at the
    first position where one of the alternatives matches. *)
Fixpoint stripEpisode (s : string) : string :=
  if (String.prefix ": " s || episodeMarker s) && dotStarToEnd s
  then EmptyString
  else match s with
       | EmptyString => EmptyString
       | String c rest => String c (stripEpisode rest)
       end.

Fixpoint hasClose (s : string) : bool :=
  match s with
  | EmptyString => false
  | String c rest => Ascii.eqb c ")" || hasClose rest
  end.

(** [replace(/\([^)]*\)/g, '')]; [inside] while a match is being skipped. *)
Fixpoint stripParens (inside : bool) (s : string) : string :=
  match s with
  | EmptyString => EmptyString
  | String c rest =>
      if inside then
        if Ascii.eqb c ")" then stripParens false rest else stripParens true rest
      else if Ascii.eqb c "(" && hasClose rest then stripParens true rest
      else String c (stripParens false rest)
  end.

(** [replace(/: Limited Series$/i, '')] *)
Fixpoint stripLimited (s : string) : string :=
  if sameText s ": Limited Series" then EmptyString
  else match s with
       | EmptyString => EmptyString
       | String c rest => String c (stripLimited rest)
       end.

(** White space and line terminators of one, two and three bytes. *)
Definition isSpace1 (a : ascii) : bool :=
  (9 <=? nat_of_ascii a) && (nat_of_ascii a <=? 13) || Ascii.eqb a (byte 32).

Definition isSpace2 (a b : ascii) : bool :=
  Ascii.eqb a (byte 194) && Ascii.eqb b (byte 160).

Definition isSpace3 (a b c : ascii) : bool :=
  let '(x, y, z) := (nat_of_ascii a, nat_of_ascii b, nat_of_ascii c) in
  (x =? 225) && (y =? 154) && (z =? 128)
  || (x =? 226) && (y =? 128)
     && ((128 <=? z) && (z <=? 138) || (z =? 168) || (z =? 169) || (z =? 175))
  || (x =? 226) && (y =? 129) && (z =? 159)
  || (x =? 227) && (y =? 128) && (z =? 128)
  || (x =? 239) && (y =? 187) && (z =? 191).

Fixpoint dropSpace (two : ascii -> ascii -> bool)
    (three : ascii -> ascii -> ascii -> bool) (s : string) : string :=
  match s with
  | EmptyString => EmptyString
  | String a r1 =>
      if isSpace1 a then dropSpace two three r1
      else match r1 with
           | EmptyString => s
           | String b r2 =>
               if two a b then dropSpace two three r2
               else match r2 with
                    | EmptyString => s
                    | String c r3 =>
                        if three a b c then dropSpace two three r3 else s
                    end
           end
  end.

(** [trim()] *)
Definition trim (s : string) : string :=
  let s := dropSpace isSpace2 isSpace3 s in
  String.rev
    (dropSpace (fun a b => isSpace2 b a) (fun a b c => isSpace3 c b a)
       (String.rev s)).

Definition cleanTitle (title : string) : string :=
  let cleanedTitle := stripEpisode title in
  let cleanedTitle := stripParens false cleanedTitle in
  let cleanedTitle := stripLimited cleanedTitle in
  trim cleanedTitle.

End Title.

(** ** A small catalogue and runtime for the examples *)
Module Demo.

Definition candidate (id : Z) (media_type : string) (title name : option string)
    (first_air_date : option string) : TmdbResult.t :=
  {| TmdbResult.id := id;
     TmdbResult.media_type := Some media_type;
     TmdbResult.title := title;
     TmdbResult.name := name;
     TmdbResult.poster_path := None;
     TmdbResult.backdrop_path := None;
     TmdbResult.overview := None;
     TmdbResult.release_date := None;
     TmdbResult.first_air_date := first_air_date;
     TmdbResult.last_air_date := None;
     TmdbResult.vote_average := None |}.

Definition dark : TmdbResult.t :=
  candidate 70523 "tv" None (Some "Dark") (Some "2017-12-01").

Definition inception : TmdbResult.t :=
  candidate 27205 "movie" (Some "Inception") None None.

(** The source's normaliser. *)
Definition normalizer : Normalizer := {| cleanTitle := Title.cleanTitle |}.

(** A catalogue that knows two titles. *)
Definition catalog : Catalog :=
  {| searchMedia query :=
       if String.eqb query "Dark" then {| results := Some [dark] |}
       else if String.eqb query "Inception" then {| results := Some [inception] |}
       else {| results := Some [] |};
     getTVShowDetails tmdbId :=
       if (tmdbId =? 70523)%Z then Some {| tv_status := "Ended" |} else None |}.

Definition asciiLower (s : string) : string :=
  string_of_list_ascii (map Title.foldCase (list_ascii_of_string s)).

(** The runtime on the dates of the examples: midnight UTC of the day in
    milliseconds, and back. *)
Definition runtime : Runtime :=
  {| Date_getTime s :=
       if String.eqb s "2024-01-01" then Some 1704067200000%Z
       else if String.eqb s "2024-01-05" then Some 1704412800000%Z
       else None;
     toISOString t :=
       if (t =? 1704067200000)%Z then "2024-01-01T00:00:00.000Z"
       else if (t =? 1704412800000)%Z then "2024-01-05T00:00:00.000Z"
       else "";
     toLowerCase := asciiLower |}.

Definition watched (title date : string) : NetflixViewingItem.t :=
  {| NetflixViewingItem.title := title;
     NetflixViewingItem.date := date;
     NetflixViewingItem.rawTitle := Some title;
     NetflixViewingItem.rawDate := Some date |}.

Definition row (title date : string) : CSVData.t :=
  {| CSVData.Title := Some title; CSVData.Date := Some date |}.

(** Every lookup answers and completes before the next one answers; the
    host never cancels. *)
Definition calm : Timeline :=
  {| arrivals _ := []; cancelInBatch _ := false;
     cancelInYield _ := false; cancelInDelay _ := false |}.

(** In every batch the searches of the first two records both answer before
    either record's item has been created. *)
Definition overlapping : Timeline :=
  {| arrivals _ := [0; 1]; cancelInBatch _ := false;
     cancelInYield _ := false; cancelInDelay _ := false |}.

(** The host cancels while the batch that starts at index [at_] is in
    flight. *)
Definition cancelDuring (at_ : nat) : Timeline :=
  {| arrivals _ := []; cancelInBatch i := i =? at_;
     cancelInYield _ := false; cancelInDelay _ := false |}.

(** Forty-one viewings of one film: a full batch and one record more. *)
Definition film41 : list NetflixViewingItem.t :=
  replicate 41 (watched "Inception" "2024-01-01").

(** Forty-one viewings of a title the catalogue does not know, the first
    one the latest. *)
Definition obscure41 : list NetflixViewingItem.t :=
  watched "X" "2024-01-05" :: replicate 40 (watched "X" "2024-01-01").

(** Two episodes of one series, the later viewing first. *)
Definition twoEpisodes : list NetflixViewingItem.t :=
  [watched "Dark" "2024-01-05"; watched "Dark" "2024-01-01"].

(** The same unknown title on two days. *)
Definition twice : list NetflixViewingItem.t :=
  [watched "X" "2024-01-01"; watched "X" "2024-01-05"].

(** What the examples read off a returned collection. *)
Definition summary (items : list MediaItem.t) : list (string * option nat * string) :=
  map (λ item, (mergeKey item, MediaItem.watchCount item, MediaItem.watchedDate item))
      items.

Definition idle : World :=
  {| processingCancelled := false; localStorage := ∅; trace := [] |}.

End Demo.

(** ** [parseInt]

    [parseInt(s, 10)] skips leading white space, reads an optional sign and
    then the longest run of decimal digits; without a digit the answer is
    NaN, here [None].  Integers are exact, as they are in the runtime below
    2^53. *)
Fixpoint digitRun (s : string) : string :=
  match s with
  | String c rest => if Title.isDigit c then String c (digitRun rest) else EmptyString
  | EmptyString => EmptyString
  end.

Definition parseInt (s : string) : option Z :=
  let s := Title.dropSpace Title.isSpace2 Title.isSpace3 s in
  let '(negative, s) :=
    match s with
    | String c rest =>
        if Ascii.eqb c "-" then (true, rest)
        else if Ascii.eqb c "+" then (false, rest) else (false, s)
    | EmptyString => (false, s)
    end in
  match NilEmpty.uint_of_string (digitRun s) with
  | Some Decimal.Nil | None => None
  | Some d => Some (if negative then (- Z.of_uint d)%Z else Z.of_uint d)
  end.

(** ** tmdbService: the finished analysis in [localStorage]

    The entries under ['iquit-media-items'], ['iquit-stats'] and
    ['iquit-data-timestamp'], each absent or as [saveDataToLocalStorage]
    wrote it, so that nothing fails to parse.  The checkpoint functions keep
    to their own four keys and the functions below to these three. *)
Module DataStore.

Record t := {
  mediaItemsJson : option (list MediaItem.t);
  statsJson : option StatsData.t;
  timestampStr : option string;
}.

(** What [loadDataFromLocalStorage] returns; a [timestamp] of [Some None]
    is NaN. *)
Record Loaded := {
  mediaItems : option (list MediaItem.t);
  stats : option StatsData.t;
  timestamp : option (option Z);
}.

(** [saveDataToLocalStorage]; [now] is [Date.now()].  A write that the
    browser refuses is caught and logged by the source; here the three
    writes go through. *)
Definition saveDataToLocalStorage (mediaItems : list MediaItem.t)
    (stats : StatsData.t) (now : Z) (store : t) : t :=
  {| mediaItemsJson := Some mediaItems;
     statsJson := Some stats;
     timestampStr := Some (Number_toString now) |}.

(** [loadDataFromLocalStorage] *)
Definition loadDataFromLocalStorage (store : t) : Loaded :=
  {| mediaItems :=
       match mediaItemsJson store with
       | Some (item :: items) => Some (item :: items)
       | _ => None
       end;
     stats := statsJson store;
     timestamp :=
       if truthy (timestampStr store)
       then Some (parseInt (default "" (timestampStr store)))
       else None |}.

(** [clearLocalStorageData] *)
Definition clearLocalStorageData (store : t) : t :=
  {| mediaItemsJson := None; statsJson := None; timestampStr := None |}.

(** What [loadSavedData] shows when there is no run to resume: the saved
    analysis, if both halves load. *)
Definition restored (store : t) : option (list MediaItem.t * StatsData.t) :=
  match mediaItems (loadDataFromLocalStorage store),
        stats (loadDataFromLocalStorage store) with
  | Some mediaItems, Some stats => Some (mediaItems, stats)
  | _, _ => None
  end.

End DataStore.

(** ** The page component: the items discovered so far *)

#[global] Instance Id_eq_dec : EqDecision Id.
Proof. solve_decision. Defined.

Module Handlers.
Section Handlers.
Context `{Runtime}.

(** The updater [handleItemProcessed] gives to [setPartialMediaItems]. *)
Definition handleItemProcessed (item : MediaItem.t) (prev : list MediaItem.t)
  : list MediaItem.t :=
  if existsb (λ existingItem,
                bool_decide (MediaItem.id existingItem = MediaItem.id item)) prev
  then
    map (λ existingItem,
           if bool_decide (MediaItem.id existingItem = MediaItem.id item)
           then MediaItem.with_watchCount
                  (bumpWatchCount (MediaItem.watchCount existingItem)) existingItem
           else existingItem) prev
  else Array_sort byWatchedDateDesc (prev ++ [item]).

(** The list on the page after the calls of a trace, oldest first. *)
Definition partialMediaItems (es : list Effect) (prev : list MediaItem.t)
  : list MediaItem.t :=
  fold_left (λ prev e,
               match e with
               | ItemProcessed item => handleItemProcessed item prev
               | _ => prev
               end) es prev.

End Handlers.
End Handlers.

(** ** The statistics cards: the most active period *)
Module StatsOverview.

(** [getMostActive], on [Object.entries(data)]. *)
Definition getMostActive (entries : list (string * nat)) : string * nat :=
  match entries with
  | [] => ("None", 0)
  | first :: _ =>
      fold_left (λ max current, if max.2 <? current.2 then current else max)
                entries first
  end.

End StatsOverview.

(** ** tmdbService: the revision before cancellation and checkpoints

    The second text of the service: the same [processViewingItem] and
    [processBatch], a loop from index 0 on an empty map, and a
    [reportProcessedItem] that reports every value of the map.  Nothing the
    host does during the pause between two batches reaches this loop. *)
Module Middle.
Section MiddleScheduler.
Context `{Normalizer} `{Catalog} `{Runtime}.
Variable arrivals : nat -> list nat.
Variable viewingHistory : list NetflixViewingItem.t.
Variables progressCallback onItemProcessed : bool.

Definition reportProcessedItem (mediaMap : MediaMap) : list MediaItem.t :=
  JsMap.values mediaMap.

Fixpoint loop (fuel i : nat) (effects : list Effect) (mediaMap : MediaMap)
  : option (list MediaItem.t * list Effect) :=
  if i <? length viewingHistory then
    match fuel with
    | 0 => None
    | S fuel =>
        let batch := take batchSize (drop i viewingHistory) in
        let mediaMap := processBatch (arrivals i) batch mediaMap in
        let effects :=
          if progressCallback
          then effects ++ [Progress (i + length batch) (length viewingHistory)]
          else effects in
        let effects :=
          if onItemProcessed && (0 <? length batch)
          then effects ++ map ItemProcessed (reportProcessedItem mediaMap)
          else effects in
        loop fuel (i + batchSize) effects mediaMap
    end
  else Some (Array_sort byWatchedDateDesc (JsMap.values mediaMap), effects).

Definition processViewingHistory : option (list MediaItem.t * list Effect) :=
  loop (length viewingHistory) 0 [] [].

End MiddleScheduler.
End Middle.

(** ** The grid: sorting

    [sortItems] of the grid component; [localeCompare] belongs to the
    runtime.  The difference of two ratings shows as its sign. *)
Module MediaGrid.

Inductive SortOption := recent | title | rating.
Inductive SortDirection := asc | desc.

Section MediaGrid.
Context `{Runtime}.
Variable localeCompare : string -> string -> Z.

(** [a.voteAverage || 0] *)
Definition ratingOf (item : MediaItem.t) : QArith_base.Q :=
  default (QArith_base.Qmake 0 1) (MediaItem.voteAverage item).

Definition comparison (sortBy : SortOption) (a b : MediaItem.t) : Z :=
  match sortBy with
  | recent => byWatchedDateDesc a b
  | title => localeCompare (MediaItem.title a) (MediaItem.title b)
  | rating =>
      match QArith_base.Qcompare (ratingOf a) (ratingOf b) with
      | Lt => (-1)%Z
      | Eq => 0%Z
      | Gt => 1%Z
      end
  end.

Definition sortItems (sortBy : SortOption) (sortDirection : SortDirection)
    (mediaItems : list MediaItem.t) : list MediaItem.t :=
  Array_sort (λ a b,
                match sortDirection with
                | asc => comparison sortBy a b
                | desc => (- comparison sortBy a b)%Z
                end) mediaItems.

End MediaGrid.
End MediaGrid.

(** ** The page component: the end of an upload *)
Module Upload.
Section Upload.
Context `{Runtime}.

(** What [handleFileUpload] does with the outcome of the run: nothing after
    a cancellation; otherwise the statistics are computed, the analysis is
    saved and the checkpoint cleared.  [None] is the [catch] branch, reached
    when [generateStats] throws; [now] is the time of the save. *)
Definition afterProcessing (now : Z) (out : Outcome * World) (data : DataStore.t)
  : option (World * DataStore.t) :=
  if cancelled out.1 then Some (out.2, data)
  else match generateStats (mediaItems out.1) with
       | Some stats =>
           Some (with_storage clearProcessingState out.2,
                 DataStore.saveDataToLocalStorage (mediaItems out.1) stats now data)
       | None => None
       end.

End Upload.
End Upload.

(** * The vocabulary of the properties *)

(** ** Runs *)

(** The host calls [cancelProcessing] at one of the suspensions of the
    iteration at index [i]; the yield and the delay exist only under their
    conditions. *)
Definition hostCancels (tl : Timeline) (total i : nat) : bool :=
  cancelInBatch tl i
  || ((i mod 10 =? 0) && cancelInYield tl i)
  || ((i + batchSize <? total) && cancelInDelay tl i).

(** The host does not call [cancelProcessing] during the run. *)
Definition neverCancels (tl : Timeline) : Prop :=
  ∀ i, cancelInBatch tl i = false ∧ cancelInYield tl i = false
       ∧ cancelInDelay tl i = false.

(** The lookups of every batch answer and complete one after the other. *)
Definition inTurn (tl : Timeline) : Prop := ∀ i, arrivals tl i = [].

Section Merges.
Context `{Normalizer} `{Catalog} `{Runtime}.
Variable tl : Timeline.
Variable viewingHistory : list NetflixViewingItem.t.

(** The map after every batch from index [i] on has been merged. *)
Fixpoint mergeAll (fuel i : nat) (m : MediaMap) : MediaMap :=
  match fuel with
  | 0 => m
  | S fuel =>
      if i <? length viewingHistory
      then mergeAll fuel (i + batchSize)
             (processBatch (arrivals tl i) (take batchSize (drop i viewingHistory)) m)
      else m
  end.

(** The records of a history that map to [key]. *)
Definition tally (key : string) (l : list NetflixViewingItem.t) : nat :=
  length (List.filter (λ item, String.eqb (recordKey item) key) l).

(** The item a record gives when its key is new. *)
Definition newItem (item : NetflixViewingItem.t) : MediaItem.t :=
  match firstResult (searchMedia (cleanTitle (NetflixViewingItem.title item))) with
  | Some result => createMediaItem result (NetflixViewingItem.date item)
  | None =>
      createMinimalMediaItem (NetflixViewingItem.title item)
                             (NetflixViewingItem.date item)
  end.

(** [processViewingItem] run from its start to its end without another
    task in between. *)
Definition mergeRecord (m : MediaMap) (item : NetflixViewingItem.t) : MediaMap :=
  finish (AwaitSearch item) m.

(** The date of a record parses. *)
Definition validDate (item : NetflixViewingItem.t) : Prop :=
  is_Some (Date_getTime (NetflixViewingItem.date item)).

End Merges.

(** The records of a history that carry the title [T]. *)
Definition titled (T : string) (l : list NetflixViewingItem.t) : nat :=
  length (List.filter (λ item, String.eqb (NetflixViewingItem.title item) T) l).

(** ** The store *)

(** What [loadProcessingState] answers when there is nothing to resume. *)
Definition nothingSaved : ProcessingState :=
  {| ps_viewingHistory := None; ps_processedCount := 0;
     ps_partialItems := None; ps_isProcessing := false |}.

(** The keys under which the checkpoint is kept. *)
Definition checkpointKeys : list string :=
  ["iquit-viewing-history"; "iquit-processed-count"; "iquit-partial-items";
   "iquit-processing-active"].

(** The statistics of no items. *)
Definition emptyStats : StatsData.t :=
  {| StatsData.totalWatched := 0;
     StatsData.movieCount := 0;
     StatsData.tvCount := 0;
     StatsData.watchedByDay := ∅;
     StatsData.watchedByMonth := ∅;
     StatsData.watchedByYear := ∅;
     StatsData.mostWatchedShows := [];
     StatsData.continueWatchingShows := [] |}.

(** ** Ingestion *)

(** A row that has both a title and a date. *)
Definition hasTitleAndDate (row : CSVData.t) : Prop :=
  (∃ t, CSVData.Title row = Some t ∧ t ≠ "")
  ∧ (∃ d, CSVData.Date row = Some d ∧ d ≠ "").

(** Ingestion as the specification words it: going down the rows, a row with
    both fields gives one record that carries them, any other row gives
    none, and nothing else is left out. *)
Inductive Ingests : list CSVData.t -> list NetflixViewingItem.t -> Prop :=
| Ingests_nil : Ingests [] []
| Ingests_record row rows t d out :
    CSVData.Title row = Some t -> t ≠ "" ->
    CSVData.Date row = Some d -> d ≠ "" ->
    Ingests rows out ->
    Ingests (row :: rows)
      ({| NetflixViewingItem.title := t; NetflixViewingItem.date := d;
          NetflixViewingItem.rawTitle := Some t;
          NetflixViewingItem.rawDate := Some d |} :: out)
| Ingests_dropped row rows out :
    ¬ hasTitleAndDate row -> Ingests rows out -> Ingests (row :: rows) out.

(** ** Invariants of the merge *)

(** Every entry stands under the merge key of its item. *)
Definition keyed (m : MediaMap) : Prop := Forall (λ kv, kv.1 = mergeKey kv.2) m.

(** A suspended creation carries the key of its candidate. *)
Definition carriesKey (t : Task) : Prop :=
  match t with
  | AwaitCreate key result _ => key = matchedKey result
  | _ => True
  end.

(** What a task may still add to the map. *)
Definition weight (t : Task) : nat :=
  match t with Settled => 0 | _ => 1 end.

(** The map stays a map with one entry per merge key, and grows by no more
    than the tasks that are not settled yet. *)
Definition storeInv (bound : nat) (pool : list Task) (m : MediaMap) : Prop :=
  length m + sum_list_with weight pool ≤ bound
  ∧ NoDup (JsMap.keys m) ∧ keyed m ∧ Forall carriesKey pool.

(** Whether a task is a record titled [T] whose search has not answered. *)
Definition awaiting (T : string) (t : Task) : nat :=
  match t with
  | AwaitSearch item => if String.eqb (NetflixViewingItem.title item) T then 1 else 0
  | _ => 0
  end.

(** The count held under a key; 0 when the key is absent. *)
Definition credit (key : string) (m : MediaMap) : nat :=
  match JsMap.get key m with
  | Some item => default 0 (MediaItem.watchCount item)
  | None => 0
  end.

(** The entry of an unmatched title, when there is one, is the minimal item
    with a positive count. *)
Definition minimalAt (T : string) (m : MediaMap) : Prop :=
  ∀ item, JsMap.get (unknownKey T) m = Some item ->
    MediaItem.id item = IdStr (unknownKey T) ∧ MediaItem.type item = "movie"
    ∧ MediaItem.title item = T ∧ ∃ n, MediaItem.watchCount item = Some (S n).

(** What every continuation keeps about the key of a title [T] without
    candidate: its count and the records titled [T] still waiting for their
    search add up to [c]. *)
Definition unmatchedInv (T : string) (c : nat) (pool : list Task) (m : MediaMap) : Prop :=
  credit (unknownKey T) m + sum_list_with (awaiting T) pool = c
  ∧ Forall carriesKey pool ∧ minimalAt T m.

(** ** Statistics and order *)

Section Order.
Context `{Runtime}.

(** The date of an item parses. *)
Definition dated (item : MediaItem.t) : Prop :=
  is_Some (Date_getTime (MediaItem.watchedDate item)).

(** The time value of an item's date; 0 where it does not parse. *)
Definition watchedTime (item : MediaItem.t) : Z :=
  default 0%Z (Date_getTime (MediaItem.watchedDate item)).

(** Every item was watched no earlier than those after it. *)
Definition latestFirst (l : list MediaItem.t) : Prop :=
  StronglySorted (λ a b, (watchedTime b ≤ watchedTime a)%Z) l.

(** The day, month and year under which [updateWatchCounts] files an
    item. *)
Definition dayOf (item : MediaItem.t) : option string :=
  (λ date, beforeT (toISOString date)) <$> Date_getTime (MediaItem.watchedDate item).

Definition monthOf (item : MediaItem.t) : option string :=
  String.substring 0 7 <$> dayOf item.

Definition yearOf (item : MediaItem.t) : option string :=
  String.substring 0 4 <$> dayOf item.

(** The items filed under the period [k]. *)
Definition filedUnder (period : MediaItem.t -> option string) (k : string)
    (items : list MediaItem.t) : nat :=
  length (List.filter (λ item, bool_decide (period item = Some k)) items).

(** A histogram holds, under every period, the number of items filed under
    it, and no entry for a period without items. *)
Definition files (period : MediaItem.t -> option string) (counts : gmap string nat)
    (items : list MediaItem.t) : Prop :=
  ∀ k n, counts !! k = Some n <-> 0 < n ∧ n = filedUnder period k items.

(** Every item was watched no later than those after it. *)
Definition earliestFirst (l : list MediaItem.t) : Prop :=
  StronglySorted (λ a b, (watchedTime a ≤ watchedTime b)%Z) l.

End Order.

(** The count by which [generateStats] ranks an item. *)
Definition counted (item : MediaItem.t) : nat :=
  default 0 (MediaItem.watchCount item).

(** The sum of a histogram. *)
Definition histogramTotal (counts : gmap string nat) : nat :=
  map_fold (λ _ n acc, n + acc) 0 counts.

(** A series marked as continuing. *)
Definition continuingShow (item : MediaItem.t) : bool :=
  String.eqb (MediaItem.type item) "tv" && default false (MediaItem.continuing item).

(** ** Traces *)

(** The calls of the progress callback in a trace. *)
Definition progressCalls (es : list Effect) : list (nat * nat) :=
  omap (λ e, match e with Progress c t => Some (c, t) | _ => None end) es.

(** The items handed to the discovery callback in a trace. *)
Definition discoveries (es : list Effect) : list MediaItem.t :=
  omap (λ e, match e with ItemProcessed item => Some item | _ => None end) es.

(** What holds of the calls made up to the check at index [i]. *)
Definition progressInv (startIndex : nat) (viewingHistory : list NetflixViewingItem.t)
    (before : list (nat * nat)) (i : nat) (w : World) : Prop :=
  ∃ calls, progressCalls (trace w) = before ++ calls
    ∧ Forall (λ c, startIndex < c.1 ∧ c.1 ≤ i ∧ c.1 ≤ c.2
                   ∧ c.2 = length viewingHistory) calls
    ∧ StronglySorted (λ a b, a.1 < b.1) calls
    ∧ startIndex ≤ i
    ∧ (startIndex < i ->
       last calls = Some (i `min` length viewingHistory, length viewingHistory)).

(** ** Titles *)

(** The character [c] occurs in [s]. *)
Fixpoint mentions (c : ascii) (s : string) : bool :=
  match s with
  | EmptyString => false
  | String x rest => Ascii.eqb x c || mentions c rest
  end.

(** ** Provenance *)

Section Provenance.
Context `{Normalizer} `{Catalog} `{Runtime}.
Variable viewingHistory : list NetflixViewingItem.t.

(** Some record of the history maps to [key] and was watched on [d]. *)
Definition recorded (key d : string) : Prop :=
  ∃ rec, rec ∈ viewingHistory ∧ recordKey rec = key
         ∧ NetflixViewingItem.date rec = d.

(** What a task holds comes from a record of the history. *)
Definition fromHistory (t : Task) : Prop :=
  match t with
  | AwaitSearch item => item ∈ viewingHistory
  | AwaitCreate key result d => key = matchedKey result ∧ recorded key d
  | Settled => True
  end.

(** Every entry of the map stands under its merge key and carries the date
    of a record that maps to it. *)
Definition provenanceInv (pool : list Task) (m : MediaMap) : Prop :=
  Forall (λ kv, kv.1 = mergeKey kv.2 ∧ recorded kv.1 (MediaItem.watchedDate kv.2)) m
  ∧ Forall fromHistory pool.

End Provenance.

(** The counts held by the map and the tasks still to settle stay within
    [bound], and every count is positive. *)
Definition countInv (bound : nat) (pool : list Task) (m : MediaMap) : Prop :=
  sum_list_with counted (JsMap.values m) + sum_list_with weight pool ≤ bound
  ∧ Forall (λ kv, 0 < counted kv.2) m.

(** ** Revisions *)

(** An item without the date of its last viewing, when it has no
    candidate. *)
Definition forgetUnmatchedDate (item : MediaItem.t) : MediaItem.t :=
  match MediaItem.id item with
  | IdStr _ => MediaItem.with_watchedDate "" item
  | IdNum _ => item
  end.

(** Two maps hold the same entries but for those dates. *)
Definition sameButUnmatchedDates (m m' : MediaMap) : Prop :=
  map (λ kv, (kv.1, forgetUnmatchedDate kv.2)) m
  = map (λ kv, (kv.1, forgetUnmatchedDate kv.2)) m'.

(** ** Items for the examples *)
Module Samples.

(** A continuing series, seen three times. *)
Definition series : MediaItem.t :=
  {| MediaItem.id := IdNum 1399;
     MediaItem.title := "Series";
     MediaItem.type := "tv";
     MediaItem.posterPath := None;
     MediaItem.backdropPath := None;
     MediaItem.overview := None;
     MediaItem.releaseDate := None;
     MediaItem.firstAirDate := None;
     MediaItem.lastAirDate := None;
     MediaItem.status := Some "Returning Series";
     MediaItem.continuing := Some true;
     MediaItem.watchedDate := "2024-01-05";
     MediaItem.voteAverage := None;
     MediaItem.watchCount := Some 3 |}.

(** The series and a title without candidate. *)
Definition shelf : list MediaItem.t :=
  [series; createMinimalMediaItem "X" "2024-01-01"].

Definition shelfStats : StatsData.t :=
  default emptyStats (@generateStats Demo.runtime shelf).

(** A map with one matched film. *)
Definition filmMap : MediaMap :=
  [("27205-movie", @createMediaItem Demo.catalog Demo.inception "2024-01-01")].

(** Eighty-five viewings of one film: three batches. *)
Definition film85 : list NetflixViewingItem.t :=
  replicate 85 (Demo.watched "Inception" "2024-01-01").

(** A store without a saved analysis. *)
Definition nothingStored : DataStore.t :=
  {| DataStore.mediaItemsJson := None;
     DataStore.statsJson := None;
     DataStore.timestampStr := None |}.

End Samples.

(** * Properties *)

(** ** The map *)
Module JsMapFacts.
Import JsMap.

Lemma get_set_eq key v m : get key (set key v m) = Some v.
Proof.
  induction m as [|[k x] rest IH]; simpl.
  - by rewrite String.eqb_refl.
  - destruct (String.eqb k key) eqn:E; simpl; rewrite E; done.
Qed.

Lemma get_set_ne key key' v m : key ≠ key' -> get key' (set key v m) = get key' m.
Proof.
  intros Hne. induction m as [|[k x] rest IH]; simpl.
  - destruct (String.eqb_spec key key'); done.
  - destruct (String.eqb_spec k key) as [->|]; simpl.
    + destruct (String.eqb_spec key key'); done.
    + by rewrite IH.
Qed.

Lemma get_mutate_eq f key m : get key (mutate f key m) = f <$> get key m.
Proof.
  induction m as [|[k x] rest IH]; simpl; [done|].
  destruct (String.eqb k key) eqn:E; simpl; rewrite E; done.
Qed.

Lemma get_mutate_ne f key key' m :
  key ≠ key' -> get key' (mutate f key m) = get key' m.
Proof.
  intros Hne. induction m as [|[k x] rest IH]; simpl; [done|].
  destruct (String.eqb_spec k key) as [->|]; simpl.
  - destruct (String.eqb_spec key key'); done.
  - by rewrite IH.
Qed.

Lemma keys_mutate f key m : keys (mutate f key m) = keys m.
Proof.
  induction m as [|[k x] rest IH]; simpl; [done|].
  destruct (String.eqb k key); simpl; [done|]. by rewrite <- IH.
Qed.

Lemma length_mutate f key m : length (mutate f key m) = length m.
Proof.
  induction m as [|[k x] rest IH]; simpl; [done|].
  destruct (String.eqb k key); simpl; [done|]. by rewrite IH.
Qed.

Lemma get_None_keys key m : get key m = None <-> key ∉ keys m.
Proof.
  induction m as [|[k x] rest IH]; simpl.
  - split; [intros _; apply not_elem_of_nil | done].
  - rewrite not_elem_of_cons.
    destruct (String.eqb_spec k key) as [->|]; split; try done.
    + intros [? _]. done.
    + intros Hx. split; [done | by apply IH].
    + intros [_ Hx]. by apply IH.
Qed.

Lemma has_true key m : has key m = true <-> key ∈ keys m.
Proof.
  unfold has. destruct (get key m) eqn:E; split; try done.
  - intros _. destruct (decide (key ∈ keys m)) as [|Hn]; [done|].
    apply get_None_keys in Hn. congruence.
  - intros Hin. by apply get_None_keys in E.
Qed.

Lemma has_false key m : has key m = false <-> key ∉ keys m.
Proof.
  rewrite <- get_None_keys. unfold has. by destruct (get key m).
Qed.

Lemma keys_set key v m :
  keys (set key v m) = if has key m then keys m else keys m ++ [key].
Proof.
  unfold has. induction m as [|[k x] rest IH]; simpl; [done|].
  destruct (String.eqb_spec k key) as [->|]; simpl; [done|].
  rewrite IH. by destruct (get key rest).
Qed.

Lemma length_set key v m :
  length (set key v m) = if has key m then length m else S (length m).
Proof.
  unfold has. induction m as [|[k x] rest IH]; simpl; [done|].
  destruct (String.eqb_spec k key) as [->|]; simpl; [done|].
  rewrite IH. by destruct (get key rest).
Qed.

Lemma NoDup_keys_set key v m : NoDup (keys m) -> NoDup (keys (set key v m)).
Proof.
  intros Hnd. rewrite keys_set. destruct (has key m) eqn:E; [done|].
  apply has_false in E.
  apply NoDup_app. split_and!; [done| |apply NoDup_singleton].
  intros k Hk Hk'. by apply list_elem_of_singleton in Hk' as ->.
Qed.

Lemma elem_of_set kv key v m : kv ∈ set key v m -> kv = (key, v) ∨ kv ∈ m.
Proof.
  induction m as [|[k x] rest IH]; simpl.
  - intros ->%list_elem_of_singleton. by left.
  - destruct (String.eqb_spec k key) as [->|]; simpl; rewrite !elem_of_cons.
    + intros [->|]; [by left | right; by right].
    + intros [->|Hin]; [right; by left|].
      destruct (IH Hin); [by left | right; by right].
Qed.

Lemma elem_of_mutate kv f key m :
  kv ∈ mutate f key m -> kv ∈ m ∨ ∃ x, (key, x) ∈ m ∧ kv = (key, f x).
Proof.
  induction m as [|[k x] rest IH]; simpl; [by left|].
  destruct (String.eqb_spec k key) as [->|]; simpl; rewrite !elem_of_cons.
  - intros [->|Hin]; [right; exists x; split; [by left|done] | left; by right].
  - intros [->|Hin]; [left; by left|].
    destruct (IH Hin) as [|(y & Hy & ->)]; [left; by right|].
    right. exists y. rewrite elem_of_cons. split; [by right | done].
Qed.

Lemma elem_of_get key v m : get key m = Some v -> (key, v) ∈ m.
Proof.
  induction m as [|[k x] rest IH]; simpl; [done|].
  destruct (String.eqb_spec k key) as [->|].
  - intros [= ->]. by left.
  - intros Hg. right. by apply IH.
Qed.

Lemma get_elem_of key v m : NoDup (keys m) -> (key, v) ∈ m -> get key m = Some v.
Proof.
  induction m as [|[k x] rest IH]; simpl.
  - by intros _ ?%elem_of_nil.
  - intros [Hk Hnd]%NoDup_cons [[= <- <-]|Hin]%elem_of_cons.
    + by rewrite String.eqb_refl.
    + destruct (String.eqb_spec k key) as [->|]; [|by apply IH].
      exfalso. apply Hk. change key with (fst (key, v)). by apply list_elem_of_fmap_2.
Qed.

End JsMapFacts.

(** ** Keys *)

Lemma matchedKey_not_unknown result title : matchedKey result ≠ unknownKey title.
Proof.
  unfold matchedKey, unknownKey, Number_toString, NilZero.string_of_int,
    NilZero.string_of_uint.
  destruct (Z.to_int (TmdbResult.id result)) as [d|d]; destruct d; simpl; discriminate.
Qed.

Lemma unknownKey_inj title title' : unknownKey title = unknownKey title' -> title = title'.
Proof. unfold unknownKey. intros Heq. by simplify_eq/=. Qed.

(** ** The sort permutes *)

Lemma sort_insert_Permutation {A} (cmp : A -> A -> Z) x l :
  sort_insert cmp x l ≡ₚ x :: l.
Proof.
  induction l as [|y rest IH]; simpl; [done|].
  destruct (cmp x y <=? 0)%Z; [done|].
  rewrite IH. apply Permutation_swap.
Qed.

Lemma Array_sort_Permutation {A} (cmp : A -> A -> Z) l : Array_sort cmp l ≡ₚ l.
Proof.
  induction l as [|x rest IH]; simpl; [done|].
  by rewrite sort_insert_Permutation, IH.
Qed.

Lemma Array_sort_length {A} (cmp : A -> A -> Z) l :
  length (Array_sort cmp l) = length l.
Proof. apply Permutation_length, Array_sort_Permutation. Qed.

(** ** A batch under any order of arrival *)
Section BatchFacts.
Context `{Normalizer} `{Catalog} `{Runtime}.

Lemma resume_settles t m : (processViewingItem (processViewingItem t m).1 (processViewingItem t m).2).1 = Settled.
Proof.
  destruct t as [item|key result d|]; simpl; [|done|done].
  destruct (firstResult _); [|by destruct (negb _)].
  by destruct (JsMap.has _ _).
Qed.

Lemma wake_length j st : length (wake j st).1 = length st.1.
Proof.
  unfold wake. destruct (st.1 !! j) as [t|]; [|done].
  destruct (processViewingItem t st.2). simpl. by rewrite length_insert.
Qed.

(** A property of the pool and the map that every continuation keeps holds
    when the batch has settled, whatever the order of arrival. *)
Lemma processBatch_invariant (I : list Task -> MediaMap -> Prop) arrivals batch m :
  (∀ pre t post m,
      I (pre ++ t :: post) m -> I (pre ++ (processViewingItem t m).1 :: post) (processViewingItem t m).2) ->
  I (map AwaitSearch batch) m ->
  I (replicate (length batch) Settled) (processBatch arrivals batch m).
Proof.
  intros Hstep Hinit. unfold processBatch.
  assert (∀ l st, I st.1 st.2 ->
            I (fold_left (λ st j, wake j st) l st).1 (fold_left (λ st j, wake j st) l st).2
            ∧ length (fold_left (λ st j, wake j st) l st).1 = length st.1) as HA.
  { induction l as [|j l IH]; intros st Hst; simpl; [done|].
    destruct (IH (wake j st)) as [? ->]; [|by rewrite wake_length].
    unfold wake. destruct (st.1 !! j) as [t|] eqn:Hj; [|done].
    specialize (Hstep (take j st.1) t (drop (S j) st.1) st.2).
    rewrite take_drop_middle in Hstep by done.
    destruct (processViewingItem t st.2) as [t' m'] eqn:Hr. simpl in *.
    rewrite insert_take_drop by (by eapply lookup_lt_Some). by apply Hstep. }
  assert (∀ rest done_ m, I (done_ ++ rest) m ->
            I (done_ ++ replicate (length rest) Settled)
              (fold_left (λ m t, finish t m) rest m)) as HB.
  { induction rest as [|t rest IH]; intros done_ m0 Hm0; simpl; [done|].
    apply Hstep, Hstep in Hm0. rewrite resume_settles in Hm0.
    rewrite (cons_middle Settled), app_assoc in Hm0. apply IH in Hm0.
    rewrite (cons_middle Settled), app_assoc.
    unfold finish at 2. by destruct (processViewingItem t m0). }
  destruct (HA arrivals (map AwaitSearch batch, m) Hinit) as [HI Hlen].
  destruct (fold_left _ arrivals _) as [pool m1]. simpl in *.
  rewrite length_map in Hlen. rewrite <- Hlen. by apply (HB pool []).
Qed.

(** With no overlap the batch is the records merged one after the other. *)
Lemma processBatch_calm batch m :
  processBatch [] batch m = fold_left (λ m item, finish (AwaitSearch item) m) batch m.
Proof.
  unfold processBatch. simpl. revert m.
  induction batch as [|item batch IH]; intros m; simpl; [done|]. apply IH.
Qed.

End BatchFacts.

(** ** The loop *)
Section LoopFacts.
Context `{Normalizer} `{Catalog} `{Runtime}.
Variable tl : Timeline.
Variable viewingHistory : list NetflixViewingItem.t.
Variables progressCallback onItemProcessed : bool.
Variable startIndex : nat.

#[local] Abbreviation iteration := (iteration tl viewingHistory progressCallback onItemProcessed startIndex).
#[local] Abbreviation loop := (loop tl viewingHistory progressCallback onItemProcessed startIndex).

Lemma iteration_map i w m :
  (iteration i w m).2
  = processBatch (arrivals tl i) (take batchSize (drop i viewingHistory)) m.
Proof. done. Qed.

Lemma loop_S fuel i w m :
  loop (S fuel) i w m
  = if i <? length viewingHistory then
      if processingCancelled w then
        Some ({| mediaItems := JsMap.values m; cancelled := true |}, aborted i w)
      else loop fuel (i + batchSize) (iteration i w m).1 (iteration i w m).2
    else
      Some ({| mediaItems := Array_sort byWatchedDateDesc (JsMap.values m);
               cancelled := false |},
            with_storage completeProcessing w).
Proof. done. Qed.

(** The loop ends within as many iterations as there are records. *)
Lemma loop_total fuel i w m :
  length viewingHistory ≤ i + fuel -> is_Some (loop fuel i w m).
Proof.
  revert i w m. induction fuel as [|fuel IH]; intros i w m Hfuel.
  - simpl. destruct (Nat.ltb_spec i (length viewingHistory)); [lia | done].
  - rewrite loop_S. destruct (Nat.ltb_spec i (length viewingHistory)); [|done].
    destruct (processingCancelled w); [done|].
    apply IH. unfold batchSize. lia.
Qed.

(** [processViewingHistory] returns, on every input. *)
Lemma processViewingHistory_returns existingMediaMap w :
  is_Some (processViewingHistory tl viewingHistory progressCallback onItemProcessed
             startIndex existingMediaMap w).
Proof. unfold processViewingHistory. apply loop_total. lia. Qed.

(** Loop invariants.  A property kept by every iteration holds of the state
    in which the loop ends, and the outcome is read off that state: the
    values of the map at a cancellation check that fires, their sorted array
    after the last batch. *)
Lemma loop_invariant (P : nat -> World -> MediaMap -> Prop) :
  (∀ i w m, i < length viewingHistory -> processingCancelled w = false ->
      P i w m -> P (i + batchSize) (iteration i w m).1 (iteration i w m).2) ->
  ∀ fuel i w m, length viewingHistory ≤ i + fuel -> P i w m ->
  ∃ i' w' m', P i' w' m' ∧
    ((i' < length viewingHistory ∧ processingCancelled w' = true ∧
      loop fuel i w m
      = Some ({| mediaItems := JsMap.values m'; cancelled := true |}, aborted i' w'))
     ∨ (length viewingHistory ≤ i' ∧
        loop fuel i w m
        = Some ({| mediaItems := Array_sort byWatchedDateDesc (JsMap.values m');
                   cancelled := false |},
                with_storage completeProcessing w'))).
Proof.
  intros Hstep. induction fuel as [|fuel IH]; intros i w m Hfuel HP.
  - simpl. destruct (Nat.ltb_spec i (length viewingHistory)); [lia|].
    exists i, w, m. split; [done|]. by right.
  - rewrite loop_S. destruct (Nat.ltb_spec i (length viewingHistory)) as [Hlt|Hge].
    + destruct (processingCancelled w) eqn:Hc.
      * exists i, w, m. split; [done|]. by left.
      * apply IH; [unfold batchSize; lia | by apply Hstep].
    + exists i, w, m. split; [done|]. by right.
Qed.

End LoopFacts.

(** The earlier loop returns as well. *)
Lemma legacy_loop_total `{Normalizer} `{Catalog} `{Runtime}
    arrivals viewingHistory fuel i m :
  length viewingHistory ≤ i + fuel ->
  is_Some (Legacy.loop arrivals viewingHistory fuel i m).
Proof.
  revert i m. induction fuel as [|fuel IH]; intros i m Hfuel; simpl.
  - destruct (Nat.ltb_spec i (length viewingHistory)); [lia | done].
  - destruct (Nat.ltb_spec i (length viewingHistory)); [|done].
    apply IH. unfold Legacy.batchSize. lia.
Qed.

Lemma legacy_processViewingHistory_returns `{Normalizer} `{Catalog} `{Runtime}
    arrivals viewingHistory :
  is_Some (Legacy.processViewingHistory arrivals viewingHistory).
Proof. apply legacy_loop_total. lia. Qed.

(** ** What every continuation keeps *)

Lemma mergeKey_with_watchCount n item :
  mergeKey (MediaItem.with_watchCount n item) = mergeKey item.
Proof. done. Qed.

Lemma mergeKey_with_watchedDate d item :
  mergeKey (MediaItem.with_watchedDate d item) = mergeKey item.
Proof. done. Qed.

Lemma Forall_mutate (P : string * MediaItem.t -> Prop) f key m :
  (∀ x, P (key, x) -> P (key, f x)) -> Forall P m -> Forall P (JsMap.mutate f key m).
Proof.
  intros Hf. induction 1 as [|[k x] rest Hx Hrest IH]; simpl; [done|].
  destruct (String.eqb_spec k key) as [->|]; constructor; auto.
Qed.

Lemma Forall_set (P : string * MediaItem.t -> Prop) key v m :
  P (key, v) -> Forall P m -> Forall P (JsMap.set key v m).
Proof.
  intros Hv. induction 1 as [|[k x] rest Hx Hrest IH]; simpl.
  - by constructor.
  - destruct (String.eqb_spec k key) as [->|]; constructor; auto.
Qed.

Section StoreFacts.
Context `{Normalizer} `{Catalog} `{Runtime}.

Lemma createMediaItem_id result d :
  MediaItem.id (createMediaItem result d) = IdNum (TmdbResult.id result).
Proof.
  unfold createMediaItem. destruct (String.eqb _ "tv"); [|done].
  by destruct (getTVShowDetails _).
Qed.

Lemma createMediaItem_type result d :
  MediaItem.type (createMediaItem result d) = mediaTypeOf result.
Proof.
  unfold createMediaItem. destruct (String.eqb _ "tv"); [|done].
  by destruct (getTVShowDetails _).
Qed.

Lemma createMediaItem_watchCount result d :
  MediaItem.watchCount (createMediaItem result d) = Some 1.
Proof.
  unfold createMediaItem. destruct (String.eqb _ "tv"); [|done].
  by destruct (getTVShowDetails _).
Qed.

Lemma createMediaItem_watchedDate result d :
  MediaItem.watchedDate (createMediaItem result d) = d.
Proof.
  unfold createMediaItem. destruct (String.eqb _ "tv"); [|done].
  by destruct (getTVShowDetails _).
Qed.

Lemma mergeKey_createMediaItem result d :
  mergeKey (createMediaItem result d) = matchedKey result.
Proof.
  unfold mergeKey. by rewrite createMediaItem_id, createMediaItem_type.
Qed.

Lemma mergeKey_touch d item : mergeKey (touch d item) = mergeKey item.
Proof. unfold touch. by destruct (Date_gt _ _). Qed.

Lemma keyed_touch key d m : keyed m -> keyed (updateExistingMediaItem m key d).
Proof.
  apply Forall_mutate. intros x. simpl. by rewrite mergeKey_touch.
Qed.

Lemma storeInv_resume bound pre t post m :
  storeInv bound (pre ++ t :: post) m ->
  storeInv bound (pre ++ (processViewingItem t m).1 :: post) (processViewingItem t m).2.
Proof.
  unfold storeInv, updateExistingMediaItem.
  rewrite !sum_list_with_app, !Forall_app, !Forall_cons. simpl.
  intros (Hlen & Hnd & Hk & Hpre & Ht & Hpost).
  destruct t as [item|key result d|]; simpl in *; unfold updateExistingMediaItem.
  - destruct (firstResult _) as [result|].
    + destruct (JsMap.has _ m) eqn:Hhas; simpl.
      * rewrite JsMapFacts.length_mutate, JsMapFacts.keys_mutate.
        split_and!; [lia|done|by apply keyed_touch|done..].
      * split_and!; done.
    + destruct (JsMap.has _ m) eqn:Hhas; simpl.
      * rewrite JsMapFacts.length_mutate, JsMapFacts.keys_mutate.
        split_and!; [lia|done|by apply keyed_touch|done..].
      * rewrite JsMapFacts.length_set, Hhas.
        split_and!; [lia|by apply JsMapFacts.NoDup_keys_set| |done..].
        by apply Forall_set.
  - simpl in Ht. subst key. rewrite JsMapFacts.length_set.
    split_and!; [destruct (JsMap.has _ m); lia|by apply JsMapFacts.NoDup_keys_set| |done..].
    apply Forall_set; [|done]. simpl. by rewrite mergeKey_createMediaItem.
  - done.
Qed.

Lemma storeInv_processBatch arrivals batch m :
  NoDup (JsMap.keys m) -> keyed m ->
  let m' := processBatch arrivals batch m in
  length m' ≤ length m + length batch ∧ NoDup (JsMap.keys m') ∧ keyed m'.
Proof.
  intros Hnd Hk.
  pose proof (processBatch_invariant (storeInv (length m + length batch))
                arrivals batch m) as Hinv.
  destruct Hinv as (Hlen & Hnd' & Hk' & _).
  - intros. by apply storeInv_resume.
  - unfold storeInv. split_and!; [|done|done|].
    + clear. induction batch; simpl in *; lia.
    + clear. induction batch; by constructor.
  - simpl. split_and!; [lia|done..].
Qed.

End StoreFacts.

(** ** The produced collection: one item per merge key *)
Section Dedup.
Context `{Normalizer} `{Catalog} `{Runtime}.

Lemma keyed_mergeKeys m : keyed m -> map mergeKey (JsMap.values m) = JsMap.keys m.
Proof.
  induction 1 as [|[k x] rest Hx Hrest IH]; simpl in *; [done|]. by rewrite IH, Hx.
Qed.

(** A run started on a well-formed map, fresh or resumed, returns at most
    one item per merge key, and no more items than the map held plus the
    records from the start index on. *)
Lemma run_store tl viewingHistory progressCallback onItemProcessed startIndex m0 w :
  NoDup (JsMap.keys m0) -> keyed m0 ->
  ∃ r w', processViewingHistory tl viewingHistory progressCallback onItemProcessed
            startIndex (Some m0) w = Some (r, w')
    ∧ length (mediaItems r) ≤ length m0 + (length viewingHistory - startIndex)
    ∧ NoDup (map mergeKey (mediaItems r)).
Proof.
  intros Hnd Hk. unfold processViewingHistory. simpl.
  destruct (loop_invariant tl viewingHistory progressCallback onItemProcessed startIndex
    (λ i _ m, length m + (length viewingHistory - i)
                ≤ length m0 + (length viewingHistory - startIndex)
              ∧ NoDup (JsMap.keys m) ∧ keyed m)) with
    (fuel := length viewingHistory) (i := startIndex)
    (w := resetCancellation w) (m := m0)
    as (i' & w' & m' & (Hlen & Hnd' & Hk') & Hres).
  - intros i w0 m Hi _ (Hlen & Hnd' & Hk'). rewrite iteration_map.
    destruct (storeInv_processBatch (arrivals tl i)
                (take batchSize (drop i viewingHistory)) m Hnd' Hk')
      as (Hlen' & ? & ?).
    split_and!; [|done..].
    rewrite length_take, length_drop in Hlen'. unfold batchSize in *. lia.
  - lia.
  - done.
  - assert (length (JsMap.values m') = length m') as Hval
      by (unfold JsMap.values; apply length_map).
    destruct Hres as [(_ & _ & ->)|(_ & ->)]; eexists _, _; (split; [done|]); simpl.
    + rewrite Hval, keyed_mergeKeys by done. split; [lia | done].
    + rewrite Array_sort_length, Hval. split; [lia|].
      rewrite (Permutation_map mergeKey (Array_sort_Permutation _ _)).
      by rewrite keyed_mergeKeys.
Qed.


End Dedup.

(** ** Records without a candidate *)

Lemma titled_app T l l' : titled T (l ++ l') = titled T l + titled T l'.
Proof. unfold titled. by rewrite List.filter_app, length_app. Qed.

Lemma awaiting_batch T batch :
  sum_list_with (awaiting T) (map AwaitSearch batch) = titled T batch.
Proof.
  unfold titled. induction batch as [|item batch IH]; simpl; [done|].
  destruct (String.eqb _ T); simpl; lia.
Qed.

Lemma awaiting_settled T n : sum_list_with (awaiting T) (replicate n Settled) = 0.
Proof. induction n; simpl; lia. Qed.

Lemma NoDup_map_inj {A B} (f : A -> B) l x y :
  NoDup (map f l) -> x ∈ l -> y ∈ l -> f x = f y -> x = y.
Proof.
  induction l as [|a l IH]; simpl.
  - by intros _ ?%elem_of_nil.
  - intros [Ha Hnd]%NoDup_cons [->|Hx]%elem_of_cons [->|Hy]%elem_of_cons Hf.
    + done.
    + exfalso. apply Ha. rewrite Hf. by apply (list_elem_of_fmap_2 f).
    + exfalso. apply Ha. rewrite <- Hf. by apply (list_elem_of_fmap_2 f).
    + by apply IH.
Qed.

Section Unmatched.
Context `{Normalizer} `{Catalog} `{Runtime}.
Variable T : string.
Hypothesis noCandidate : firstResult (searchMedia (cleanTitle T)) = None.

Lemma credit_other key f m :
  key ≠ unknownKey T -> credit (unknownKey T) (JsMap.mutate f key m) = credit (unknownKey T) m.
Proof. intros Hne. unfold credit. by rewrite JsMapFacts.get_mutate_ne. Qed.

Lemma credit_set_other key v m :
  key ≠ unknownKey T -> credit (unknownKey T) (JsMap.set key v m) = credit (unknownKey T) m.
Proof. intros Hne. unfold credit. by rewrite JsMapFacts.get_set_ne. Qed.

Lemma minimalAt_other key f m :
  key ≠ unknownKey T -> minimalAt T m -> minimalAt T (JsMap.mutate f key m).
Proof. intros Hne Hm item. rewrite JsMapFacts.get_mutate_ne by done. apply Hm. Qed.

Lemma minimalAt_set_other key v m :
  key ≠ unknownKey T -> minimalAt T m -> minimalAt T (JsMap.set key v m).
Proof. intros Hne Hm item. rewrite JsMapFacts.get_set_ne by done. apply Hm. Qed.

Lemma unmatchedInv_resume c pre t post m :
  unmatchedInv T c (pre ++ t :: post) m ->
  unmatchedInv T c (pre ++ (processViewingItem t m).1 :: post) (processViewingItem t m).2.
Proof.
  unfold unmatchedInv.
  rewrite !sum_list_with_app, !Forall_app, !Forall_cons.
  intros (Hc & (Hpre & Ht & Hpost) & Hmin).
  destruct t as [item|key result d|]; simpl in *; unfold updateExistingMediaItem.
  - destruct (firstResult (searchMedia (cleanTitle (NetflixViewingItem.title item))))
      as [result|] eqn:Hsearch.
    + assert (String.eqb (NetflixViewingItem.title item) T = false) as Hne.
      { destruct (String.eqb_spec (NetflixViewingItem.title item) T) as [Heq|]; [|done].
        rewrite Heq in Hsearch. congruence. }
      rewrite Hne in Hc.
      pose proof (matchedKey_not_unknown result T) as Hkey.
      destruct (JsMap.has _ m); simpl.
      * rewrite credit_other by done.
        split_and!; [lia|done..|by apply minimalAt_other].
      * split_and!; [lia|done..].
    + destruct (String.eqb_spec (NetflixViewingItem.title item) T) as [Heq|Hne].
      * rewrite Heq in *. unfold JsMap.has, credit in *.
        destruct (JsMap.get (unknownKey T) m) as [existing|] eqn:Hget; simpl.
        -- destruct (Hmin existing Hget) as (Hid & Hty & Hti & n & Hn).
           rewrite JsMapFacts.get_mutate_eq, Hget. simpl.
           assert (MediaItem.watchCount (touch (NetflixViewingItem.date item) existing)
                   = Some (S n + 1)) as Hw.
           { unfold touch. rewrite Hn. by destruct (Date_gt _ _). }
           rewrite Hw, Hn in *. simpl in *. split_and!; [lia|done..|].
           intros item'. rewrite JsMapFacts.get_mutate_eq, Hget. intros [= <-].
           unfold touch. destruct (Date_gt _ _); simpl; rewrite ?Hn; eauto 10.
        -- rewrite JsMapFacts.get_set_eq. simpl. split_and!; [lia|done..|].
           intros item'. rewrite JsMapFacts.get_set_eq. intros [= <-].
           simpl. eauto 10.
      * assert (unknownKey (NetflixViewingItem.title item) ≠ unknownKey T) as Hkey
          by (by intros ?%unknownKey_inj).
        destruct (JsMap.has _ m); simpl.
        -- rewrite credit_other by done.
           split_and!; [lia|done..|by apply minimalAt_other].
        -- rewrite credit_set_other by done.
           split_and!; [lia|done..|by apply minimalAt_set_other].
  - subst key. pose proof (matchedKey_not_unknown result T) as Hkey.
    rewrite credit_set_other by done.
    split_and!; [lia|done..|by apply minimalAt_set_other].
  - done.
Qed.

(** A settled batch has counted every one of its records titled [T] under
    the key of [T], in whatever order its lookups answered. *)
Lemma unmatched_processBatch arrivals batch m :
  minimalAt T m ->
  let m' := processBatch arrivals batch m in
  credit (unknownKey T) m' = credit (unknownKey T) m + titled T batch ∧ minimalAt T m'.
Proof.
  intros Hmin.
  destruct (processBatch_invariant
              (unmatchedInv T (credit (unknownKey T) m + titled T batch))
              arrivals batch m) as (Hc & _ & Hmin').
  - intros. by apply unmatchedInv_resume.
  - unfold unmatchedInv. rewrite awaiting_batch. split_and!; [done| |done].
    clear. induction batch; by constructor.
  - rewrite awaiting_settled in Hc. simpl. split; [lia | done].
Qed.

End Unmatched.

Section UnmatchedRun.
Context `{Normalizer} `{Catalog} `{Runtime}.

(** A fresh run, as far as it got: the records before some index [n] have
    been merged, all of them when the run was not cancelled, and for a
    title without a candidate the item under its key counts each of them. *)
Lemma unmatched_run tl viewingHistory progressCallback onItemProcessed w T :
  firstResult (searchMedia (cleanTitle T)) = None ->
  ∃ r w' n, processViewingHistory tl viewingHistory progressCallback onItemProcessed
            0 None w = Some (r, w')
    ∧ (cancelled r = false -> length viewingHistory ≤ n)
    ∧ NoDup (map mergeKey (mediaItems r))
    ∧ (0 < titled T (take n viewingHistory) ->
       ∃ item, item ∈ mediaItems r
         ∧ mergeKey item = unknownKey T
         ∧ MediaItem.type item = "movie"
         ∧ MediaItem.watchCount item = Some (titled T (take n viewingHistory))).
Proof.
  intros Hnone. unfold processViewingHistory. simpl.
  destruct (loop_invariant tl viewingHistory progressCallback onItemProcessed 0
    (λ i _ m, NoDup (JsMap.keys m) ∧ keyed m ∧ minimalAt T m
              ∧ credit (unknownKey T) m = titled T (take i viewingHistory))) with
    (fuel := length viewingHistory) (i := 0)
    (w := resetCancellation w) (m := @nil (string * MediaItem.t))
    as (n & w' & m' & (Hnd & Hk & Hmin & Hc) & Hres).
  - intros i w0 m Hi _ (Hnd & Hk & Hmin & Hc). rewrite iteration_map.
    destruct (storeInv_processBatch (arrivals tl i)
                (take batchSize (drop i viewingHistory)) m Hnd Hk) as (_ & ? & ?).
    destruct (unmatched_processBatch T Hnone (arrivals tl i)
                (take batchSize (drop i viewingHistory)) m Hmin) as (Hc' & ?).
    split_and!; [done..|].
    by rewrite Hc', Hc, <- take_take_drop, titled_app.
  - lia.
  - split_and!; [constructor|constructor|done|done].
  - assert (0 < titled T (take n viewingHistory) ->
            ∃ item, item ∈ JsMap.values m' ∧ mergeKey item = unknownKey T
              ∧ MediaItem.type item = "movie"
              ∧ MediaItem.watchCount item = Some (titled T (take n viewingHistory)))
      as Hitem.
    { rewrite <- Hc. unfold credit. intros Hpos.
      destruct (JsMap.get (unknownKey T) m') as [item|] eqn:Hget; [|lia].
      destruct (Hmin item Hget) as (Hid & Hty & _ & k & Hk').
      exists item. split_and!; [|by unfold mergeKey; rewrite Hid|done|by rewrite Hk'].
      apply JsMapFacts.elem_of_get in Hget.
      by apply (list_elem_of_fmap_2 snd) in Hget. }
    destruct Hres as [(_ & _ & ->)|(Hn & ->)]; eexists _, _, n; (split; [done|]); simpl.
    + split_and!; [done| |done]. by rewrite keyed_mergeKeys.
    + split_and!; [done| |].
      * rewrite (Permutation_map mergeKey (Array_sort_Permutation _ _)).
        by rewrite keyed_mergeKeys.
      * intros Hpos. destruct (Hitem Hpos) as (item & Hin & ?).
        exists item. split; [|done]. by rewrite Array_sort_Permutation.
Qed.


End UnmatchedRun.

(** ** Cancellation *)

Section Cancellation.
Context `{Normalizer} `{Catalog} `{Runtime}.
Variable tl : Timeline.
Variable viewingHistory : list NetflixViewingItem.t.
Variables progressCallback onItemProcessed : bool.
Variable startIndex : nat.

#[local] Abbreviation iteration' :=
  (iteration tl viewingHistory progressCallback onItemProcessed startIndex).
#[local] Abbreviation loop' :=
  (loop tl viewingHistory progressCallback onItemProcessed startIndex).
#[local] Abbreviation mergeAll' := (mergeAll tl viewingHistory).

(** The flag after an iteration: set before, or set by the host during it.
    Nothing in the loop resets it. *)
Lemma iteration_flag i w m :
  processingCancelled (iteration' i w m).1
  = processingCancelled w || hostCancels tl (length viewingHistory) i.
Proof.
  unfold iteration, hostCancels, suspended.
  generalize (i mod 10 =? 0) (i + batchSize <? length viewingHistory)
    (startIndex <? i) (cancelInBatch tl i) (cancelInYield tl i) (cancelInDelay tl i)
    (onItemProcessed && (0 <? length (take batchSize (drop i viewingHistory)))).
  intros [] [] [] [] [] [] []; destruct progressCallback, (processingCancelled w) eqn:E;
    simpl; by rewrite ?E.
Qed.

(** The check at a batch boundary: a flag that is set ends the run there.
    No batch runs, no callback is called and the store is not touched; the
    one effect is the console line. *)
Lemma cancel_checked_at_boundary fuel i w m :
  i < length viewingHistory -> processingCancelled w = true ->
  loop' fuel i w m
  = Some ({| mediaItems := JsMap.values m; cancelled := true |}, aborted i w).
Proof.
  intros Hi Hc. destruct fuel; [simpl|rewrite loop_S];
    (destruct (Nat.ltb_spec i (length viewingHistory)); [|lia]); by rewrite Hc.
Qed.

(** When the host cancels while an iteration other than the last is
    suspended, that iteration completes and the loop ends at the next
    check. *)
Lemma cancel_in_flight fuel i w m :
  i + batchSize < length viewingHistory ->
  processingCancelled w = false ->
  hostCancels tl (length viewingHistory) i = true ->
  loop' (S fuel) i w m
  = Some ({| mediaItems := JsMap.values (iteration' i w m).2; cancelled := true |},
          aborted (i + batchSize) (iteration' i w m).1).
Proof.
  intros Hi Hc Hhost. rewrite loop_S.
  destruct (Nat.ltb_spec i (length viewingHistory)); [|lia]. rewrite Hc.
  apply cancel_checked_at_boundary; [done|].
  by rewrite iteration_flag, Hc, Hhost.
Qed.

Lemma firstIterations_S n i w m :
  firstIterations tl viewingHistory progressCallback onItemProcessed startIndex
    (S n) i w m
  = if (i <? length viewingHistory) && negb (processingCancelled w)
    then firstIterations tl viewingHistory progressCallback onItemProcessed startIndex
           n (i + batchSize) (iteration' i w m).1 (iteration' i w m).2
    else (w, m).
Proof.
  cbn [firstIterations]. destruct (_ && _); [|done]. by destruct (iteration' i w m).
Qed.

(** The loop when the first cancellation comes during its iteration number
    [q] (from 0), which is not its last. *)
Lemma loop_first_cancel q :
  ∀ fuel i w m,
    processingCancelled w = false ->
    (∀ j, j < q -> hostCancels tl (length viewingHistory) (i + batchSize * j) = false) ->
    hostCancels tl (length viewingHistory) (i + batchSize * q) = true ->
    i + batchSize * q + batchSize < length viewingHistory ->
    q < fuel ->
    loop' fuel i w m
    = Some ({| mediaItems :=
                 JsMap.values
                   (firstIterations tl viewingHistory progressCallback onItemProcessed
                      startIndex (S q) i w m).2;
               cancelled := true |},
            aborted (i + batchSize * S q)
              (firstIterations tl viewingHistory progressCallback onItemProcessed
                 startIndex (S q) i w m).1).
Proof.
  induction q as [|q IH]; intros fuel i w m Hc Hbefore Hat Hlast Hfuel;
    (destruct fuel as [|fuel]; [lia|]); rewrite firstIterations_S, Hc;
    (destruct (Nat.ltb_spec i (length viewingHistory)); [|lia]); simpl andb; cbv iota.
  - rewrite Nat.mul_0_r, Nat.add_0_r in *. rewrite cancel_in_flight by (done || lia).
    by rewrite Nat.mul_1_r.
  - rewrite loop_S.
    destruct (Nat.ltb_spec i (length viewingHistory)); [|lia]. rewrite Hc.
    assert (processingCancelled (iteration' i w m).1 = false) as Hc'.
    { rewrite iteration_flag, Hc. specialize (Hbefore 0).
      rewrite Nat.mul_0_r, Nat.add_0_r in Hbefore. rewrite Hbefore by lia. done. }
    rewrite (IH fuel (i + batchSize)); [|done| | |lia|lia].
    + do 3 f_equal. lia.
    + intros j Hj. rewrite <- (Hbefore (S j)) by lia. f_equal. lia.
    + rewrite <- Hat. f_equal. lia.
Qed.

Lemma loop_past_end fuel i w m :
  length viewingHistory ≤ i ->
  loop' fuel i w m
  = Some ({| mediaItems := Array_sort byWatchedDateDesc (JsMap.values m);
             cancelled := false |},
          with_storage completeProcessing w).
Proof.
  intros Hi. destruct fuel; [simpl|rewrite loop_S];
    (destruct (Nat.ltb_spec i (length viewingHistory)); [lia | done]).
Qed.

(** As long as the host does not cancel, the run is its first [n]
    iterations followed by the rest of the loop. *)
Lemma loop_after_firstIterations n fuel i w m :
  neverCancels tl -> processingCancelled w = false ->
  loop' (n + fuel) i w m
  = loop' fuel (i + n * batchSize)
      (firstIterations tl viewingHistory progressCallback onItemProcessed startIndex
         n i w m).1
      (firstIterations tl viewingHistory progressCallback onItemProcessed startIndex
         n i w m).2.
Proof.
  intros Hnever. revert i w m. induction n as [|n IH]; intros i w m Hc.
  - simpl. by rewrite Nat.add_0_r.
  - rewrite firstIterations_S, Hc. change (S n + fuel) with (S (n + fuel)).
    rewrite loop_S. destruct (Nat.ltb_spec i (length viewingHistory)) as [Hi|Hi].
    + rewrite Hc. simpl andb. cbv iota. rewrite IH.
      * f_equal. lia.
      * rewrite iteration_flag, Hc. unfold hostCancels.
        destruct (Hnever i) as (-> & -> & ->). by rewrite !andb_false_r.
    + simpl andb. cbv iota. simpl fst. simpl snd.
      by rewrite loop_past_end by lia.
Qed.

Lemma mergeAll_S fuel i m :
  mergeAll' (S fuel) i m
  = if i <? length viewingHistory
    then mergeAll' fuel (i + batchSize)
           (processBatch (arrivals tl i) (take batchSize (drop i viewingHistory)) m)
    else m.
Proof. done. Qed.

Lemma loop_neverCancels fuel i w m :
  neverCancels tl -> length viewingHistory ≤ i + fuel ->
  processingCancelled w = false ->
  ∃ w', loop' fuel i w m
        = Some ({| mediaItems :=
                     Array_sort byWatchedDateDesc (JsMap.values (mergeAll' fuel i m));
                   cancelled := false |}, w')
    ∧ processingCancelled w' = false.
Proof.
  intros Hnever. revert i w m. induction fuel as [|fuel IH]; intros i w m Hfuel Hc.
  - simpl. destruct (Nat.ltb_spec i (length viewingHistory)); [lia|].
    eexists. split; [done|]. done.
  - rewrite loop_S, mergeAll_S.
    destruct (Nat.ltb_spec i (length viewingHistory)).
    + rewrite Hc. rewrite iteration_map. apply IH; [unfold batchSize; lia|].
      rewrite iteration_flag, Hc. unfold hostCancels.
      destruct (Hnever i) as (-> & -> & ->). by rewrite !andb_false_r.
    + eexists. split; [done|]. done.
Qed.

(** C10.  The run resets the flag at its start: with the flag set before
    the call and no cancellation during the run, every batch from the start
    index on is merged and the run returns the sorted items with
    [cancelled = false]. *)
Theorem pre_run_cancellation_discarded existingMediaMap w :
  neverCancels tl ->
  processingCancelled w = true ->
  ∃ w', processViewingHistory tl viewingHistory progressCallback onItemProcessed
          startIndex existingMediaMap w
        = Some ({| mediaItems :=
                     Array_sort byWatchedDateDesc
                       (JsMap.values (mergeAll' (length viewingHistory) startIndex
                                        (default [] existingMediaMap)));
                   cancelled := false |}, w')
    ∧ processingCancelled w' = false.
Proof.
  intros Hnever _. unfold processViewingHistory.
  apply loop_neverCancels; [done|lia|done].
Qed.

(** C5, amended.  The flag is honoured at batch boundaries.  When the first
    cancellation is signalled while batch number [q] of the run is in flight
    or in the pause after it, and that batch is not the last, the batch
    completes, and at the next boundary the run stops: it returns the items
    of the map as that batch left it, with [cancelled = true], and the world
    is the one that iteration left but for the console line of the abort.
    No further batch, no callback and no completion step follows. *)
Theorem cancellation_stops_at_next_boundary existingMediaMap w q :
  (∀ j, j < q ->
     hostCancels tl (length viewingHistory) (startIndex + batchSize * j) = false) ->
  hostCancels tl (length viewingHistory) (startIndex + batchSize * q) = true ->
  startIndex + batchSize * q + batchSize < length viewingHistory ->
  let reached :=
    firstIterations tl viewingHistory progressCallback onItemProcessed startIndex
      (S q) startIndex (resetCancellation w) (default [] existingMediaMap) in
  processViewingHistory tl viewingHistory progressCallback onItemProcessed
    startIndex existingMediaMap w
  = Some ({| mediaItems := JsMap.values reached.2; cancelled := true |},
          aborted (startIndex + batchSize * S q) reached.1).
Proof.
  intros Hbefore Hat Hlast. unfold processViewingHistory.
  apply loop_first_cancel; [done..|]. unfold batchSize in *. lia.
Qed.

End Cancellation.

(** ** The checkpoint store *)

Lemma clearProcessingState_lookup store key :
  clearProcessingState store !! key
  = if bool_decide (key ∈ checkpointKeys) then None else store !! key.
Proof.
  unfold clearProcessingState, checkpointKeys.
  case_bool_decide as Hkey.
  - rewrite !elem_of_cons, elem_of_nil in Hkey.
    destruct Hkey as [->|[->|[->|[->|[]]]]];
      repeat (rewrite lookup_delete_eq || rewrite lookup_delete_ne by done); done.
  - rewrite !not_elem_of_cons in Hkey. destruct Hkey as (? & ? & ? & ? & _).
    by rewrite !lookup_delete_ne by done.
Qed.

(** C6, as the code has it.  Signalling cancellation sets the flag and
    removes the checkpoint: afterwards none of the four checkpoint entries
    is in the store, [loadProcessingState] finds nothing to resume, and the
    entries under other keys are as before. *)
Theorem cancelProcessing_clears_checkpoint w :
  processingCancelled (cancelProcessing w) = true
  ∧ loadProcessingState (localStorage (cancelProcessing w)) = nothingSaved
  ∧ ∀ key, localStorage (cancelProcessing w) !! key
           = if bool_decide (key ∈ checkpointKeys) then None
             else localStorage w !! key.
Proof.
  split_and!; [done| |intros key; apply clearProcessingState_lookup].
  unfold loadProcessingState. simpl.
  by rewrite !clearProcessingState_lookup.
Qed.

Lemma load_after_save viewingHistory processedCount partialItems store :
  loadProcessingState
    (saveProcessingState viewingHistory processedCount partialItems store)
  = {| ps_viewingHistory := Some viewingHistory;
       ps_processedCount := processedCount;
       ps_partialItems := Some partialItems;
       ps_isProcessing := true |}.
Proof.
  unfold loadProcessingState, saveProcessingState.
  by repeat (rewrite lookup_insert_eq || rewrite lookup_insert_ne by done).
Qed.

(** X4.  The checkpoint an iteration writes: the index at which its batch
    started, with the items as they are after that batch. *)
Lemma checkpoint_of_iteration `{Normalizer} `{Catalog} `{Runtime}
    tl viewingHistory progressCallback onItemProcessed startIndex i w m :
  i mod 10 = 0 -> startIndex < i ->
  cancelInYield tl i = false -> cancelInDelay tl i = false ->
  loadProcessingState
    (localStorage
       (iteration tl viewingHistory progressCallback onItemProcessed startIndex
          i w m).1)
  = {| ps_viewingHistory := Some viewingHistory;
       ps_processedCount := i;
       ps_partialItems :=
         Some (JsMap.values
                 (processBatch (arrivals tl i)
                    (take batchSize (drop i viewingHistory)) m));
       ps_isProcessing := true |}.
Proof.
  intros Hmod Hstart Hyield Hdelay. unfold iteration.
  rewrite Hmod, Hyield, Hdelay. apply Nat.ltb_lt in Hstart. rewrite Hstart.
  change (0 =? 0) with true. cbv beta iota zeta. simpl andb. cbv iota.
  destruct (_ <? length viewingHistory); simpl; apply load_after_save.
Qed.

(** ** Ingestion *)

Lemma truthy_spec s : truthy s = true <-> ∃ t, s = Some t ∧ t ≠ "".
Proof.
  destruct s as [t|]; simpl.
  - destruct (String.eqb_spec t ""); split; try done.
    + intros (? & [= <-] & ?). done.
    + intros _. by exists t.
  - split; [done | by intros (? & ? & _)].
Qed.

Lemma kept_spec row :
  truthy (CSVData.Title row) && truthy (CSVData.Date row) = true <-> hasTitleAndDate row.
Proof. unfold hasTitleAndDate. by rewrite andb_true_iff, !truthy_spec. Qed.

(** The first revision of [parseNetflixCSV] is that ingestion. *)
Lemma parseNetflixCSV_ingests data : Ingests data (CsvService.parseNetflixCSV data).
Proof.
  unfold CsvService.parseNetflixCSV.
  induction data as [|row rows IH]; simpl; [constructor|].
  destruct (truthy (CSVData.Title row) && truthy (CSVData.Date row)) eqn:E.
  - apply kept_spec in E as Hrow. destruct Hrow as [(t & Ht & ?) (d & Hd & ?)].
    simpl. unfold toViewingItem. rewrite Ht, Hd. simpl. by constructor.
  - apply Ingests_dropped; [|done]. rewrite <- kept_spec. by rewrite E.
Qed.

Lemma Ingests_unique data out :
  Ingests data out -> out = CsvService.parseNetflixCSV data.
Proof.
  unfold CsvService.parseNetflixCSV.
  induction 1 as [|row rows t d out Ht Hne Hd Hne' _ IH|row rows out Hrow _ IH]; simpl.
  - done.
  - assert (hasTitleAndDate row) as Hrow by (split; eauto).
    apply kept_spec in Hrow. rewrite Hrow. simpl. unfold toViewingItem.
    by rewrite Ht, Hd, IH.
  - destruct (truthy (CSVData.Title row) && truthy (CSVData.Date row)) eqn:E; [|done].
    by apply kept_spec in E.
Qed.

(** X3.  The records of the first revision are exactly the rows with both
    fields, one each and in order; no other result is an ingestion. *)
Lemma first_revision_keeps_every_valid_row data out :
  Ingests data out <-> out = CsvService.parseNetflixCSV data.
Proof.
  split; [apply Ingests_unique | intros ->; apply parseNetflixCSV_ingests].
Qed.

(** The second revision gives the first fifty of them. *)
Lemma sliced_is_first_fifty data :
  CsvServiceSliced.parseNetflixCSV data = take 50 (CsvService.parseNetflixCSV data).
Proof. done. Qed.

(** ** Empty input *)

(** C9.  On empty input ingestion gives no record, the run returns no
    MediaItem, with [cancelled = false], and [generateStats] returns, for no
    items, the statistics with [totalWatched = 0] and empty histograms; it
    does not throw.  The same holds of the earlier revisions. *)
Theorem empty_input `{Normalizer} `{Catalog} `{Runtime}
    tl progressCallback onItemProcessed startIndex w :
  CsvService.parseNetflixCSV [] = []
  ∧ CsvServiceSliced.parseNetflixCSV [] = []
  ∧ processViewingHistory tl [] progressCallback onItemProcessed startIndex None w
    = Some ({| mediaItems := []; cancelled := false |},
            with_storage completeProcessing (resetCancellation w))
  ∧ Legacy.processViewingHistory (arrivals tl) [] = Some []
  ∧ generateStats [] = Some emptyStats
  ∧ StatsData.totalWatched emptyStats = 0
  ∧ StatsData.watchedByDay emptyStats = ∅
  ∧ StatsData.watchedByMonth emptyStats = ∅
  ∧ StatsData.watchedByYear emptyStats = ∅.
Proof. split_and!; reflexivity. Qed.

(** ** The pipeline on concrete histories *)
Section Examples.
#[local] Existing Instance Demo.normalizer.
#[local] Existing Instance Demo.catalog.
#[local] Existing Instance Demo.runtime.

(** The normaliser on the titles of the specification's scenario. *)
Example cleanTitle_episode : cleanTitle "Show S1:E2" = "Show".
Proof. reflexivity. Qed.

Example cleanTitle_parenthesis : cleanTitle "Show (Limited Series)" = "Show".
Proof. reflexivity. Qed.

Example cleanTitle_episode_name : cleanTitle " Dark: Season 1: Secrets" = "Dark".
Proof. reflexivity. Qed.

(** C1 at a failing input.  Forty-one viewings of one film.  The run that
    is not interrupted counts 41.  When the page is closed after the second
    batch, the checkpoint says 40 records are processed while its items
    already count all 41; the resumed run merges record 40 again and ends
    with 42. *)
Theorem resume_counts_a_batch_twice :
  (∃ r w, Page.handleFileUpload Demo.calm Demo.film41 Demo.idle = Some (r, w)
     ∧ cancelled r = false
     ∧ Demo.summary (mediaItems r) = [("27205-movie", Some 41, "2024-01-01")])
  ∧ (let saved := loadProcessingState
                    (localStorage (Page.handleFileUploadClosed 2 Demo.calm Demo.film41 Demo.idle)) in
     ps_processedCount saved = 40 ∧ ps_isProcessing saved = true
     ∧ Demo.summary <$> ps_partialItems saved
       = Some [("27205-movie", Some 41, "2024-01-01")])
  ∧ (∃ r w, Page.loadSavedData Demo.calm
              (Page.reload (Page.handleFileUploadClosed 2 Demo.calm Demo.film41 Demo.idle))
            = Some (Some (r, w))
     ∧ cancelled r = false
     ∧ Demo.summary (mediaItems r) = [("27205-movie", Some 42, "2024-01-01")]).
Proof.
  split_and!.
  - eexists _, _. split_and!; [vm_compute; reflexivity|done..].
  - vm_compute. done.
  - eexists _, _. split_and!; [vm_compute; reflexivity|done..].
Qed.

(** The same interruption with a title the catalogue does not know.  The
    resume path files the saved item under [`${item.id}-${item.type}`], that
    is ["unknown-X-movie"], so the record merged again finds ["unknown-X"]
    absent and adds a second item with the same id. *)
Lemma resume_duplicates_an_unmatched_title :
  (∃ r w, Page.handleFileUpload Demo.calm Demo.obscure41 Demo.idle = Some (r, w)
     ∧ Demo.summary (mediaItems r) = [("unknown-X", Some 41, "2024-01-05")])
  ∧ (∃ r w, Page.loadSavedData Demo.calm
              (Page.reload (Page.handleFileUploadClosed 2 Demo.calm Demo.obscure41 Demo.idle))
            = Some (Some (r, w))
     ∧ Demo.summary (mediaItems r)
       = [("unknown-X", Some 41, "2024-01-05"); ("unknown-X", Some 1, "2024-01-01")]).
Proof.
  split; eexists _, _; (split; [vm_compute; reflexivity|done]).
Qed.

(** C2 at a failing input.  Two records of one batch map to the key of the
    same series.  When both searches answer before either item is created,
    each record finds the key absent and each sets a fresh item: the
    collection holds one item with watchCount 1, and the earlier date of the
    record that set last.  One after the other, the same records give 2 and
    the later date. *)
Theorem overlapping_lookups_lose_a_count :
  map recordKey Demo.twoEpisodes = ["70523-tv"; "70523-tv"]
  ∧ (∃ r w, processViewingHistory Demo.overlapping Demo.twoEpisodes true true 0 None
              Demo.idle = Some (r, w)
       ∧ cancelled r = false
       ∧ Demo.summary (mediaItems r) = [("70523-tv", Some 1, "2024-01-01")])
  ∧ (∃ r w, processViewingHistory Demo.calm Demo.twoEpisodes true true 0 None
              Demo.idle = Some (r, w)
       ∧ Demo.summary (mediaItems r) = [("70523-tv", Some 2, "2024-01-05")]).
Proof.
  split_and!; [done| |]; eexists _, _; (split_and!; [vm_compute; reflexivity|done..]).
Qed.

(** C3 at a failing input, in [tmdbService.ts].  A title without candidate
    is watched on 1 January and again on 5 January.  The unmatched branch
    only counts the repeat: the item keeps the date of 1 January.  The
    later revision of the loop, which goes through
    [updateExistingMediaItem] in both branches, gives 5 January. *)
Theorem legacy_unmatched_keeps_first_date :
  Date_gt "2024-01-05" "2024-01-01" = true
  ∧ Demo.summary <$> Legacy.processViewingHistory (λ _, []) Demo.twice
    = Some [("unknown-X", Some 2, "2024-01-01")]
  ∧ (∃ r w, processViewingHistory Demo.calm Demo.twice true true 0 None Demo.idle
            = Some (r, w)
       ∧ Demo.summary (mediaItems r) = [("unknown-X", Some 2, "2024-01-05")]).
Proof.
  split_and!; [done|done|].
  eexists _, _. split_and!; [vm_compute; reflexivity|done].
Qed.

(** C5 as stated fails.  Forty-one records, and the host cancels while the
    first batch is in flight.  After the signal the progress callback and
    the discovery callback are still called for that batch; the run stops at
    the next boundary. *)
Lemma callbacks_follow_the_cancel_signal :
  processViewingHistory (Demo.cancelDuring 0) Demo.obscure41 true true 0 None Demo.idle
  = Some ({| mediaItems :=
               [MediaItem.with_watchCount (Some 40)
                  (createMinimalMediaItem "X" "2024-01-05")];
             cancelled := true |},
          {| processingCancelled := true;
             localStorage := ∅;
             trace :=
               [ConsoleLog "Processing cancelled";
                Progress 40 41;
                ItemProcessed (MediaItem.with_watchCount (Some 40)
                                 (createMinimalMediaItem "X" "2024-01-05"));
                ConsoleLog "Processing aborted at index 40"] |}).
Proof. vm_compute. reflexivity. Qed.

(** A cancellation in the last batch goes unnoticed: the loop ends without
    another check, the completion step runs and the run reports
    [cancelled = false] with the flag set. *)
Lemma cancel_in_last_batch_goes_unnoticed :
  ∃ r w, processViewingHistory (Demo.cancelDuring 0) [Demo.watched "X" "2024-01-05"]
           true true 0 None Demo.idle = Some (r, w)
    ∧ cancelled r = false ∧ processingCancelled w = true
    ∧ trace w = [ConsoleLog "Processing cancelled"; Progress 1 1;
                 ItemProcessed (createMinimalMediaItem "X" "2024-01-05")].
Proof. eexists _, _. split_and!; [vm_compute; reflexivity|done..]. Qed.

(** C6 as stated fails.  The host has started a run, so the checkpoint is
    in the store; after [cancelProcessing] it is not. *)
Lemma cancel_removes_the_saved_checkpoint :
  let started :=
    with_storage (saveProcessingState Demo.twice 0 []) Demo.idle in
  loadProcessingState (localStorage started)
  = {| ps_viewingHistory := Some Demo.twice; ps_processedCount := 0;
       ps_partialItems := Some []; ps_isProcessing := true |}
  ∧ loadProcessingState (localStorage (cancelProcessing started)) = nothingSaved.
Proof. split; vm_compute; reflexivity. Qed.

(** The scenario of the specification: 85 records, and the host cancels
    while the batch that starts at record 80 is in flight.  The signal
    empties the store; the batch then writes a checkpoint of its own, and
    since it is the last batch the run completes: it reports
    [cancelled = false] and leaves the checkpoint without its active mark. *)
Lemma cancel_during_third_batch_of_85 :
  ∃ r w, Page.handleFileUpload (Demo.cancelDuring 80)
           (replicate 85 (Demo.watched "Inception" "2024-01-01")) Demo.idle
         = Some (r, w)
    ∧ cancelled r = false
    ∧ Demo.summary (mediaItems r) = [("27205-movie", Some 85, "2024-01-01")]
    ∧ ps_processedCount (loadProcessingState (localStorage w)) = 80
    ∧ ps_isProcessing (loadProcessingState (localStorage w)) = false.
Proof. eexists _, _. split_and!; [vm_compute; reflexivity|done..]. Qed.

(** C7 at a failing input, in the second revision of [csvService.ts].
    Fifty-one rows, each with a title and a date: the first revision gives
    51 records, the second 50. *)
Theorem sliced_drops_the_51st_row :
  let data := replicate 51 (Demo.row "Inception" "2024-01-01") in
  Forall hasTitleAndDate data
  ∧ length (CsvService.parseNetflixCSV data) = 51
  ∧ length (CsvServiceSliced.parseNetflixCSV data) = 50.
Proof.
  split_and!; [|done..].
  apply Forall_replicate. split; eexists; (split; [done|done]).
Qed.



(** The cancellation during the first of two batches. *)
Lemma cancellation_stops_at_next_boundary_witness :
  ((∀ j, j < 0 ->
      hostCancels (Demo.cancelDuring 0) (length Demo.obscure41) (0 + batchSize * j)
      = false)
   ∧ hostCancels (Demo.cancelDuring 0) (length Demo.obscure41) (0 + batchSize * 0) = true
   ∧ 0 + batchSize * 0 + batchSize < length Demo.obscure41)
  ∧ processViewingHistory (Demo.cancelDuring 0) Demo.obscure41 true true 0 None Demo.idle
    = Some ({| mediaItems :=
                 JsMap.values
                   (firstIterations (Demo.cancelDuring 0) Demo.obscure41 true true 0
                      1 0 (resetCancellation Demo.idle) (default [] None)).2;
               cancelled := true |},
            aborted (0 + batchSize * 1)
              (firstIterations (Demo.cancelDuring 0) Demo.obscure41 true true 0
                 1 0 (resetCancellation Demo.idle) (default [] None)).1).
Proof.
  split; [split_and!; [intros j Hj; lia | reflexivity | vm_compute; lia]|].
  apply (cancellation_stops_at_next_boundary (Demo.cancelDuring 0) Demo.obscure41
           true true 0 None Demo.idle 0);
    [intros j Hj; lia | reflexivity | vm_compute; lia].
Defined.

(** A run called with the flag still set from an earlier cancellation. *)
Lemma pre_run_cancellation_discarded_witness :
  let stale := {| processingCancelled := true; localStorage := ∅; trace := [] |} in
  (neverCancels Demo.calm ∧ processingCancelled stale = true)
  ∧ ∃ w', processViewingHistory Demo.calm Demo.twice true true 0 None stale
          = Some ({| mediaItems :=
                       Array_sort byWatchedDateDesc
                         (JsMap.values
                            (mergeAll Demo.calm Demo.twice (length Demo.twice) 0
                               (default [] None)));
                     cancelled := false |}, w')
      ∧ processingCancelled w' = false.
Proof.
  split; [split; [intros i; repeat split | reflexivity]|].
  apply pre_run_cancellation_discarded; [intros i; repeat split | reflexivity].
Defined.

End Examples.

(** ** Lookups that answer in turn

    When no two lookups of a batch overlap, the run is the records merged
    one after the other, and the counts and dates are exact. *)

Section InTurn.
Context `{Normalizer} `{Catalog} `{Runtime}.

Lemma mergeRecord_spec m item :
  mergeRecord m item
  = if JsMap.has (recordKey item) m
    then updateExistingMediaItem m (recordKey item) (NetflixViewingItem.date item)
    else JsMap.set (recordKey item) (newItem item) m.
Proof.
  unfold mergeRecord, finish, recordKey, newItem. simpl.
  destruct (firstResult _) as [result|]; by destruct (JsMap.has _ m).
Qed.

Lemma mergeKey_newItem item : mergeKey (newItem item) = recordKey item.
Proof.
  unfold newItem, recordKey. destruct (firstResult _); [|done].
  apply mergeKey_createMediaItem.
Qed.

Lemma newItem_watchCount item : MediaItem.watchCount (newItem item) = Some 1.
Proof.
  unfold newItem. destruct (firstResult _); [|done]. apply createMediaItem_watchCount.
Qed.

Lemma newItem_watchedDate item :
  MediaItem.watchedDate (newItem item) = NetflixViewingItem.date item.
Proof.
  unfold newItem. destruct (firstResult _); [|done]. apply createMediaItem_watchedDate.
Qed.

Lemma tally_snoc key l item :
  tally key (l ++ [item])
  = tally key l + (if String.eqb (recordKey item) key then 1 else 0).
Proof.
  unfold tally. rewrite List.filter_app, length_app. simpl.
  by destruct (String.eqb _ key).
Qed.

Lemma tally_0 key l item :
  tally key l = 0 -> item ∈ l -> recordKey item ≠ key.
Proof.
  unfold tally. induction l as [|x l IH]; simpl.
  - by intros _ ?%elem_of_nil.
  - destruct (String.eqb_spec (recordKey x) key); [done|].
    intros Hl [->|Hin]%elem_of_cons; [done | by apply IH].
Qed.

Variable tl : Timeline.
Variable viewingHistory : list NetflixViewingItem.t.

Lemma mergeAll_inTurn fuel i m :
  inTurn tl -> length viewingHistory ≤ i + fuel ->
  mergeAll tl viewingHistory fuel i m = fold_left mergeRecord (drop i viewingHistory) m.
Proof.
  intros Hturn. revert i m. induction fuel as [|fuel IH]; intros i m Hfuel.
  - simpl. by rewrite drop_ge by lia.
  - rewrite mergeAll_S. destruct (Nat.ltb_spec i (length viewingHistory)).
    + rewrite IH by (unfold batchSize; lia). rewrite Hturn, processBatch_calm.
      rewrite <- (take_drop batchSize (drop i viewingHistory)) at 2.
      by rewrite fold_left_app, drop_drop.
    + by rewrite drop_ge by lia.
Qed.

(** The map after the records of [l], merged in turn into an empty map:
    one entry per key that a record maps to, with the number of those
    records as its count. *)
Lemma merged_counts l :
  let m := fold_left mergeRecord l [] in
  keyed m ∧ NoDup (JsMap.keys m)
  ∧ ∀ key, match JsMap.get key m with
           | Some item =>
               MediaItem.watchCount item = Some (tally key l) ∧ 0 < tally key l
           | None => tally key l = 0
           end.
Proof.
  induction l as [|x l IH] using rev_ind; simpl.
  - split_and!; [constructor|constructor|done].
  - rewrite fold_left_app. simpl. set (m := fold_left mergeRecord l []) in *.
    destruct IH as (Hk & Hnd & Hcount). rewrite mergeRecord_spec.
    unfold updateExistingMediaItem, JsMap.has.
    pose proof (Hcount (recordKey x)) as Hx.
    destruct (JsMap.get (recordKey x) m) as [existing|] eqn:Hget.
    + split_and!; [by apply keyed_touch|by rewrite JsMapFacts.keys_mutate|].
      intros key. rewrite tally_snoc.
      destruct (String.eqb_spec (recordKey x) key) as [<-|Hne].
      * rewrite JsMapFacts.get_mutate_eq, Hget. simpl. destruct Hx as [Hw Hpos].
        split; [|lia]. unfold touch. rewrite Hw.
        destruct (tally (recordKey x) l) as [|n]; [lia|].
        by destruct (Date_gt _ _).
      * rewrite JsMapFacts.get_mutate_ne, Nat.add_0_r by done. apply Hcount.
    + split_and!.
      * apply Forall_set; [|done]. simpl. by rewrite mergeKey_newItem.
      * by apply JsMapFacts.NoDup_keys_set.
      * intros key. rewrite tally_snoc.
        destruct (String.eqb_spec (recordKey x) key) as [<-|Hne].
        -- rewrite JsMapFacts.get_set_eq, newItem_watchCount, Hx. split; [done|lia].
        -- rewrite JsMapFacts.get_set_ne, Nat.add_0_r by done. apply Hcount.
Qed.

End InTurn.

Section InTurnDates.
Context `{Normalizer} `{Catalog} `{Runtime}.

Lemma Date_gt_irrefl a : Date_gt a a = false.
Proof. unfold Date_gt. destruct (Date_getTime a); [apply Z.ltb_irrefl | done]. Qed.

Lemma Date_gt_below r e x :
  is_Some (Date_getTime r) -> is_Some (Date_getTime e) ->
  Date_gt r e = false -> Date_gt x e = true -> Date_gt r x = false.
Proof.
  unfold Date_gt. intros [tr ->] [te ->].
  destruct (Date_getTime x) as [tx|]; [|done]. lia.
Qed.

Lemma Date_gt_false_le a b ta tb :
  Date_getTime a = Some ta -> Date_getTime b = Some tb ->
  Date_gt a b = false -> (ta ≤ tb)%Z.
Proof. unfold Date_gt. intros -> ->. lia. Qed.

(** With dates that parse, the date of every entry is the date of one of
    the records merged under its key, and none of those records is later. *)
Lemma merged_dates l :
  Forall validDate l ->
  let m := fold_left mergeRecord l [] in
  ∀ key item, JsMap.get key m = Some item ->
    (∃ rec, rec ∈ l ∧ recordKey rec = key
            ∧ NetflixViewingItem.date rec = MediaItem.watchedDate item)
    ∧ ∀ rec, rec ∈ l -> recordKey rec = key ->
        Date_gt (NetflixViewingItem.date rec) (MediaItem.watchedDate item) = false.
Proof.
  induction l as [|x l IH] using rev_ind; simpl; [done|].
  intros [Hvalid Hx%Forall_singleton]%Forall_app.
  specialize (IH Hvalid). rewrite fold_left_app. simpl.
  destruct (merged_counts l) as (_ & _ & Hcount).
  simpl in IH, Hcount. set (m := fold_left mergeRecord l []) in *.
  rewrite mergeRecord_spec. unfold updateExistingMediaItem, JsMap.has.
  specialize (Hcount (recordKey x)).
  assert (∀ key rec, recordKey x ≠ key -> rec ∈ l ++ [x] -> recordKey rec = key ->
            rec ∈ l) as Hother.
  { intros key rec Hne [?|Heq%list_elem_of_singleton]%elem_of_app ?;
      [done | by subst]. }
  destruct (JsMap.get (recordKey x) m) as [existing|] eqn:Hget; intros key item.
  - destruct (String.eqb_spec (recordKey x) key) as [<-|Hne].
    + rewrite JsMapFacts.get_mutate_eq, Hget. intros [= <-].
      destruct (IH _ _ Hget) as [(rec0 & Hin0 & Hkey0 & Hdate0) Hbound].
      assert (is_Some (Date_getTime (MediaItem.watchedDate existing))) as Hvalid0.
      { rewrite <- Hdate0. by apply (proj1 (Forall_forall _ _) Hvalid). }
      unfold touch.
      destruct (Date_gt (NetflixViewingItem.date x) (MediaItem.watchedDate existing))
        eqn:Hgt; simpl.
      * split.
        -- exists x. split_and!; [|done..]. apply elem_of_app. right. by left.
        -- intros rec [Hin|Heq%list_elem_of_singleton]%elem_of_app Hkey.
           ++ eapply Date_gt_below; [|exact Hvalid0|by apply Hbound|done].
              by apply (proj1 (Forall_forall _ _) Hvalid).
           ++ subst rec. apply Date_gt_irrefl.
      * split.
        -- exists rec0. split_and!; [|done..]. apply elem_of_app. by left.
        -- intros rec [Hin|Heq%list_elem_of_singleton]%elem_of_app Hkey;
             [by apply Hbound | by subst rec].
    + rewrite JsMapFacts.get_mutate_ne by done. intros Hitem.
      destruct (IH _ _ Hitem) as [(rec0 & Hin0 & Hkey0 & Hdate0) Hbound].
      split.
      * exists rec0. split_and!; [|done..]. apply elem_of_app. by left.
      * intros rec Hin Hkey. apply Hbound; [|done]. by eapply Hother.
  - destruct (String.eqb_spec (recordKey x) key) as [<-|Hne].
    + rewrite JsMapFacts.get_set_eq. intros [= <-]. rewrite newItem_watchedDate.
      split.
      * exists x. split_and!; [|done..]. apply elem_of_app. right. by left.
      * intros rec [Hin|Heq%list_elem_of_singleton]%elem_of_app Hkey.
        -- by destruct (tally_0 _ _ _ Hcount Hin).
        -- subst rec. apply Date_gt_irrefl.
    + rewrite JsMapFacts.get_set_ne by done. intros Hitem.
      destruct (IH _ _ Hitem) as [(rec0 & Hin0 & Hkey0 & Hdate0) Hbound].
      split.
      * exists rec0. split_and!; [|done..]. apply elem_of_app. by left.
      * intros rec Hin Hkey. apply Hbound; [|done]. by eapply Hother.
Qed.

End InTurnDates.

Section InTurnRun.
Context `{Normalizer} `{Catalog} `{Runtime}.
Variable tl : Timeline.
Variable viewingHistory : list NetflixViewingItem.t.
Variables progressCallback onItemProcessed : bool.
Hypothesis turn : inTurn tl.
Hypothesis calm : neverCancels tl.

(** Without overlap and without cancellation the run returns the sorted
    values of the map in which the records were merged in order. *)
Lemma run_in_turn w :
  ∃ w', processViewingHistory tl viewingHistory progressCallback onItemProcessed
          0 None w
        = Some ({| mediaItems :=
                     Array_sort byWatchedDateDesc
                       (JsMap.values (fold_left mergeRecord viewingHistory []));
                   cancelled := false |}, w').
Proof.
  unfold processViewingHistory. simpl.
  destruct (loop_neverCancels tl viewingHistory progressCallback onItemProcessed 0
              (length viewingHistory) 0 (resetCancellation w) [] calm)
    as (w' & Hrun & _); [lia|done|].
  exists w'. by rewrite Hrun, mergeAll_inTurn by (done || lia).
Qed.

Lemma returned_item_inv item :
  item ∈ Array_sort byWatchedDateDesc
           (JsMap.values (fold_left mergeRecord viewingHistory [])) ->
  JsMap.get (mergeKey item) (fold_left mergeRecord viewingHistory []) = Some item.
Proof.
  rewrite Array_sort_Permutation.
  destruct (merged_counts viewingHistory) as (Hk & Hnd & _). simpl in *.
  intros ([key item'] & -> & Hin)%list_elem_of_fmap_1. simpl.
  apply JsMapFacts.get_elem_of; [done|].
  pose proof (proj1 (Forall_forall _ _) Hk _ Hin) as Hkey. simpl in Hkey.
  by rewrite <- Hkey.
Qed.



End InTurnRun.

Section InTurnExamples.
#[local] Existing Instance Demo.normalizer.
#[local] Existing Instance Demo.catalog.
#[local] Existing Instance Demo.runtime.

Lemma calm_inTurn : inTurn Demo.calm.
Proof. intros i. reflexivity. Qed.

Lemma calm_neverCancels : neverCancels Demo.calm.
Proof. intros i. repeat split. Qed.

Lemma twoEpisodes_valid : Forall validDate Demo.twoEpisodes.
Proof. repeat constructor; by eexists. Qed.



(** The checkpoint written by the second batch of the forty-one viewings. *)
Lemma checkpoint_of_iteration_witness :
  (40 mod 10 = 0 ∧ 0 < 40
   ∧ cancelInYield Demo.calm 40 = false ∧ cancelInDelay Demo.calm 40 = false)
  ∧ loadProcessingState
      (localStorage (iteration Demo.calm Demo.film41 true true 0 40 Demo.idle []).1)
    = {| ps_viewingHistory := Some Demo.film41;
         ps_processedCount := 40;
         ps_partialItems :=
           Some (JsMap.values
                   (processBatch (arrivals Demo.calm 40)
                      (take batchSize (drop 40 Demo.film41)) []));
         ps_isProcessing := true |}.
Proof.
  split; [split_and!; [reflexivity | lia | reflexivity | reflexivity]|].
  apply checkpoint_of_iteration; [reflexivity | lia | reflexivity | reflexivity].
Defined.

End InTurnExamples.

(** ** The sort orders *)

Section SortFacts.
Context {A : Type} (cmp : A -> A -> Z) (key : A -> Z).

#[local] Abbreviation descending := (StronglySorted (λ a b : A, (key b ≤ key a)%Z)).

Lemma sort_insert_sorted x l :
  (∀ b, b ∈ l -> cmp x b = (key b - key x)%Z) ->
  descending l -> descending (sort_insert cmp x l).
Proof.
  intros Hcmp. induction 1 as [|y rest Hrest IH Hy]; simpl.
  - by repeat constructor.
  - rewrite (Hcmp y) by left.
    destruct (Z.leb_spec (key y - key x) 0).
    + constructor; [by constructor|]. constructor; [lia|].
      eapply Forall_impl; [exact Hy|]. simpl. lia.
    + constructor.
      * apply IH. intros b Hb. apply Hcmp. by right.
      * rewrite sort_insert_Permutation. constructor; [lia|done].
Qed.

(** With a comparator that subtracts keys the sorted array is in
    descending order of the key. *)
Lemma Array_sort_sorted l :
  (∀ a b, a ∈ l -> b ∈ l -> cmp a b = (key b - key a)%Z) ->
  descending (Array_sort cmp l).
Proof.
  induction l as [|x rest IH]; intros Hcmp; simpl; [constructor|].
  apply sort_insert_sorted.
  - intros b Hb. rewrite Array_sort_Permutation in Hb.
    apply Hcmp; [left | by right].
  - apply IH. intros a b Ha Hb. apply Hcmp; by right.
Qed.

(** An array that is in order already is left as it is: the sort is
    stable. *)
Lemma Array_sort_id l :
  (∀ a b, a ∈ l -> b ∈ l -> cmp a b = (key b - key a)%Z) ->
  descending l -> Array_sort cmp l = l.
Proof.
  intros Hcmp. induction 1 as [|x rest Hrest IH Hx]; simpl; [done|].
  rewrite IH by (intros a b Ha Hb; apply Hcmp; by right).
  destruct Hx as [|y rest' Hy _]; simpl; [done|].
  rewrite (Hcmp x y) by (left || (right; left)).
  destruct (Z.leb_spec (key y - key x) 0); [done | lia].
Qed.

End SortFacts.

Lemma StronglySorted_mono {A} (R S : A -> A -> Prop) l :
  (∀ a b, R a b -> S a b) -> StronglySorted R l -> StronglySorted S l.
Proof.
  intros HRS. induction 1 as [|x rest Hrest IH Hx]; constructor; [done|].
  eapply Forall_impl; [exact Hx | apply HRS].
Qed.

Lemma filter_sorted {A} (R : A -> A -> Prop) (f : A -> bool) l :
  StronglySorted R l -> StronglySorted R (List.filter f l).
Proof.
  induction 1 as [|x rest Hrest IH Hx]; simpl; [constructor|].
  destruct (f x); [|done]. constructor; [done|].
  rewrite Forall_forall in Hx |- *. intros y Hy%list_elem_of_In%filter_In.
  apply Hx, list_elem_of_In, Hy.
Qed.

Section DateOrder.
Context `{Runtime}.

Lemma byWatchedDateDesc_dated l a b :
  Forall dated l -> a ∈ l -> b ∈ l ->
  byWatchedDateDesc a b = (watchedTime b - watchedTime a)%Z.
Proof.
  rewrite Forall_forall. intros Hl Ha Hb.
  destruct (Hl a Ha) as [x Hx], (Hl b Hb) as [y Hy].
  unfold byWatchedDateDesc, watchedTime. by rewrite Hx, Hy.
Qed.

Lemma sort_by_date_latestFirst l :
  Forall dated l -> latestFirst (Array_sort byWatchedDateDesc l).
Proof.
  intros Hl. apply Array_sort_sorted. intros a b. by apply byWatchedDateDesc_dated.
Qed.

Lemma sort_by_date_id l :
  Forall dated l -> latestFirst l -> Array_sort byWatchedDateDesc l = l.
Proof.
  intros Hl. apply Array_sort_id. intros a b. by apply byWatchedDateDesc_dated.
Qed.

End DateOrder.

(** ** Statistics *)

Lemma increment_lookup key counts k :
  increment key counts !! k
  = if decide (key = k) then Some (default 0 (counts !! key) + 1) else counts !! k.
Proof.
  unfold increment. destruct (decide (key = k)) as [->|].
  - by rewrite lookup_insert_eq.
  - by rewrite lookup_insert_ne.
Qed.

Lemma histogramTotal_insert key n counts :
  counts !! key = None ->
  histogramTotal (<[key := n]> counts) = n + histogramTotal counts.
Proof.
  intros Hkey. unfold histogramTotal.
  rewrite map_fold_insert_L; [done| |done]. intros. lia.
Qed.

Lemma histogramTotal_increment key counts :
  histogramTotal (increment key counts) = histogramTotal counts + 1.
Proof.
  unfold increment. destruct (counts !! key) as [n|] eqn:Hkey; simpl.
  - rewrite <- (insert_delete_id counts key n) at 2 by done.
    rewrite <- (insert_delete_eq counts).
    rewrite !histogramTotal_insert by apply lookup_delete_eq. lia.
  - rewrite histogramTotal_insert by done. lia.
Qed.

Section StatsFacts.
Context `{Runtime}.

#[local] Abbreviation step :=
  (λ (acc : option WatchCounts) (item : MediaItem.t), acc ≫= updateWatchCounts item).

Lemma forEach_thrown items : fold_left step items None = None.
Proof. by induction items. Qed.

Lemma dated_dec item : {dated item} + {Date_getTime (MediaItem.watchedDate item) = None}.
Proof.
  unfold dated. destruct (Date_getTime _); [left; by eexists | by right].
Qed.

(** The [forEach] gets through exactly when every date parses. *)
Lemma forEach_throws items c :
  fold_left step items (Some c) = None
  <-> ∃ item, item ∈ items ∧ Date_getTime (MediaItem.watchedDate item) = None.
Proof.
  revert c. induction items as [|item items IH]; intros c; simpl.
  - split; [done|]. intros (? & []%elem_of_nil & _).
  - unfold updateWatchCounts at 2.
    destruct (Date_getTime (MediaItem.watchedDate item)) as [date|] eqn:Hdate.
    + rewrite IH. split.
      * intros (x & Hx & Hnone). exists x. split; [by right|done].
      * intros (x & [->|Hx]%elem_of_cons & Hnone); [congruence|]. by exists x.
    + rewrite forEach_thrown. split; [|done]. intros _. exists item. split; [left|done].
Qed.

Lemma filedUnder_snoc period k items item :
  filedUnder period k (items ++ [item])
  = filedUnder period k items + (if bool_decide (period item = Some k) then 1 else 0).
Proof.
  unfold filedUnder. rewrite List.filter_app, length_app. simpl.
  by destruct (bool_decide _).
Qed.


Lemma files_increment period counts items item k :
  period item = Some k ->
  files period counts items -> files period (increment k counts) (items ++ [item]).
Proof.
  intros Hk Hfiles k' n. rewrite increment_lookup, filedUnder_snoc, Hk.
  destruct (decide (k = k')) as [<-|Hne].
  - rewrite bool_decide_eq_true_2 by done.
    destruct (counts !! k) as [n0|] eqn:Hn0; simpl.
    + apply Hfiles in Hn0 as [? <-]. split; [intros [= <-]; lia | intros [_ ->]; done].
    + assert (filedUnder period k items = 0) as ->.
      { destruct (filedUnder period k items) as [|n1] eqn:Hn1; [done|].
        assert (counts !! k = Some (S n1)) as Hc by (apply Hfiles; lia). congruence. }
      split; [intros [= <-]; lia | intros [_ ->]; done].
  - rewrite bool_decide_eq_false_2 by congruence. rewrite Nat.add_0_r. apply Hfiles.
Qed.

Lemma forEach_files items :
  ∀ done_ c c',
    files dayOf (byDay c) done_ -> files monthOf (byMonth c) done_ ->
    files yearOf (byYear c) done_ ->
    histogramTotal (byDay c) = length done_ ->
    histogramTotal (byMonth c) = length done_ ->
    histogramTotal (byYear c) = length done_ ->
    fold_left step items (Some c) = Some c' ->
    files dayOf (byDay c') (done_ ++ items) ∧ files monthOf (byMonth c') (done_ ++ items)
    ∧ files yearOf (byYear c') (done_ ++ items)
    ∧ histogramTotal (byDay c') = length (done_ ++ items)
    ∧ histogramTotal (byMonth c') = length (done_ ++ items)
    ∧ histogramTotal (byYear c') = length (done_ ++ items).
Proof.
  induction items as [|item items IH]; intros done_ c c' Hd Hm Hy Td Tm Ty; simpl.
  - intros [= <-]. by rewrite app_nil_r.
  - unfold updateWatchCounts at 2.
    destruct (Date_getTime (MediaItem.watchedDate item)) as [date|] eqn:Hdate;
      [|by rewrite forEach_thrown].
    intros Hrun. rewrite (cons_middle item), app_assoc.
    apply (IH (done_ ++ [item])) in Hrun; [done|..]; simpl.
    + apply files_increment; [|done]. unfold dayOf. by rewrite Hdate.
    + apply files_increment; [|done]. unfold monthOf, dayOf. by rewrite Hdate.
    + apply files_increment; [|done]. unfold yearOf, dayOf. by rewrite Hdate.
    + rewrite histogramTotal_increment, length_app. simpl. lia.
    + rewrite histogramTotal_increment, length_app. simpl. lia.
    + rewrite histogramTotal_increment, length_app. simpl. lia.
Qed.

Lemma files_empty period : files period ∅ [].
Proof. intros k n. rewrite lookup_empty. unfold filedUnder. simpl. split; [done|lia]. Qed.

Lemma generateStats_Some items s :
  generateStats items = Some s ->
  ∃ c, calculateWatchCountsByPeriod items = Some c
    ∧ s = {| StatsData.totalWatched := length items;
             StatsData.movieCount :=
               length (List.filter (λ item, String.eqb (MediaItem.type item) "movie") items);
             StatsData.tvCount :=
               length (List.filter (λ item, String.eqb (MediaItem.type item) "tv") items);
             StatsData.watchedByDay := byDay c;
             StatsData.watchedByMonth := byMonth c;
             StatsData.watchedByYear := byYear c;
             StatsData.mostWatchedShows := take 10 (Array_sort byWatchCountDesc items);
             StatsData.continueWatchingShows :=
               Array_sort byWatchedDateDesc
                 (List.filter (λ show, default false (MediaItem.continuing show))
                    (List.filter (λ item, String.eqb (MediaItem.type item) "tv") items)) |}.
Proof.
  unfold generateStats. destruct (calculateWatchCountsByPeriod items) as [c|]; [|done].
  intros [= <-]. by exists c.
Qed.

Lemma generateStats_dated items s : generateStats items = Some s -> Forall dated items.
Proof.
  intros (c & Hc & _)%generateStats_Some. apply Forall_forall. intros item Hin.
  destruct (dated_dec item) as [|Hnone]; [done|].
  assert (calculateWatchCountsByPeriod items = None) as Hthrow
    by (apply forEach_throws; eauto).
  congruence.
Qed.

(** X5.  [generateStats] throws exactly when the list holds an item whose
    [watchedDate] is not a date ([toISOString] raises a RangeError on it);
    on every other list it returns its statistics. *)
Theorem generateStats_throws_on_unparsed_date items :
  generateStats items = None
  <-> ∃ item, item ∈ items ∧ Date_getTime (MediaItem.watchedDate item) = None.
Proof.
  rewrite <- (forEach_throws items {| byDay := ∅; byMonth := ∅; byYear := ∅ |}).
  unfold generateStats. fold (calculateWatchCountsByPeriod items).
  by destruct (calculateWatchCountsByPeriod items).
Qed.

(** X6.  [totalWatched] is the number of items.  [movieCount] and
    [tvCount] together never exceed it, and they add up to it exactly when
    every item is of type movie or tv: an item of another type (the multi
    search also answers persons) is counted in the total only. *)
Theorem generateStats_counts_by_type items s :
  generateStats items = Some s ->
  StatsData.totalWatched s = length items
  ∧ StatsData.movieCount s + StatsData.tvCount s ≤ StatsData.totalWatched s
  ∧ (StatsData.movieCount s + StatsData.tvCount s = StatsData.totalWatched s
     <-> ∀ item, item ∈ items ->
           MediaItem.type item = "movie" ∨ MediaItem.type item = "tv").
Proof.
  intros (c & _ & ->)%generateStats_Some. simpl. split; [done|].
  clear c. induction items as [|item items [IHle IHeq]]; simpl.
  - split; [lia|]. split; [by intros _ ? ?%elem_of_nil | done].
  - pose proof (List.filter_length_le
                  (λ item, String.eqb (MediaItem.type item) "movie") items) as Hm.
    pose proof (List.filter_length_le
                  (λ item, String.eqb (MediaItem.type item) "tv") items) as Ht.
    destruct (String.eqb_spec (MediaItem.type item) "movie") as [Hmovie|Hmovie];
      destruct (String.eqb_spec (MediaItem.type item) "tv") as [Htv|Htv]; simpl;
      try congruence.
    + split; [lia|]. split.
      * intros Heq x [->|Hx]%elem_of_cons; [by left|]. apply IHeq; [lia|done].
      * intros Hall. f_equal. apply IHeq. intros x Hx. apply Hall. by right.
    + split; [lia|]. split.
      * intros Heq x [->|Hx]%elem_of_cons; [by right|]. apply IHeq; [lia|done].
      * intros Hall. rewrite Nat.add_succ_r. f_equal. apply IHeq.
        intros x Hx. apply Hall. by right.
    + split; [lia|]. split; [lia|].
      intros Hall. destruct (Hall item); [left|done..].
Qed.

(** X7.  Each histogram counts items, one per item whatever its
    [watchCount]: the entry under a day, month or year is the number of
    items whose [watchedDate] falls into it, and a period without items has
    no entry. *)
Theorem histograms_count_items items s :
  generateStats items = Some s ->
  ∀ k n,
    (StatsData.watchedByDay s !! k = Some n <-> 0 < n ∧ n = filedUnder dayOf k items)
    ∧ (StatsData.watchedByMonth s !! k = Some n
       <-> 0 < n ∧ n = filedUnder monthOf k items)
    ∧ (StatsData.watchedByYear s !! k = Some n
       <-> 0 < n ∧ n = filedUnder yearOf k items).
Proof.
  intros (c & Hc & ->)%generateStats_Some k n. simpl.
  apply (forEach_files items []) in Hc as (Hd & Hm & Hy & _);
    [|apply files_empty..|done|done|done].
  split_and!; [apply Hd | apply Hm | apply Hy].
Qed.

(** X8.  The entries of each of the three histograms add up to
    [totalWatched]. *)
Theorem histograms_add_up items s :
  generateStats items = Some s ->
  histogramTotal (StatsData.watchedByDay s) = StatsData.totalWatched s
  ∧ histogramTotal (StatsData.watchedByMonth s) = StatsData.totalWatched s
  ∧ histogramTotal (StatsData.watchedByYear s) = StatsData.totalWatched s.
Proof.
  intros (c & Hc & ->)%generateStats_Some. simpl.
  apply (forEach_files items []) in Hc as (_ & _ & _ & Hd & Hm & Hy);
    [done|apply files_empty..|done|done|done].
Qed.


Lemma byWatchCountDesc_counted a b :
  byWatchCountDesc a b = (Z.of_nat (counted b) - Z.of_nat (counted a))%Z.
Proof. done. Qed.

(** X9.  [mostWatchedShows] holds ten items, or all of them when there
    are fewer, in descending order of [watchCount] (an absent count is 0),
    and no item left out has a higher count than an item listed. *)
Theorem most_watched_are_the_top_ten items s :
  generateStats items = Some s ->
  length (StatsData.mostWatchedShows s) = min 10 (length items)
  ∧ StronglySorted (λ a b, counted b ≤ counted a) (StatsData.mostWatchedShows s)
  ∧ ∃ others, StatsData.mostWatchedShows s ++ others ≡ₚ items
      ∧ ∀ a b, a ∈ StatsData.mostWatchedShows s -> b ∈ others -> counted b ≤ counted a.
Proof.
  intros (c & _ & ->)%generateStats_Some. simpl.
  pose proof (Array_sort_sorted byWatchCountDesc (λ item, Z.of_nat (counted item)) items
                (λ a b _ _, byWatchCountDesc_counted a b)) as Hsorted.
  rewrite <- (take_drop 10 (Array_sort byWatchCountDesc items)) in Hsorted.
  apply StronglySorted_app in Hsorted as (Hcross & Htake & _).
  split_and!.
  - by rewrite length_take, Array_sort_length.
  - eapply StronglySorted_mono; [|exact Htake]. simpl. lia.
  - exists (drop 10 (Array_sort byWatchCountDesc items)). split.
    + by rewrite take_drop, Array_sort_Permutation.
    + intros a b Ha Hb. specialize (Hcross a b Ha Hb). simpl in Hcross. lia.
Qed.

Lemma filter_filter_continuing items :
  List.filter (λ show, default false (MediaItem.continuing show))
    (List.filter (λ item, String.eqb (MediaItem.type item) "tv") items)
  = List.filter continuingShow items.
Proof.
  unfold continuingShow. induction items as [|item items IH]; simpl; [done|].
  destruct (String.eqb _ "tv"); simpl; [|done].
  destruct (default false _); by rewrite IH.
Qed.

(** X10.  [continueWatchingShows] holds exactly the items of type tv that
    are marked as continuing, latest viewing first; when the given list is
    in that order already, they keep the order they have in it. *)
Theorem continue_watching_lists_continuing_series items s :
  generateStats items = Some s ->
  StatsData.continueWatchingShows s ≡ₚ List.filter continuingShow items
  ∧ latestFirst (StatsData.continueWatchingShows s)
  ∧ (latestFirst items ->
     StatsData.continueWatchingShows s = List.filter continuingShow items).
Proof.
  intros Hs. pose proof (generateStats_dated _ _ Hs) as Hdated.
  apply generateStats_Some in Hs as (c & _ & ->). simpl.
  rewrite filter_filter_continuing.
  assert (Forall dated (List.filter continuingShow items)) as Hsub.
  { rewrite Forall_forall in Hdated |- *.
    intros x Hx%list_elem_of_In%filter_In. apply Hdated, list_elem_of_In, Hx. }
  split_and!.
  - apply Array_sort_Permutation.
  - by apply sort_by_date_latestFirst.
  - intros Hsorted. apply sort_by_date_id; [done|]. by apply filter_sorted.
Qed.

End StatsFacts.

(** ** Where the items come from *)

Section ProvenanceFacts.
Context `{Normalizer} `{Catalog} `{Runtime}.
Variable viewingHistory : list NetflixViewingItem.t.

#[local] Abbreviation recorded' := (recorded viewingHistory).
#[local] Abbreviation provenanceInv' := (provenanceInv viewingHistory).

Lemma recordKey_matched item result :
  firstResult (searchMedia (cleanTitle (NetflixViewingItem.title item))) = Some result ->
  recordKey item = matchedKey result.
Proof. unfold recordKey. by intros ->. Qed.

Lemma recordKey_unmatched item :
  firstResult (searchMedia (cleanTitle (NetflixViewingItem.title item))) = None ->
  recordKey item = unknownKey (NetflixViewingItem.title item).
Proof. unfold recordKey. by intros ->. Qed.

Lemma provenance_touch item m :
  item ∈ viewingHistory ->
  Forall (λ kv, kv.1 = mergeKey kv.2 ∧ recorded' kv.1 (MediaItem.watchedDate kv.2)) m ->
  Forall (λ kv, kv.1 = mergeKey kv.2 ∧ recorded' kv.1 (MediaItem.watchedDate kv.2))
    (updateExistingMediaItem m (recordKey item) (NetflixViewingItem.date item)).
Proof.
  intros Hin. apply Forall_mutate. simpl. intros x [Hkey Hrec].
  rewrite mergeKey_touch. split; [done|]. unfold touch.
  destruct (Date_gt _ _); simpl; [|done]. by exists item.
Qed.

Lemma provenance_step pre t post m :
  provenanceInv' (pre ++ t :: post) m ->
  provenanceInv' (pre ++ (processViewingItem t m).1 :: post) (processViewingItem t m).2.
Proof.
  unfold provenanceInv. rewrite !Forall_app, !Forall_cons.
  intros (Hm & Hpre & Ht & Hpost).
  destruct t as [item|key result d|]; simpl in *.
  - destruct (firstResult _) as [result|] eqn:Hsearch.
    + rewrite <- (recordKey_matched item result Hsearch).
      destruct (JsMap.has _ m); simpl.
      * split_and!; [by apply provenance_touch|done..].
      * repeat (split; [done|]). split; [|done].
        split; [by apply recordKey_matched | by exists item].
    + rewrite <- (recordKey_unmatched item Hsearch).
      destruct (JsMap.has _ m); simpl.
      * split_and!; [by apply provenance_touch|done..].
      * split_and!; [|done..]. apply Forall_set; [|done]. simpl.
        split; [by apply recordKey_unmatched | by exists item].
  - destruct Ht as [-> Hrec]. split_and!; [|done..].
    apply Forall_set; [|done]. simpl.
    by rewrite mergeKey_createMediaItem, createMediaItem_watchedDate.
  - done.
Qed.

Lemma provenance_processBatch arrivals i m :
  Forall (λ kv, kv.1 = mergeKey kv.2 ∧ recorded' kv.1 (MediaItem.watchedDate kv.2)) m ->
  Forall (λ kv, kv.1 = mergeKey kv.2 ∧ recorded' kv.1 (MediaItem.watchedDate kv.2))
    (processBatch arrivals (take batchSize (drop i viewingHistory)) m).
Proof.
  intros Hm.
  apply (processBatch_invariant provenanceInv' arrivals
           (take batchSize (drop i viewingHistory)) m).
  - apply provenance_step.
  - split; [done|]. apply Forall_fmap, Forall_forall. intros item Hin. simpl.
    eapply subseteq_drop, subseteq_take, Hin.
Qed.

(** The run keeps the provenance of every entry, for any timeline. *)
Lemma run_provenance tl progressCallback onItemProcessed w :
  ∃ r w', processViewingHistory tl viewingHistory progressCallback onItemProcessed
            0 None w = Some (r, w')
    ∧ Forall (λ item, recorded' (mergeKey item) (MediaItem.watchedDate item))
        (mediaItems r)
    ∧ (cancelled r = false ->
       ∃ items, mediaItems r = Array_sort byWatchedDateDesc items).
Proof.
  unfold processViewingHistory. simpl.
  destruct (loop_invariant tl viewingHistory progressCallback onItemProcessed 0
    (λ _ _ m, Forall (λ kv, kv.1 = mergeKey kv.2
                            ∧ recorded' kv.1 (MediaItem.watchedDate kv.2)) m))
    with (fuel := length viewingHistory) (i := 0) (w := resetCancellation w)
         (m := @nil (string * MediaItem.t))
    as (i' & w' & m' & Hinv & Hres).
  - intros i w0 m _ _ Hm. rewrite iteration_map. by apply provenance_processBatch.
  - lia.
  - constructor.
  - assert (Forall (λ item, recorded' (mergeKey item) (MediaItem.watchedDate item))
              (JsMap.values m')) as Hvalues.
    { apply Forall_fmap. eapply Forall_impl; [exact Hinv|].
      intros [k x] [Hk Hrec]. simpl in *. by rewrite <- Hk. }
    destruct Hres as [(_ & _ & ->)|(_ & ->)]; eexists _, _; (split; [done|]); simpl.
    + split; [done|]. done.
    + split; [by rewrite Array_sort_Permutation | by eexists].
Qed.

(** X11.  Whatever the order in which lookups answer and whenever the host
    cancels, every item a run returns stems from the history: some record
    maps to the item's merge key and was watched on the item's
    [watchedDate]. *)
Theorem every_item_stems_from_a_record tl progressCallback onItemProcessed w :
  ∃ r w', processViewingHistory tl viewingHistory progressCallback onItemProcessed
            0 None w = Some (r, w')
    ∧ ∀ item, item ∈ mediaItems r ->
        ∃ rec, rec ∈ viewingHistory ∧ recordKey rec = mergeKey item
               ∧ NetflixViewingItem.date rec = MediaItem.watchedDate item.
Proof.
  destruct (run_provenance tl progressCallback onItemProcessed w)
    as (r & w' & Hrun & Hitems & _).
  exists r, w'. split; [done|]. by apply Forall_forall.
Qed.

Lemma recorded_dated item :
  Forall validDate viewingHistory ->
  recorded' (mergeKey item) (MediaItem.watchedDate item) -> dated item.
Proof.
  rewrite Forall_forall. intros Hvalid (rec & Hin & _ & Hdate).
  unfold dated. rewrite <- Hdate. by apply Hvalid.
Qed.

Lemma run_dated tl progressCallback onItemProcessed w :
  Forall validDate viewingHistory ->
  ∃ r w', processViewingHistory tl viewingHistory progressCallback onItemProcessed
            0 None w = Some (r, w')
    ∧ Forall dated (mediaItems r)
    ∧ (cancelled r = false -> latestFirst (mediaItems r)).
Proof.
  intros Hvalid.
  destruct (run_provenance tl progressCallback onItemProcessed w)
    as (r & w' & Hrun & Hitems & Hsorted).
  assert (Forall dated (mediaItems r)) as Hdated
    by (eapply Forall_impl; [exact Hitems | intros item; by apply recorded_dated]).
  exists r, w'. split_and!; [done..|].
  intros (items & Hitems')%Hsorted. rewrite Hitems'.
  apply sort_by_date_latestFirst.
  rewrite Hitems', Array_sort_Permutation in Hdated. done.
Qed.

(** X12.  When every record's date parses, every returned item's date
    parses, and the collection of a run that was not cancelled is in
    descending order of watched time, for every order of arrival. *)
Theorem completed_run_is_latest_first tl progressCallback onItemProcessed w :
  Forall validDate viewingHistory ->
  ∃ r w', processViewingHistory tl viewingHistory progressCallback onItemProcessed
            0 None w = Some (r, w')
    ∧ (∀ item, item ∈ mediaItems r ->
         is_Some (Date_getTime (MediaItem.watchedDate item)))
    ∧ (cancelled r = false -> latestFirst (mediaItems r)).
Proof.
  intros Hvalid.
  destruct (run_dated tl progressCallback onItemProcessed w Hvalid)
    as (r & w' & Hrun & Hdated & Hsorted).
  exists r, w'. split_and!; [done| |done]. by apply Forall_forall.
Qed.


End ProvenanceFacts.

(** ** The progress callback *)

Lemma progressCalls_app es es' :
  progressCalls (es ++ es') = progressCalls es ++ progressCalls es'.
Proof. apply omap_app. Qed.

Lemma progressCalls_ItemProcessed items : progressCalls (map ItemProcessed items) = [].
Proof. by induction items. Qed.

Lemma progressCalls_suspended hostCancels w :
  progressCalls (trace (suspended hostCancels w)) = progressCalls (trace w).
Proof.
  destruct hostCancels; simpl; [|done]. by rewrite progressCalls_app, app_nil_r.
Qed.

Section ProgressFacts.
Context `{Normalizer} `{Catalog} `{Runtime}.
Variable tl : Timeline.
Variable viewingHistory : list NetflixViewingItem.t.
Variables progressCallback onItemProcessed : bool.
Variable startIndex : nat.

(** An iteration calls the progress callback once, after its batch, with
    the number of records up to the end of the batch. *)
Lemma iteration_progress i w m :
  progressCalls
    (trace (iteration tl viewingHistory progressCallback onItemProcessed startIndex
              i w m).1)
  = progressCalls (trace w)
    ++ (if progressCallback
        then [(i + length (take batchSize (drop i viewingHistory)), length viewingHistory)]
        else []).
Proof.
  unfold iteration.
  generalize (i mod 10 =? 0) (i + batchSize <? length viewingHistory)
    (startIndex <? i)
    (onItemProcessed && (0 <? length (take batchSize (drop i viewingHistory)))).
  intros [] [] [] []; destruct progressCallback; simpl;
    rewrite ?progressCalls_suspended; simpl;
    rewrite ?progressCalls_app, ?progressCalls_ItemProcessed, ?progressCalls_suspended;
    simpl; by rewrite ?app_nil_r.
Qed.

End ProgressFacts.

Section ProgressRun.
Context `{Normalizer} `{Catalog} `{Runtime}.
Variable tl : Timeline.
Variable viewingHistory : list NetflixViewingItem.t.
Variable onItemProcessed : bool.
Variable startIndex : nat.


#[local] Abbreviation progressInv' := (progressInv startIndex viewingHistory).

Lemma progressInv_iteration before i w m :
  i < length viewingHistory ->
  progressInv' before i w ->
  progressInv' before (i + batchSize)
    (iteration tl viewingHistory true onItemProcessed startIndex i w m).1.
Proof.
  intros Hi (calls & Hcalls & Hall & Hsorted & Hstart & Hlast).
  exists (calls ++ [(i + length (take batchSize (drop i viewingHistory)),
                     length viewingHistory)]).
  rewrite iteration_progress, Hcalls, length_take, length_drop.
  unfold batchSize in *. split_and!.
  - by rewrite app_assoc.
  - apply Forall_app. split.
    + eapply Forall_impl; [exact Hall|]. simpl. lia.
    + apply Forall_singleton. cbn [fst snd]. lia.
  - apply StronglySorted_app_2; [|done|by repeat constructor].
    intros a b Ha ->%list_elem_of_singleton. cbn [fst snd].
    rewrite Forall_forall in Hall. specialize (Hall a Ha). cbn [fst snd] in Hall. lia.
  - lia.
  - intros _. rewrite last_snoc. do 2 f_equal. lia.
Qed.

(** X14.  With a progress callback, every call made during a run reports
    a count above the start index and at most the total, with the length of
    the history as total; the counts increase from call to call; and a run
    that is not cancelled over a history with records left ends on the call
    (total, total). *)
Theorem progress_is_reported_batch_by_batch existingMediaMap w :
  ∃ r w' calls,
    processViewingHistory tl viewingHistory true onItemProcessed startIndex
      existingMediaMap w = Some (r, w')
    ∧ progressCalls (trace w') = progressCalls (trace w) ++ calls
    ∧ (∀ c, c ∈ calls -> startIndex < c.1 ∧ c.1 ≤ c.2 ∧ c.2 = length viewingHistory)
    ∧ StronglySorted (λ a b, a.1 < b.1) calls
    ∧ (cancelled r = false -> startIndex < length viewingHistory ->
       last calls = Some (length viewingHistory, length viewingHistory)).
Proof.
  unfold processViewingHistory.
  destruct (loop_invariant tl viewingHistory true onItemProcessed startIndex
    (λ i w1 _, progressInv' (progressCalls (trace w)) i w1))
    with (fuel := length viewingHistory) (i := startIndex) (w := resetCancellation w)
         (m := default [] existingMediaMap)
    as (i' & w' & m' & (calls & Hcalls & Hall & Hsorted & Hstart & Hlast) & Hres).
  - intros i w0 m Hi _. by apply progressInv_iteration.
  - lia.
  - exists []. simpl. rewrite app_nil_r. split_and!; [done|constructor|constructor|done|lia].
  - assert (∀ c, c ∈ calls ->
              startIndex < c.1 ∧ c.1 ≤ c.2 ∧ c.2 = length viewingHistory) as Hall'.
    { rewrite Forall_forall in Hall. intros c Hc. specialize (Hall c Hc). simpl in Hall. lia. }
    destruct Hres as [(_ & _ & ->)|(Hend & ->)]; eexists _, _, calls;
      (split; [done|]); simpl.
    + rewrite progressCalls_app, app_nil_r. split_and!; done.
    + split_and!; [done..|]. intros _ Hlt. rewrite Hlast by lia. do 2 f_equal. lia.
Qed.

End ProgressRun.

(** ** What a run leaves for the next page load *)

Lemma load_after_complete store :
  ps_isProcessing (loadProcessingState (completeProcessing store)) = false.
Proof.
  unfold loadProcessingState, completeProcessing.
  rewrite lookup_delete_eq.
  by repeat (case_match; simpl; try done).
Qed.

Section Reload.
Context `{Normalizer} `{Catalog} `{Runtime}.
Variable tl : Timeline.
Variable viewingHistory : list NetflixViewingItem.t.
Variables progressCallback onItemProcessed : bool.
Variable startIndex : nat.

#[local] Abbreviation iteration'' :=
  (iteration tl viewingHistory progressCallback onItemProcessed startIndex).
#[local] Abbreviation firstIterations'' :=
  (firstIterations tl viewingHistory progressCallback onItemProcessed startIndex).

(** X15.  A run that returns with [cancelled = false] leaves no active
    checkpoint: [loadProcessingState] answers [isProcessing = false] and the
    next page load does not resume it. *)
Theorem completed_run_is_not_resumed existingMediaMap w r w' tl' :
  processViewingHistory tl viewingHistory progressCallback onItemProcessed startIndex
    existingMediaMap w = Some (r, w') ->
  cancelled r = false ->
  ps_isProcessing (loadProcessingState (localStorage w')) = false
  ∧ Page.loadSavedData tl' (Page.reload w') = None.
Proof.
  unfold processViewingHistory. intros Hrun Hc.
  destruct (loop_invariant tl viewingHistory progressCallback onItemProcessed startIndex
    (λ _ _ _, True))
    with (fuel := length viewingHistory) (i := startIndex) (w := resetCancellation w)
         (m := default [] existingMediaMap)
    as (i' & w1 & m' & _ & [(_ & _ & Hres)|(_ & Hres)]); [done|lia|done|..];
    rewrite Hres in Hrun; injection Hrun as <- <-; [done|].
  assert (ps_isProcessing
            (loadProcessingState (localStorage (with_storage completeProcessing w1)))
          = false) as Hload by apply load_after_complete.
  split; [done|]. unfold Page.loadSavedData, Page.reload.
  cbv zeta. cbn [localStorage]. rewrite Hload.
  destruct (ps_viewingHistory _); [|done]. by rewrite andb_false_r.
Qed.

(** The store after an iteration that writes a checkpoint. *)
Lemma iteration_storage i w m :
  i mod 10 = 0 -> startIndex < i ->
  cancelInYield tl i = false -> cancelInDelay tl i = false ->
  localStorage (iteration'' i w m).1
  = saveProcessingState viewingHistory i (JsMap.values (iteration'' i w m).2)
      (localStorage (suspended (cancelInBatch tl i) w)).
Proof.
  intros Hmod Hstart Hyield Hdelay. unfold iteration.
  rewrite Hmod, Hyield, Hdelay. apply Nat.ltb_lt in Hstart. rewrite Hstart.
  change (0 =? 0) with true. cbv beta iota zeta. simpl andb. cbv iota.
  destruct (_ <? length viewingHistory), progressCallback, (onItemProcessed && _);
    reflexivity.
Qed.

(** As long as the host does not cancel, the first [q + 1] iterations are
    the first [q] followed by the iteration at the index they reach. *)
Lemma firstIterations_last q :
  ∀ i w m,
    processingCancelled w = false ->
    (∀ j, j < q -> hostCancels tl (length viewingHistory) (i + batchSize * j) = false) ->
    i + batchSize * q < length viewingHistory ->
    firstIterations'' (S q) i w m
    = iteration'' (i + batchSize * q) (firstIterations'' q i w m).1
        (firstIterations'' q i w m).2
    ∧ processingCancelled (firstIterations'' q i w m).1 = false.
Proof.
  induction q as [|q IH]; intros i w m Hc Hbefore Hlast.
  - rewrite Nat.mul_0_r, Nat.add_0_r in *. rewrite firstIterations_S, Hc.
    destruct (Nat.ltb_spec i (length viewingHistory)); [|lia].
    simpl andb. cbv iota. cbn [firstIterations fst snd].
    split; [|done]. by destruct (iteration'' i w m).
  - rewrite firstIterations_S, Hc.
    destruct (Nat.ltb_spec i (length viewingHistory)); [|lia]. simpl andb. cbv iota.
    rewrite (firstIterations_S _ _ _ _ _ q i w m), Hc.
    destruct (Nat.ltb_spec i (length viewingHistory)); [|lia]. simpl andb. cbv iota.
    assert (processingCancelled (iteration'' i w m).1 = false) as Hc'.
    { rewrite iteration_flag, Hc. specialize (Hbefore 0).
      rewrite Nat.mul_0_r, Nat.add_0_r in Hbefore. rewrite Hbefore by lia. done. }
    destruct (IH (i + batchSize) (iteration'' i w m).1 (iteration'' i w m).2)
      as [-> ->]; [done| |lia|].
    + intros j Hj. rewrite <- (Hbefore (S j)) by lia. f_equal. lia.
    + split; [|done]. f_equal. lia.
Qed.

(** X16.  A cancellation does not always end a run for good.  When the
    host cancels while batch number [q > 0] of a run is in flight (start
    index a multiple of 10, the batch not the last), [cancelProcessing]
    clears the checkpoint, the batch in flight then writes a new one, and
    the run stops at the next boundary with [cancelled = true]: the store
    holds an active checkpoint at the index of that batch with the returned
    items, and the next page load resumes the run from there. *)
Theorem cancelled_run_is_resumed_on_reload existingMediaMap w q tl' :
  startIndex mod 10 = 0 -> 0 < q ->
  (∀ j, j < q ->
     hostCancels tl (length viewingHistory) (startIndex + batchSize * j) = false) ->
  cancelInBatch tl (startIndex + batchSize * q) = true ->
  cancelInYield tl (startIndex + batchSize * q) = false ->
  cancelInDelay tl (startIndex + batchSize * q) = false ->
  startIndex + batchSize * q + batchSize < length viewingHistory ->
  ∃ r w',
    processViewingHistory tl viewingHistory progressCallback onItemProcessed startIndex
      existingMediaMap w = Some (r, w')
    ∧ cancelled r = true
    ∧ loadProcessingState (localStorage w')
      = {| ps_viewingHistory := Some viewingHistory;
           ps_processedCount := startIndex + batchSize * q;
           ps_partialItems := Some (mediaItems r);
           ps_isProcessing := true |}
    ∧ Page.loadSavedData tl' (Page.reload w')
      = Some (processViewingHistory tl' viewingHistory true true
                (startIndex + batchSize * q)
                (Some (Page.resumeMediaMap (Some (mediaItems r))))
                (Page.reload w')).
Proof.
  intros Hmod Hq Hbefore Hbatch Hyield Hdelay Hlast. unfold processViewingHistory.
  rewrite (loop_first_cancel tl viewingHistory progressCallback onItemProcessed
             startIndex q); [|done|done| |done|unfold batchSize in *; lia].
  2: { unfold hostCancels. by rewrite Hbatch. }
  destruct (firstIterations_last q startIndex (resetCancellation w)
              (default [] existingMediaMap)) as [-> _]; [done|done|lia|].
  set (reached := firstIterations'' q startIndex (resetCancellation w)
                    (default [] existingMediaMap)).
  assert (loadProcessingState
            (localStorage (iteration'' (startIndex + batchSize * q) reached.1 reached.2).1)
          = {| ps_viewingHistory := Some viewingHistory;
               ps_processedCount := startIndex + batchSize * q;
               ps_partialItems :=
                 Some (JsMap.values
                         (iteration'' (startIndex + batchSize * q) reached.1 reached.2).2);
               ps_isProcessing := true |}) as Hload.
  { rewrite iteration_storage; [apply load_after_save| |unfold batchSize; lia|done..].
    unfold batchSize. rewrite Nat.Div0.add_mod, Hmod by lia.
    replace (40 * q) with (q * 4 * 10) by lia. by rewrite Nat.Div0.mod_mul. }
  eexists _, _. split; [done|]. split; [done|]. split; [exact Hload|].
  unfold Page.loadSavedData, Page.reload. cbv zeta.
  cbn [localStorage aborted with_effects mediaItems]. rewrite Hload.
  cbn [ps_viewingHistory ps_isProcessing ps_processedCount ps_partialItems].
  destruct (Nat.ltb_spec 0 (length viewingHistory)); [done|lia].
Qed.

End Reload.

(** ** Numbers as text *)

Lemma digitRun_string_of_uint d :
  digitRun (NilEmpty.string_of_uint d) = NilEmpty.string_of_uint d.
Proof. induction d; simpl; by rewrite ?IHd. Qed.

Lemma dropSpace_digit c rest :
  Title.isDigit c = true ->
  Title.dropSpace Title.isSpace2 Title.isSpace3 (String c rest) = String c rest.
Proof.
  intros Hc. destruct c as [[] [] [] [] [] [] [] []]; try discriminate Hc;
    destruct rest as [|b [|c rest]]; reflexivity.
Qed.

Lemma string_of_uint_head d :
  d ≠ Decimal.Nil ->
  ∃ c rest, NilEmpty.string_of_uint d = String c rest ∧ Title.isDigit c = true
            ∧ Ascii.eqb c "-" = false ∧ Ascii.eqb c "+" = false.
Proof. destruct d; [done|..]; intros _; simpl; by eexists _, _. Qed.

Lemma parseInt_unsigned d negative :
  d ≠ Decimal.Nil ->
  match NilEmpty.uint_of_string (digitRun (NilEmpty.string_of_uint d)) with
  | Some Decimal.Nil | None => None
  | Some d => Some (if negative : bool then (- Z.of_uint d)%Z else Z.of_uint d)
  end = Some (if negative then (- Z.of_uint d)%Z else Z.of_uint d).
Proof.
  intros Hd. rewrite digitRun_string_of_uint, NilEmpty.usu. by destruct d.
Qed.

Lemma NilZero_string_of_uint d :
  d ≠ Decimal.Nil -> NilZero.string_of_uint d = NilEmpty.string_of_uint d.
Proof. by destruct d. Qed.

Lemma dropSpace_minus rest :
  Title.dropSpace Title.isSpace2 Title.isSpace3 (String "-" rest) = String "-" rest.
Proof. by destruct rest as [|b [|c rest]]. Qed.

(** [parseInt] reads back what [toString] printed. *)
Lemma parseInt_Number_toString (n : Z) : parseInt (Number_toString n) = Some n.
Proof.
  unfold Number_toString.
  assert (∀ d, d ≠ Decimal.Nil ->
            parseInt (NilZero.string_of_int (Decimal.Pos d)) = Some (Z.of_uint d)
            ∧ parseInt (NilZero.string_of_int (Decimal.Neg d)) = Some (- Z.of_uint d)%Z)
    as Hparse.
  { intros d Hd. unfold NilZero.string_of_int. rewrite NilZero_string_of_uint by done.
    destruct (string_of_uint_head d Hd) as (c & rest & Hs & Hdigit & Hminus & Hplus).
    split; unfold parseInt.
    - rewrite Hs, dropSpace_digit by done. rewrite Hminus, Hplus, <- Hs.
      by apply (parseInt_unsigned d false).
    - rewrite dropSpace_minus. simpl Ascii.eqb. cbv iota.
      by apply (parseInt_unsigned d true). }
  rewrite <- (DecimalZ.of_to n) at 2.
  destruct n as [|p|p]; simpl Z.to_int.
  - reflexivity.
  - by apply Hparse, DecimalPos.Unsigned.to_uint_nonnil.
  - by apply Hparse, DecimalPos.Unsigned.to_uint_nonnil.
Qed.

Lemma Number_toString_truthy n : truthy (Some (Number_toString n)) = true.
Proof.
  unfold Number_toString, NilZero.string_of_int, NilZero.string_of_uint.
  destruct (Z.to_int n) as [d|d]; destruct d; reflexivity.
Qed.

(** ** The finished analysis in the store *)

(** X17.  What [saveDataToLocalStorage] writes,
    [loadDataFromLocalStorage] reads back: the statistics, the time of the
    save (printed by [toString], read by [parseInt]) and the items, except
    that an empty list of items loads as [null], so that an analysis without
    items is not restored by the page; after [clearLocalStorageData] nothing
    is restored. *)
Theorem saved_analysis_round_trip mediaItems stats now store :
  DataStore.loadDataFromLocalStorage
    (DataStore.saveDataToLocalStorage mediaItems stats now store)
  = {| DataStore.mediaItems := if bool_decide (mediaItems = []) then None else Some mediaItems;
       DataStore.stats := Some stats;
       DataStore.timestamp := Some (Some now) |}
  ∧ DataStore.restored (DataStore.saveDataToLocalStorage mediaItems stats now store)
    = (if bool_decide (mediaItems = []) then None else Some (mediaItems, stats))
  ∧ DataStore.restored
      (DataStore.clearLocalStorageData
         (DataStore.saveDataToLocalStorage mediaItems stats now store)) = None.
Proof.
  unfold DataStore.restored, DataStore.loadDataFromLocalStorage,
    DataStore.saveDataToLocalStorage.
  cbn [DataStore.mediaItemsJson DataStore.statsJson DataStore.timestampStr
       DataStore.mediaItems DataStore.stats].
  rewrite Number_toString_truthy. cbn [from_option id]. rewrite parseInt_Number_toString.
  by destruct mediaItems.
Qed.

(** ** The items discovered so far *)

Section HandlerFacts.
Context `{Runtime}.

#[local] Abbreviation ids := (map MediaItem.id).

Lemma seen_spec item prev :
  existsb (λ existingItem,
             bool_decide (MediaItem.id existingItem = MediaItem.id item)) prev = true
  <-> MediaItem.id item ∈ ids prev.
Proof.
  rewrite existsb_exists, list_elem_of_fmap. split.
  - intros (x & Hx%list_elem_of_In & Heq%bool_decide_eq_true). by exists x.
  - intros (x & Heq & Hx). exists x. split; [by apply list_elem_of_In|].
    by apply bool_decide_eq_true.
Qed.

(** A call for an id that is on the page keeps the list of ids; a call for
    a new id adds it. *)
Lemma handleItemProcessed_ids item prev :
  ids (Handlers.handleItemProcessed item prev)
  ≡ₚ if bool_decide (MediaItem.id item ∈ ids prev) then ids prev
     else ids prev ++ [MediaItem.id item].
Proof.
  unfold Handlers.handleItemProcessed.
  destruct (existsb _ prev) eqn:Hseen.
  - apply seen_spec in Hseen. rewrite bool_decide_eq_true_2 by done.
    match goal with |- ?l ≡ₚ _ => assert (l = ids prev) as ->; [|done] end.
    clear. induction prev as [|x prev IH]; simpl; [done|].
    rewrite IH. by destruct (bool_decide _).
  - rewrite bool_decide_eq_false_2.
    + by rewrite Array_sort_Permutation, fmap_app.
    + rewrite <- seen_spec. by rewrite Hseen.
Qed.

Lemma partialMediaItems_ids es :
  ∀ prev, NoDup (ids prev) ->
    NoDup (ids (Handlers.partialMediaItems es prev))
    ∧ ∀ i, i ∈ ids (Handlers.partialMediaItems es prev)
           <-> i ∈ ids prev ∨ i ∈ ids (discoveries es).
Proof.
  induction es as [|e es IH]; intros prev Hnd; simpl.
  - split; [done|]. intros i. rewrite elem_of_nil. tauto.
  - destruct e as [c t|item|line]; simpl.
    + apply IH, Hnd.
    + pose proof (handleItemProcessed_ids item prev) as Hids.
      destruct (IH (Handlers.handleItemProcessed item prev)) as [Hnd' Hin'].
      * rewrite Hids. case_bool_decide as Hseen; [done|].
        apply NoDup_app. split_and!; [done| |apply NoDup_singleton].
        intros i Hi ->%list_elem_of_singleton. done.
      * split; [done|]. intros i. rewrite Hin', Hids, elem_of_cons.
        case_bool_decide as Hseen.
        -- split; [tauto|]. intros [?|[->|?]]; tauto.
        -- rewrite elem_of_app, list_elem_of_singleton. tauto.
    + apply IH, Hnd.
Qed.

(** X18.  The list of items discovered so far, as [handleItemProcessed]
    builds it from the calls of a trace starting with an empty list, never
    shows an id twice; the ids on it are exactly the ids reported, and it is
    no longer than the number of calls. *)
Theorem discovered_items_are_listed_once es :
  NoDup (map MediaItem.id (Handlers.partialMediaItems es []))
  ∧ (∀ i, i ∈ map MediaItem.id (Handlers.partialMediaItems es [])
          <-> ∃ item, item ∈ discoveries es ∧ MediaItem.id item = i)
  ∧ length (Handlers.partialMediaItems es []) ≤ length (discoveries es).
Proof.
  destruct (partialMediaItems_ids es []) as [Hnd Hin]; [constructor|].
  assert (∀ i, i ∈ ids (Handlers.partialMediaItems es [])
               <-> ∃ item, item ∈ discoveries es ∧ MediaItem.id item = i) as Hin'.
  { intros i. rewrite Hin. simpl. rewrite elem_of_nil, list_elem_of_fmap.
    split; [intros [[]|(x & -> & ?)]; eauto | intros (x & ? & <-); eauto]. }
  split_and!; [done..|].
  rewrite <- (length_map MediaItem.id), <- (length_map MediaItem.id (discoveries es)).
  apply submseteq_length, NoDup_submseteq; [done|]. intros i Hi.
  by apply Hin in Hi as [[]%elem_of_nil|].
Qed.

End HandlerFacts.

(** ** The most active period *)

Lemma most_active_fold entries first :
  let best := fold_left (λ max current : string * nat,
                           if max.2 <? current.2 then current else max) entries first in
  (best = first ∨ best ∈ entries)
  ∧ first.2 ≤ best.2 ∧ ∀ e, e ∈ entries -> e.2 ≤ best.2.
Proof.
  revert first. induction entries as [|e entries IH]; intros first; simpl.
  - split_and!; [by left|done|]. by intros ? ?%elem_of_nil.
  - destruct (IH (if first.2 <? e.2 then e else first)) as (Hin & Hfirst & Hall).
    simpl in *. destruct (Nat.ltb_spec first.2 e.2).
    + split_and!.
      * right. destruct Hin as [->|?]; [left | by right].
      * lia.
      * intros x [->|Hx]%elem_of_cons; [done | by apply Hall].
    + split_and!.
      * destruct Hin as [->|?]; [by left | right; by right].
      * done.
      * intros x [->|Hx]%elem_of_cons; [lia | by apply Hall].
Qed.

Lemma getMostActive_max entries :
  0 < length entries ->
  StatsOverview.getMostActive entries ∈ entries
  ∧ ∀ e, e ∈ entries -> e.2 ≤ (StatsOverview.getMostActive entries).2.
Proof.
  destruct entries as [|first entries]; simpl; [lia|]. intros _.
  destruct (most_active_fold (first :: entries) first) as ([Heq|Hin] & _ & Hall).
  - simpl in *. rewrite Heq at 1. split; [left | done].
  - done.
Qed.

Section MostActive.
Context `{Runtime}.

Lemma most_active_of_histogram period counts items entries :
  files period counts items ->
  entries ≡ₚ map_to_list counts ->
  (∃ item k, item ∈ items ∧ period item = Some k) ->
  filedUnder period (StatsOverview.getMostActive entries).1 items
  = (StatsOverview.getMostActive entries).2
  ∧ ∀ k, filedUnder period k items ≤ (StatsOverview.getMostActive entries).2.
Proof.
  intros Hfiles Hentries (item & k0 & Hin & Hk0).
  assert (∀ k n, (k, n) ∈ entries <-> 0 < n ∧ n = filedUnder period k items) as Hspec.
  { intros k n. rewrite Hentries, elem_of_map_to_list. apply Hfiles. }
  assert (0 < filedUnder period k0 items) as Hpos.
  { unfold filedUnder. apply list_elem_of_In in Hin.
    assert (In item (List.filter (λ item, bool_decide (period item = Some k0)) items))
      as Hf by (apply filter_In; split; [done | by apply bool_decide_eq_true]).
    destruct (List.filter _ items); [done | simpl; lia]. }
  assert (0 < length entries) as Hne.
  { assert ((k0, filedUnder period k0 items) ∈ entries) as He by (by apply Hspec).
    destruct entries; [by apply elem_of_nil in He | simpl; lia]. }
  destruct (getMostActive_max entries Hne) as [Hbest Hall].
  destruct (StatsOverview.getMostActive entries) as [kb nb]. simpl in *.
  apply Hspec in Hbest as [_ ->]. split; [done|]. intros k.
  destruct (filedUnder period k items) as [|n] eqn:Hn; [lia|].
  rewrite <- Hn. apply (Hall (k, filedUnder period k items)), Hspec. lia.
Qed.

(** X19.  The cards of the most active month and year: for any order in
    which [Object.entries] lists a histogram of [generateStats] over a
    non-empty list, the count [getMostActive] shows is the number of items
    filed under the period it names, and no month (year) has more items. *)
Theorem most_active_month_and_year items s months years :
  generateStats items = Some s -> 0 < length items ->
  months ≡ₚ map_to_list (StatsData.watchedByMonth s) ->
  years ≡ₚ map_to_list (StatsData.watchedByYear s) ->
  (filedUnder monthOf (StatsOverview.getMostActive months).1 items
   = (StatsOverview.getMostActive months).2
   ∧ ∀ k, filedUnder monthOf k items ≤ (StatsOverview.getMostActive months).2)
  ∧ (filedUnder yearOf (StatsOverview.getMostActive years).1 items
     = (StatsOverview.getMostActive years).2
     ∧ ∀ k, filedUnder yearOf k items ≤ (StatsOverview.getMostActive years).2).
Proof.
  intros Hs Hlen Hmonths Hyears.
  pose proof (generateStats_dated _ _ Hs) as Hdated.
  apply generateStats_Some in Hs as (c & Hc & ->). simpl in *.
  apply (forEach_files items []) in Hc as (_ & Hm & Hy & _);
    [|apply files_empty..|done|done|done].
  destruct items as [|item items]; [simpl in Hlen; lia|].
  apply Forall_cons in Hdated as [[date Hdate] _].
  split.
  - eapply most_active_of_histogram; [exact Hm|done|].
    eexists item, _. split; [left|]. unfold monthOf, dayOf. by rewrite Hdate.
  - eapply most_active_of_histogram; [exact Hy|done|].
    eexists item, _. split; [left|]. unfold yearOf, dayOf. by rewrite Hdate.
Qed.

End MostActive.

(** ** The revision before cancellation *)

Section MiddleFacts.
Context `{Normalizer} `{Catalog} `{Runtime}.
Variable tl : Timeline.
Variable viewingHistory : list NetflixViewingItem.t.
Variables progressCallback onItemProcessed : bool.

Lemma middle_loop fuel :
  ∀ i effects m, length viewingHistory ≤ i + fuel ->
    ∃ effects',
      Middle.loop (arrivals tl) viewingHistory progressCallback onItemProcessed
        fuel i effects m
      = Some (Array_sort byWatchedDateDesc
                (JsMap.values (mergeAll tl viewingHistory fuel i m)), effects').
Proof.
  induction fuel as [|fuel IH]; intros i effects m Hfuel.
  - simpl. destruct (Nat.ltb_spec i (length viewingHistory)); [lia|]. by eexists.
  - cbn [Middle.loop]. rewrite mergeAll_S.
    destruct (Nat.ltb_spec i (length viewingHistory)); [|by eexists].
    apply IH. unfold batchSize. lia.
Qed.

(** X20.  The revision that added cancellation, checkpoints and resuming
    returns, for a run from index 0 that the host does not cancel, the same
    collection as the revision before it, under every order of arrival. *)
Theorem cancellation_support_keeps_the_result w :
  neverCancels tl ->
  ∃ items w' effects,
    processViewingHistory tl viewingHistory progressCallback onItemProcessed 0 None w
    = Some ({| mediaItems := items; cancelled := false |}, w')
    ∧ Middle.processViewingHistory (arrivals tl) viewingHistory progressCallback
        onItemProcessed = Some (items, effects).
Proof.
  intros Hnever. unfold processViewingHistory, Middle.processViewingHistory.
  destruct (loop_neverCancels tl viewingHistory progressCallback onItemProcessed 0
              (length viewingHistory) 0 (resetCancellation w) [] Hnever)
    as (w' & Hrun & _); [lia|done|].
  destruct (middle_loop (length viewingHistory) 0 [] []) as [effects Hmid]; [lia|].
  eexists _, w', effects. split; [exact Hrun | exact Hmid].
Qed.

End MiddleFacts.


(** ** [cleanTitle] *)
Module TitleFacts.
Import Title.

Lemma sameLetter_colon x : sameLetter x ":" = Ascii.eqb x ":".
Proof. destruct x as [[] [] [] [] [] [] [] []]; reflexivity. Qed.

Lemma stripEpisode_eq s :
  stripEpisode s
  = if (String.prefix ": " s || episodeMarker s) && dotStarToEnd s
    then EmptyString
    else match s with
         | EmptyString => EmptyString
         | String c rest => String c (stripEpisode rest)
         end.
Proof. by destruct s. Qed.

Lemma stripLimited_eq s :
  stripLimited s
  = if sameText s ": Limited Series" then EmptyString
    else match s with
         | EmptyString => EmptyString
         | String c rest => String c (stripLimited rest)
         end.
Proof. by destruct s. Qed.

Lemma prefix_colon c rest : Ascii.eqb c ":" = false -> String.prefix ": " (String c rest) = false.
Proof.
  intros Hc. cbn [String.prefix]. destruct (ascii_dec ":" c) as [<-|]; [|done].
  by rewrite Ascii.eqb_refl in Hc.
Qed.

Lemma skipDigits_mentions c s :
  mentions c s = false -> mentions c (skipDigits s) = false.
Proof.
  induction s as [|x s IH]; simpl; [done|]. intros [Hx Hs]%orb_false_elim.
  destruct (isDigit x); [by apply IH|]. simpl. by rewrite Hx, Hs.
Qed.

Lemma episodeMarker_plain s : mentions ":" s = false -> episodeMarker s = false.
Proof.
  destruct s as [|c0 [|c r]]; simpl; [done|by rewrite andb_false_r|].
  intros [_ [_ Hr]%orb_false_elim]%orb_false_elim.
  destruct (isDigit c); [|by rewrite andb_false_r].
  apply skipDigits_mentions in Hr.
  destruct (skipDigits r) as [|colon [|e r1]]; simpl in *; try by rewrite andb_false_r.
  apply orb_false_elim in Hr as [-> _]. by rewrite andb_false_r.
Qed.

Lemma stripEpisode_plain s : mentions ":" s = false -> stripEpisode s = s.
Proof.
  induction s as [|c s IH]; [done|]. intros Hs. rewrite stripEpisode_eq.
  rewrite (episodeMarker_plain _ Hs). simpl in Hs.
  apply orb_false_elim in Hs as [Hc Hs]. rewrite prefix_colon by done.
  simpl. by rewrite IH.
Qed.

Lemma stripParens_plain s : mentions "(" s = false -> stripParens false s = s.
Proof.
  induction s as [|c s IH]; simpl; [done|]. intros [-> Hs]%orb_false_elim.
  simpl. by rewrite IH.
Qed.

Lemma stripLimited_plain s : mentions ":" s = false -> stripLimited s = s.
Proof.
  induction s as [|c s IH]; [done|]. simpl mentions. intros [Hc Hs]%orb_false_elim.
  rewrite stripLimited_eq. cbn [sameText]. rewrite sameLetter_colon, Hc. simpl.
  by rewrite IH.
Qed.

Lemma dotStarToEnd_subtitle rest :
  dotStarToEnd rest = true -> dotStarToEnd (": " +:+ rest) = true.
Proof. intros Hrest. destruct rest as [|b [|c r]]; simpl in *; by rewrite ?Hrest. Qed.

Lemma skipDigits_subtitle x rest :
  mentions ":" x = false ->
  ∃ y, skipDigits (x +:+ ": " +:+ rest) = y +:+ ": " +:+ rest ∧ mentions ":" y = false.
Proof.
  induction x as [|c x IH]; simpl.
  - intros _. by exists EmptyString.
  - intros [Hc Hx]%orb_false_elim. destruct (isDigit c); [by apply IH|].
    exists (String c x). simpl. by rewrite Hc, Hx.
Qed.

Lemma episodeMarker_subtitle x rest :
  mentions ":" x = false -> episodeMarker (x +:+ ": " +:+ rest) = false.
Proof.
  destruct x as [|c0 [|c r]]; simpl; [done|by rewrite andb_false_r|].
  intros [_ [_ Hr]%orb_false_elim]%orb_false_elim.
  destruct (isDigit c); [|by rewrite andb_false_r].
  destruct (skipDigits_subtitle r rest Hr) as (y & -> & Hy).
  destruct y as [|y0 [|y1 y]]; simpl in *; try by rewrite andb_false_r.
  - apply orb_false_elim in Hy as [-> _]. by rewrite andb_false_r.
  - apply orb_false_elim in Hy as [-> _]. by rewrite andb_false_r.
Qed.

Lemma stripEpisode_subtitle show rest :
  mentions ":" show = false -> dotStarToEnd rest = true ->
  stripEpisode (show +:+ ": " +:+ rest) = show.
Proof.
  intros Hshow Hrest. induction show as [|c show IH].
  - change (EmptyString +:+ ": " +:+ rest) with (": " +:+ rest).
    rewrite stripEpisode_eq, dotStarToEnd_subtitle by done. by destruct rest.
  - rewrite stripEpisode_eq, episodeMarker_subtitle by done.
    simpl in Hshow. apply orb_false_elim in Hshow as [Hc Hshow].
    change (String c show +:+ ": " +:+ rest) with (String c (show +:+ ": " +:+ rest)).
    rewrite prefix_colon by done. simpl. by rewrite IH.
Qed.

End TitleFacts.

(** X21.  A title without a colon and without an opening parenthesis is
    searched as it is, but for the white space [trim] removes. *)
Theorem title_without_colon_or_parenthesis_is_only_trimmed title :
  mentions ":" title = false -> mentions "(" title = false ->
  Title.cleanTitle title = Title.trim title.
Proof.
  intros Hcolon Hparen. unfold Title.cleanTitle.
  by rewrite TitleFacts.stripEpisode_plain, TitleFacts.stripParens_plain,
    TitleFacts.stripLimited_plain.
Qed.

(** X22.  A title of the form [show + ": " + rest], where [show] has
    neither colon nor opening parenthesis and [rest] has no line terminator,
    is searched as [show] (trimmed): everything from the first [": "] on is
    dropped. *)
Theorem subtitle_is_cut_at_the_first_colon show rest :
  mentions ":" show = false -> mentions "(" show = false ->
  Title.dotStarToEnd rest = true ->
  Title.cleanTitle (show +:+ ": " +:+ rest) = Title.trim show.
Proof.
  intros Hcolon Hparen Hrest. unfold Title.cleanTitle.
  by rewrite TitleFacts.stripEpisode_subtitle, TitleFacts.stripParens_plain,
    TitleFacts.stripLimited_plain.
Qed.

(** ** The grid *)

Section GridFacts.
Context `{Runtime}.
Variable localeCompare : string -> string -> Z.

(** X23.  Sorting the grid by watch date, on items whose dates parse: the
    direction [desc], the grid's initial setting, lists the earliest viewing
    first, and [asc] the latest first; both keep every item. *)
Theorem watch_date_order_of_the_grid items :
  Forall dated items ->
  (MediaGrid.sortItems localeCompare MediaGrid.recent MediaGrid.desc items ≡ₚ items
   ∧ earliestFirst
       (MediaGrid.sortItems localeCompare MediaGrid.recent MediaGrid.desc items))
  ∧ (MediaGrid.sortItems localeCompare MediaGrid.recent MediaGrid.asc items ≡ₚ items
     ∧ latestFirst
         (MediaGrid.sortItems localeCompare MediaGrid.recent MediaGrid.asc items)).
Proof.
  intros Hdated. unfold MediaGrid.sortItems. split; (split; [apply Array_sort_Permutation|]).
  - eapply StronglySorted_mono;
      [|apply (Array_sort_sorted _ (λ item, (- watchedTime item)%Z))].
    + simpl. lia.
    + intros a b Ha Hb. simpl. rewrite (byWatchedDateDesc_dated items) by done. lia.
  - apply Array_sort_sorted. intros a b Ha Hb. simpl.
    by apply (byWatchedDateDesc_dated items).
Qed.

End GridFacts.

(** ** The map rebuilt on resume *)

Lemma set_fresh key v m :
  key ∉ JsMap.keys m -> JsMap.set key v m = m ++ [(key, v)].
Proof.
  induction m as [|[k x] m IH]; simpl; [done|].
  intros [Hne Hnotin]%not_elem_of_cons.
  destruct (String.eqb_spec k key); [congruence|]. by rewrite IH.
Qed.

Lemma resumeMediaMap_fold items :
  ∀ acc,
    NoDup (JsMap.keys acc ++ map mergeKey items) ->
    Forall (λ item, ∃ n, MediaItem.id item = IdNum n) items ->
    fold_left
      (λ mediaMap item,
         JsMap.set (Id_toString (MediaItem.id item) +:+ "-" +:+ MediaItem.type item)
                   item mediaMap) items acc
    = acc ++ map (λ item, (mergeKey item, item)) items.
Proof.
  induction items as [|item items IH]; intros acc Hnd Hmatched; simpl.
  - by rewrite app_nil_r.
  - apply Forall_cons in Hmatched as [[n Hid] Hmatched].
    assert (Id_toString (MediaItem.id item) +:+ "-" +:+ MediaItem.type item
            = mergeKey item) as -> by (unfold mergeKey; by rewrite Hid).
    simpl in Hnd. apply NoDup_app in Hnd as (Hacc & Hcross & Hrest).
    apply NoDup_cons in Hrest as [Hfresh Hrest].
    rewrite set_fresh by (intros Hin; apply (Hcross _ Hin); left).
    rewrite IH; [by rewrite <- app_assoc| |done].
    unfold JsMap.keys. rewrite fmap_app. simpl. rewrite <- app_assoc. simpl.
    apply NoDup_app. split_and!; [done| |by apply NoDup_cons].
    intros k Hk. by apply Hcross.
Qed.

(** X24.  The map the page rebuilds on resume is the map whose values
    were saved, entry for entry and in order, when that map had one entry
    per merge key and held matched items only. *)
Theorem resume_rebuilds_a_map_of_matched_items m :
  NoDup (JsMap.keys m) -> keyed m ->
  Forall (λ kv, ∃ n, MediaItem.id kv.2 = IdNum n) m ->
  Page.resumeMediaMap (Some (JsMap.values m)) = m.
Proof.
  intros Hnd Hkeyed Hmatched. unfold Page.resumeMediaMap. simpl.
  rewrite resumeMediaMap_fold.
  - simpl. unfold JsMap.values. rewrite <- list_fmap_compose.
    rewrite <- (list_fmap_id m) at 2. apply list_fmap_ext.
    intros _ [k x] Hin%list_elem_of_lookup_2. simpl.
    f_equal. symmetry. apply (proj1 (Forall_forall _ _) Hkeyed _ Hin).
  - simpl. by rewrite keyed_mergeKeys.
  - by apply Forall_fmap.
Qed.

(** ** Counts and records *)

Lemma sum_set (f : MediaItem.t -> nat) key v m :
  sum_list_with f (JsMap.values (JsMap.set key v m)) + from_option f 0 (JsMap.get key m)
  = sum_list_with f (JsMap.values m) + f v.
Proof.
  induction m as [|[k x] m IH]; simpl; [lia|].
  destruct (String.eqb_spec k key); simpl; lia.
Qed.

Lemma sum_mutate (f : MediaItem.t -> nat) g key m :
  sum_list_with f (JsMap.values (JsMap.mutate g key m))
  + from_option f 0 (JsMap.get key m)
  = sum_list_with f (JsMap.values m) + from_option (λ x, f (g x)) 0 (JsMap.get key m).
Proof.
  induction m as [|[k x] m IH]; simpl; [lia|].
  destruct (String.eqb_spec k key); simpl; lia.
Qed.

Section CountFacts.
Context `{Normalizer} `{Catalog} `{Runtime}.

Lemma counted_touch d item : 0 < counted item -> counted (touch d item) = counted item + 1.
Proof.
  unfold touch, counted. destruct (Date_gt _ _); simpl;
    destruct (MediaItem.watchCount item) as [[|n]|]; simpl; lia.
Qed.

Lemma countInv_touch key d m :
  JsMap.has key m = true ->
  Forall (λ kv, 0 < counted kv.2) m ->
  sum_list_with counted (JsMap.values (updateExistingMediaItem m key d))
  = sum_list_with counted (JsMap.values m) + 1
  ∧ Forall (λ kv, 0 < counted kv.2) (updateExistingMediaItem m key d).
Proof.
  intros Hhas Hpos. unfold updateExistingMediaItem. split.
  - pose proof (sum_mutate counted (touch d) key m) as Hsum.
    unfold JsMap.has in Hhas. destruct (JsMap.get key m) as [old|] eqn:Hget; [|done].
    simpl in Hsum. rewrite counted_touch in Hsum; [lia|].
    apply JsMapFacts.elem_of_get in Hget.
    apply (proj1 (Forall_forall _ _) Hpos _ Hget).
  - apply Forall_mutate; [|done]. simpl. intros x Hx. rewrite counted_touch by done. lia.
Qed.

Lemma countInv_step bound pre t post m :
  countInv bound (pre ++ t :: post) m ->
  countInv bound (pre ++ (processViewingItem t m).1 :: post) (processViewingItem t m).2.
Proof.
  unfold countInv. rewrite !sum_list_with_app. simpl.
  intros [Hsum Hpos].
  destruct t as [item|key result d|]; simpl in *.
  - destruct (firstResult _) as [result|].
    + destruct (JsMap.has _ m) eqn:Hhas; simpl; [|split; [lia|done]].
      destruct (countInv_touch _ (NetflixViewingItem.date item) m Hhas Hpos)
        as [-> ?]. split; [lia|done].
    + destruct (JsMap.has _ m) eqn:Hhas; simpl.
      * destruct (countInv_touch _ (NetflixViewingItem.date item) m Hhas Hpos)
          as [-> ?]. split; [lia|done].
      * pose proof (sum_set counted (unknownKey (NetflixViewingItem.title item))
                      (createMinimalMediaItem (NetflixViewingItem.title item)
                                              (NetflixViewingItem.date item)) m) as Hset.
        assert (JsMap.get (unknownKey (NetflixViewingItem.title item)) m = None) as Hget
          by (unfold JsMap.has in Hhas; by destruct (JsMap.get _ m)).
        rewrite Hget in Hset.
        change (counted (createMinimalMediaItem _ _)) with 1 in Hset.
        split; [simpl in Hset; lia|].
        apply Forall_set; [|done]. unfold counted. simpl. lia.
  - pose proof (sum_set counted key (createMediaItem result d) m) as Hset.
    assert (counted (createMediaItem result d) = 1) as Hone
      by (unfold counted; by rewrite createMediaItem_watchCount).
    rewrite Hone in Hset. split; [lia|]. apply Forall_set; [|done]. simpl. lia.
  - done.
Qed.

Lemma countInv_processBatch arrivals batch m :
  Forall (λ kv, 0 < counted kv.2) m ->
  sum_list_with counted (JsMap.values (processBatch arrivals batch m))
  ≤ sum_list_with counted (JsMap.values m) + length batch
  ∧ Forall (λ kv, 0 < counted kv.2) (processBatch arrivals batch m).
Proof.
  intros Hpos.
  destruct (processBatch_invariant
              (countInv (sum_list_with counted (JsMap.values m) + length batch))
              arrivals batch m) as [Hsum Hpos'].
  - intros. by apply countInv_step.
  - split; [|done]. clear. induction batch; simpl in *; lia.
  - split; [lia|done].
Qed.

(** X25.  Whatever the order in which lookups answer and whenever the host
    cancels, every returned item has a watch count of at least 1 and the
    watch counts of the returned items add up to no more than the number of
    records: overlapping lookups can lose a count, never add one. *)
Theorem watch_counts_never_exceed_the_records tl viewingHistory progressCallback
    onItemProcessed w :
  ∃ r w', processViewingHistory tl viewingHistory progressCallback onItemProcessed
            0 None w = Some (r, w')
    ∧ (∀ item, item ∈ mediaItems r -> ∃ n, MediaItem.watchCount item = Some (S n))
    ∧ sum_list_with counted (mediaItems r) ≤ length viewingHistory.
Proof.
  unfold processViewingHistory. simpl.
  destruct (loop_invariant tl viewingHistory progressCallback onItemProcessed 0
    (λ i _ m, sum_list_with counted (JsMap.values m) + (length viewingHistory - i)
                ≤ length viewingHistory
              ∧ Forall (λ kv, 0 < counted kv.2) m))
    with (fuel := length viewingHistory) (i := 0) (w := resetCancellation w)
         (m := @nil (string * MediaItem.t))
    as (i' & w' & m' & (Hsum & Hpos) & Hres).
  - intros i w0 m Hi _ [Hsum Hpos]. rewrite iteration_map.
    destruct (countInv_processBatch (arrivals tl i)
                (take batchSize (drop i viewingHistory)) m Hpos) as [Hsum' Hpos'].
    split; [|done]. rewrite length_take, length_drop in Hsum'. unfold batchSize in *. lia.
  - lia.
  - split; [simpl; lia | constructor].
  - assert (∀ item, item ∈ JsMap.values m' ->
              ∃ n, MediaItem.watchCount item = Some (S n)) as Hpos'.
    { intros item ([k x] & -> & Hin)%list_elem_of_fmap.
      apply (proj1 (Forall_forall _ _) Hpos) in Hin. unfold counted in Hin. simpl in *.
      destruct (MediaItem.watchCount x) as [[|n]|]; simpl in Hin; [lia|by exists n|lia]. }
    destruct Hres as [(_ & _ & ->)|(_ & ->)]; eexists _, _; (split; [done|]); simpl.
    + split; [done|lia].
    + split.
      * intros item. rewrite Array_sort_Permutation. apply Hpos'.
      * rewrite Array_sort_Permutation. lia.
Qed.

End CountFacts.

(** ** The earliest revision *)

Lemma mergeKey_not_unknown n type title :
  Number_toString n +:+ "-" +:+ type ≠ unknownKey title.
Proof.
  unfold unknownKey, Number_toString, NilZero.string_of_int, NilZero.string_of_uint.
  destruct (Z.to_int n) as [d|d]; destruct d; simpl; discriminate.
Qed.

Lemma forget_id item : MediaItem.id (forgetUnmatchedDate item) = MediaItem.id item.
Proof. unfold forgetUnmatchedDate. destruct (MediaItem.id item) eqn:Hid; simpl; exact Hid. Qed.

Lemma get_forget key m :
  JsMap.get key (map (λ kv, (kv.1, forgetUnmatchedDate kv.2)) m)
  = forgetUnmatchedDate <$> JsMap.get key m.
Proof.
  induction m as [|[k x] m IH]; simpl; [done|]. by destruct (String.eqb k key).
Qed.

Lemma values_forget m :
  map forgetUnmatchedDate (JsMap.values m)
  = JsMap.values (map (λ kv, (kv.1, forgetUnmatchedDate kv.2)) m).
Proof. induction m as [|[k x] m IH]; simpl; [done|]. by rewrite IH. Qed.

Lemma has_same key m m' :
  sameButUnmatchedDates m m' -> JsMap.has key m = JsMap.has key m'.
Proof.
  intros Hsame. unfold JsMap.has.
  pose proof (get_forget key m) as Hm. rewrite Hsame, get_forget in Hm.
  destruct (JsMap.get key m), (JsMap.get key m'); done.
Qed.

Lemma set_same key v m m' :
  sameButUnmatchedDates m m' ->
  sameButUnmatchedDates (JsMap.set key v m) (JsMap.set key v m').
Proof.
  unfold sameButUnmatchedDates. revert m'.
  induction m as [|[k x] m IH]; intros [|[k' x'] m'] Hsame; simpl in *; try done.
  injection Hsame as <- Hx Hrest.
  destruct (String.eqb k key); simpl; [by rewrite Hrest | by rewrite Hx, (IH m')].
Qed.

Lemma mutate_same f f' key m m' :
  (∀ x y, JsMap.get key m = Some x -> JsMap.get key m' = Some y ->
          forgetUnmatchedDate x = forgetUnmatchedDate y ->
          forgetUnmatchedDate (f x) = forgetUnmatchedDate (f' y)) ->
  sameButUnmatchedDates m m' ->
  sameButUnmatchedDates (JsMap.mutate f key m) (JsMap.mutate f' key m').
Proof.
  unfold sameButUnmatchedDates. revert m'.
  induction m as [|[k x] m IH]; intros [|[k' x'] m'] Hf Hsame; simpl in *; try done.
  injection Hsame as <- Hx Hrest.
  destruct (String.eqb k key); simpl.
  - by rewrite Hrest, (Hf x x').
  - by rewrite Hx, (IH m').
Qed.

Section LegacyFacts.
Context `{Normalizer} `{Catalog} `{Runtime}.

Lemma forget_touch d x y :
  forgetUnmatchedDate x = forgetUnmatchedDate y ->
  forgetUnmatchedDate (touch d x) = forgetUnmatchedDate (touch d y).
Proof.
  intros Hxy. pose proof (f_equal MediaItem.id Hxy) as Hid. rewrite !forget_id in Hid.
  unfold forgetUnmatchedDate in *.
  assert (MediaItem.id (touch d x) = MediaItem.id x) as ->
    by (unfold touch; by destruct (Date_gt _ _)).
  assert (MediaItem.id (touch d y) = MediaItem.id y) as ->
    by (unfold touch; by destruct (Date_gt _ _)).
  rewrite <- Hid in *. destruct (MediaItem.id x); [by subst|].
  unfold touch. destruct x, y. simpl in *. injection Hxy as -> -> -> -> -> -> -> -> -> -> -> -> ->.
  by do 2 destruct (Date_gt _ _).
Qed.

Lemma forget_bumpOnly d x y s :
  MediaItem.id y = IdStr s ->
  forgetUnmatchedDate x = forgetUnmatchedDate y ->
  forgetUnmatchedDate (Legacy.bumpOnly x) = forgetUnmatchedDate (touch d y).
Proof.
  intros Hy Hxy. pose proof (f_equal MediaItem.id Hxy) as Hid. rewrite !forget_id in Hid.
  unfold forgetUnmatchedDate in *.
  assert (MediaItem.id (touch d y) = MediaItem.id y) as ->
    by (unfold touch; by destruct (Date_gt _ _)).
  change (MediaItem.id (Legacy.bumpOnly x)) with (MediaItem.id x).
  rewrite Hid, Hy in *.
  unfold touch, Legacy.bumpOnly. destruct x, y. simpl in *.
  injection Hxy as -> -> -> -> -> -> -> -> -> -> -> -> ->.
  by destruct (Date_gt _ _).
Qed.

(** A record merged by the earliest revision with no other task in
    between. *)
Lemma legacy_finish_spec item m :
  Legacy.finish (AwaitSearch item) m
  = if JsMap.has (recordKey item) m
    then match firstResult (searchMedia (cleanTitle (NetflixViewingItem.title item))) with
         | Some _ => JsMap.mutate (touch (NetflixViewingItem.date item)) (recordKey item) m
         | None => JsMap.mutate Legacy.bumpOnly (recordKey item) m
         end
    else JsMap.set (recordKey item) (newItem item) m.
Proof.
  unfold Legacy.finish, recordKey, newItem. simpl.
  destruct (firstResult _) as [result|]; [|by destruct (JsMap.has _ m)].
  destruct (JsMap.has _ m); [done|]. by destruct (String.eqb _ "tv").
Qed.

Lemma legacy_processBatch_calm batch m :
  Legacy.processBatch [] batch m
  = fold_left (λ m item, Legacy.finish (AwaitSearch item) m) batch m.
Proof.
  unfold Legacy.processBatch. simpl. revert m.
  induction batch as [|item batch IH]; intros m; simpl; [done|]. apply IH.
Qed.

Lemma legacy_loop_inTurn arrivals viewingHistory fuel :
  (∀ i, arrivals i = []) ->
  ∀ i m, length viewingHistory ≤ i + fuel ->
    Legacy.loop arrivals viewingHistory fuel i m
    = Some (Array_sort byWatchedDateDesc
              (JsMap.values
                 (fold_left (λ m item, Legacy.finish (AwaitSearch item) m)
                    (drop i viewingHistory) m))).
Proof.
  intros Hturn. induction fuel as [|fuel IH]; intros i m Hfuel; cbn [Legacy.loop].
  - destruct (Nat.ltb_spec i (length viewingHistory)); [lia|]. by rewrite drop_ge by lia.
  - destruct (Nat.ltb_spec i (length viewingHistory)).
    + rewrite IH by (unfold Legacy.batchSize; lia). rewrite Hturn, legacy_processBatch_calm.
      rewrite <- (take_drop Legacy.batchSize (drop i viewingHistory)) at 2.
      by rewrite fold_left_app, drop_drop.
    + by rewrite drop_ge by lia.
Qed.

Lemma keyed_mergeRecord m item : keyed m -> keyed (mergeRecord m item).
Proof.
  intros Hk. rewrite mergeRecord_spec. destruct (JsMap.has _ m); [by apply keyed_touch|].
  apply Forall_set; [|done]. simpl. by rewrite mergeKey_newItem.
Qed.

Lemma merge_same item mL mN :
  sameButUnmatchedDates mL mN -> keyed mN ->
  sameButUnmatchedDates (Legacy.finish (AwaitSearch item) mL) (mergeRecord mN item).
Proof.
  intros Hsame Hk. rewrite legacy_finish_spec, mergeRecord_spec.
  rewrite (has_same _ _ _ Hsame). destruct (JsMap.has _ mN); [|by apply set_same].
  unfold updateExistingMediaItem.
  destruct (firstResult _) as [result|] eqn:Hsearch; (apply mutate_same; [|done]).
  - intros x y _ _. apply forget_touch.
  - intros x y _ Hy%JsMapFacts.elem_of_get.
    apply (proj1 (Forall_forall _ _) Hk) in Hy. simpl in Hy.
    rewrite (recordKey_unmatched item Hsearch) in Hy. unfold mergeKey in Hy.
    destruct (MediaItem.id y) as [n|s] eqn:Hid.
    + symmetry in Hy. by apply mergeKey_not_unknown in Hy.
    + by apply forget_bumpOnly with s.
Qed.

Lemma merged_same l :
  ∀ mL mN, sameButUnmatchedDates mL mN -> keyed mN ->
    sameButUnmatchedDates
      (fold_left (λ m item, Legacy.finish (AwaitSearch item) m) l mL)
      (fold_left mergeRecord l mN).
Proof.
  induction l as [|item l IH]; intros mL mN Hsame Hk; simpl; [done|].
  apply IH; [by apply merge_same | by apply keyed_mergeRecord].
Qed.


End LegacyFacts.

(** ** Discovery *)

Lemma discoveries_app es es' :
  discoveries (es ++ es') = discoveries es ++ discoveries es'.
Proof. apply omap_app. Qed.

Lemma discoveries_ItemProcessed items : discoveries (map ItemProcessed items) = items.
Proof. induction items as [|item items IH]; simpl; [done|]. by rewrite IH. Qed.

Lemma discoveries_suspended hostCancels w :
  discoveries (trace (suspended hostCancels w)) = discoveries (trace w).
Proof.
  destruct hostCancels; simpl; [|done]. by rewrite discoveries_app, app_nil_r.
Qed.

Section DiscoveryFacts.
Context `{Normalizer} `{Catalog} `{Runtime}.

Lemma reportProcessedItem_values m batch item :
  item ∈ reportProcessedItem m batch -> item ∈ JsMap.values m.
Proof.
  unfold reportProcessedItem. rewrite list_elem_of_In, in_flat_map.
  intros (batchItem & _ & Hin%filter_In). by apply list_elem_of_In, Hin.
Qed.

Lemma keys_set_subseteq key v m : JsMap.keys m ⊆ JsMap.keys (JsMap.set key v m).
Proof.
  rewrite JsMapFacts.keys_set. destruct (JsMap.has key m); [done|].
  intros k Hk. apply elem_of_app. by left.
Qed.

Lemma keys_step t m : JsMap.keys m ⊆ JsMap.keys (processViewingItem t m).2.
Proof.
  destruct t as [item|key result d|]; simpl; [|apply keys_set_subseteq|done].
  unfold updateExistingMediaItem.
  destruct (firstResult _); destruct (JsMap.has _ m); simpl;
    rewrite ?JsMapFacts.keys_mutate; (done || apply keys_set_subseteq).
Qed.

Lemma keys_processBatch arrivals batch m :
  JsMap.keys m ⊆ JsMap.keys (processBatch arrivals batch m).
Proof.
  apply (processBatch_invariant (λ _ m', JsMap.keys m ⊆ JsMap.keys m') arrivals batch m);
    [|done].
  intros pre t post m' Hsub. etrans; [exact Hsub | apply keys_step].
Qed.

Lemma has_nonempty key m : JsMap.has key m = true -> 0 < length m.
Proof.
  intros Hin%JsMapFacts.has_true. destruct m; [by apply elem_of_nil in Hin | simpl; lia].
Qed.

Lemma set_nonempty key v m : 0 < length (JsMap.set key v m).
Proof. rewrite JsMapFacts.length_set. destruct (JsMap.has key m) eqn:Hhas; [|lia]. by eapply has_nonempty. Qed.

(** A batch with a record leaves a map with an entry. *)
Lemma length_processBatch arrivals batch m :
  0 < length batch -> 0 < length (processBatch arrivals batch m).
Proof.
  intros Hbatch.
  pose proof (processBatch_invariant
                (λ pool m', 0 < length m' + sum_list_with weight pool) arrivals batch m)
    as Hinv.
  assert (sum_list_with weight (replicate (length batch) Settled) = 0) as Hsettled
    by (clear; induction (length batch); simpl; lia).
  cbv beta in Hinv. rewrite Hsettled in Hinv.
  rewrite <- (Nat.add_0_r (length _)). apply Hinv.
  - clear. intros pre t post m. rewrite !sum_list_with_app. simpl.
    destruct t as [item|key result d|]; simpl.
    + unfold updateExistingMediaItem.
      destruct (firstResult _); destruct (JsMap.has _ m) eqn:Hhas; simpl;
        rewrite ?JsMapFacts.length_mutate; intros _;
        try (apply has_nonempty in Hhas); try lia.
      pose proof (set_nonempty (unknownKey (NetflixViewingItem.title item))
                    (createMinimalMediaItem (NetflixViewingItem.title item)
                                            (NetflixViewingItem.date item)) m). lia.
    + intros _. pose proof (set_nonempty key (createMediaItem result d) m). lia.
    + done.
  - clear -Hbatch. destruct batch; simpl in *; lia.
Qed.

Lemma iteration_discoveries tl viewingHistory progressCallback onItemProcessed
    startIndex i w m :
  discoveries
    (trace (iteration tl viewingHistory progressCallback onItemProcessed startIndex
              i w m).1)
  = discoveries (trace w)
    ++ (if onItemProcessed && (0 <? length (take batchSize (drop i viewingHistory)))
        then reportProcessedItem
               (processBatch (arrivals tl i) (take batchSize (drop i viewingHistory)) m)
               (take batchSize (drop i viewingHistory))
        else []).
Proof.
  unfold iteration.
  generalize (i mod 10 =? 0) (i + batchSize <? length viewingHistory)
    (startIndex <? i)
    (onItemProcessed && (0 <? length (take batchSize (drop i viewingHistory)))).
  intros [] [] [] []; destruct progressCallback; simpl;
    rewrite ?discoveries_suspended; simpl;
    rewrite ?discoveries_app, ?discoveries_ItemProcessed, ?discoveries_suspended;
    simpl; rewrite ?discoveries_suspended; by rewrite ?app_nil_r.
Qed.

(** X27.  Whatever the timeline, every item handed to the discovery
    callback during a run is in the returned collection: the collection
    holds an item with the same merge key. *)
Theorem discovered_items_are_in_the_result tl viewingHistory progressCallback
    onItemProcessed w :
  ∃ r w' found,
    processViewingHistory tl viewingHistory progressCallback onItemProcessed 0 None w
    = Some (r, w')
    ∧ discoveries (trace w') = discoveries (trace w) ++ found
    ∧ ∀ item, item ∈ found ->
        ∃ item', item' ∈ mediaItems r ∧ mergeKey item' = mergeKey item.
Proof.
  unfold processViewingHistory. simpl.
  destruct (loop_invariant tl viewingHistory progressCallback onItemProcessed 0
    (λ _ w1 m, NoDup (JsMap.keys m) ∧ keyed m
               ∧ ∃ found, discoveries (trace w1) = discoveries (trace w) ++ found
                   ∧ ∀ item, item ∈ found -> mergeKey item ∈ JsMap.keys m))
    with (fuel := length viewingHistory) (i := 0) (w := resetCancellation w)
         (m := @nil (string * MediaItem.t))
    as (i' & w' & m' & (Hnd & Hk & found & Htrace & Hfound) & Hres).
  - intros i w1 m _ _ (Hnd & Hk & found & Htrace & Hfound).
    rewrite iteration_map, iteration_discoveries, Htrace.
    destruct (storeInv_processBatch (arrivals tl i)
                (take batchSize (drop i viewingHistory)) m Hnd Hk) as (_ & Hnd' & Hk').
    split_and!; [done..|]. eexists. split; [by rewrite <- app_assoc|].
    intros item [Hin|Hin]%elem_of_app.
    + by apply keys_processBatch, Hfound.
    + rewrite <- (keyed_mergeKeys _ Hk'). apply list_elem_of_fmap_2.
      destruct (onItemProcessed && _); [|by apply elem_of_nil in Hin].
      by eapply reportProcessedItem_values.
  - lia.
  - split_and!; [constructor|constructor|]. exists []. split; [by rewrite app_nil_r|].
    by intros ? ?%elem_of_nil.
  - assert (∀ item, item ∈ found ->
              ∃ item', item' ∈ JsMap.values m' ∧ mergeKey item' = mergeKey item) as Hin.
    { intros item Hitem%Hfound. rewrite <- (keyed_mergeKeys _ Hk) in Hitem.
      apply list_elem_of_fmap in Hitem as (item' & Heq & Hin'). by exists item'. }
    destruct Hres as [(_ & _ & ->)|(_ & ->)]; eexists _, _, found;
      (split; [done|]); simpl.
    + rewrite discoveries_app, app_nil_r. split; [done|]. exact Hin.
    + split; [done|]. intros item (item' & Hin' & Heq)%Hin. exists item'.
      by rewrite Array_sort_Permutation.
Qed.

(** A run over a history with a record that is not cancelled returns an
    item. *)
Lemma run_nonempty tl viewingHistory progressCallback onItemProcessed w :
  0 < length viewingHistory ->
  ∃ r w', processViewingHistory tl viewingHistory progressCallback onItemProcessed
            0 None w = Some (r, w')
    ∧ (cancelled r = false ->
       0 < length (mediaItems r)
       ∧ ∃ w1, w' = with_storage completeProcessing w1).
Proof.
  intros Hlen. unfold processViewingHistory. simpl.
  destruct (loop_invariant tl viewingHistory progressCallback onItemProcessed 0
    (λ i _ m, 0 < i -> 0 < length m))
    with (fuel := length viewingHistory) (i := 0) (w := resetCancellation w)
         (m := @nil (string * MediaItem.t))
    as (i' & w' & m' & Hinv & Hres).
  - intros i w1 m Hi _ _ _. rewrite iteration_map. apply length_processBatch.
    rewrite length_take, length_drop. unfold batchSize. lia.
  - lia.
  - lia.
  - destruct Hres as [(_ & _ & ->)|(Hend & ->)]; eexists _, _; (split; [done|]); simpl.
    + done.
    + intros _. split; [|by eexists].
      rewrite Array_sort_length. unfold JsMap.values. rewrite length_map.
      apply Hinv. lia.
Qed.

Lemma load_after_clear store :
  loadProcessingState (clearProcessingState store) = nothingSaved.
Proof. unfold loadProcessingState. by rewrite !clearProcessingState_lookup. Qed.

(** X28.  An upload whose run is not cancelled, over a history with at
    least one record and dates that all parse, does not end in the error
    branch: the statistics are computed, the analysis is saved and the
    checkpoint is cleared, so that the next page load resumes nothing and
    restores exactly the returned items and their statistics. *)
Theorem analysis_is_restored_after_reload tl history now w data r w' :
  Forall validDate history -> 0 < length history ->
  Page.handleFileUpload tl history w = Some (r, w') ->
  cancelled r = false ->
  ∃ stats w'' data',
    generateStats (mediaItems r) = Some stats
    ∧ Upload.afterProcessing now (r, w') data = Some (w'', data')
    ∧ loadProcessingState (localStorage w'') = nothingSaved
    ∧ (∀ tl', Page.loadSavedData tl' (Page.reload w'') = None)
    ∧ DataStore.restored data' = Some (mediaItems r, stats).
Proof.
  intros Hvalid Hlen Hrun Hc. unfold Page.handleFileUpload in Hrun.
  set (w0 := with_storage (saveProcessingState history 0 [])
               (with_storage clearProcessingState w)) in Hrun.
  destruct (run_dated history tl true true w0 Hvalid) as (r1 & w1 & Hrun1 & Hdated & _).
  destruct (run_nonempty tl history true true w0 Hlen) as (r2 & w2 & Hrun2 & Hne).
  rewrite Hrun in Hrun1, Hrun2. injection Hrun1 as <- <-. injection Hrun2 as <- <-.
  destruct (Hne Hc) as [Hpos _].
  destruct (generateStats (mediaItems r)) as [stats|] eqn:Hstats.
  - exists stats. unfold Upload.afterProcessing. simpl. rewrite Hc, Hstats.
    eexists _, _. split; [done|]. split; [done|].
    cbn [localStorage with_storage]. rewrite load_after_clear. split; [done|]. split.
    + intros tl'. unfold Page.loadSavedData, Page.reload. cbv zeta.
      cbn [localStorage with_storage]. by rewrite load_after_clear.
    + unfold DataStore.restored, DataStore.loadDataFromLocalStorage,
        DataStore.saveDataToLocalStorage. simpl.
      destruct (mediaItems r); [simpl in Hpos; lia | done].
  - unfold generateStats in Hstats.
    fold (calculateWatchCountsByPeriod (mediaItems r)) in Hstats.
    destruct (calculateWatchCountsByPeriod (mediaItems r)) eqn:Hcalc; [done|].
    apply forEach_throws in Hcalc as (item & Hin & Hnone).
    rewrite Forall_forall in Hdated. destruct (Hdated item Hin) as [? ?]. congruence.
Qed.

End DiscoveryFacts.

(** ** The properties on concrete inputs *)
Section MoreExamples.
#[local] Existing Instance Demo.normalizer.
#[local] Existing Instance Demo.catalog.
#[local] Existing Instance Demo.runtime.

Lemma shelf_stats : generateStats Samples.shelf = Some Samples.shelfStats.
Proof. reflexivity. Qed.

Lemma shelf_dated : Forall dated Samples.shelf.
Proof. repeat constructor; by eexists. Qed.

Lemma generateStats_counts_by_type_witness :
  generateStats Samples.shelf = Some Samples.shelfStats
  ∧ StatsData.totalWatched Samples.shelfStats = length Samples.shelf
  ∧ StatsData.movieCount Samples.shelfStats + StatsData.tvCount Samples.shelfStats
    ≤ StatsData.totalWatched Samples.shelfStats
  ∧ (StatsData.movieCount Samples.shelfStats + StatsData.tvCount Samples.shelfStats
     = StatsData.totalWatched Samples.shelfStats
     <-> ∀ item, item ∈ Samples.shelf ->
           MediaItem.type item = "movie" ∨ MediaItem.type item = "tv").
Proof.
  split; [reflexivity|].
  apply (generateStats_counts_by_type Samples.shelf Samples.shelfStats). reflexivity.
Defined.

Lemma histograms_count_items_witness :
  generateStats Samples.shelf = Some Samples.shelfStats
  ∧ ∀ k n,
      (StatsData.watchedByDay Samples.shelfStats !! k = Some n
       <-> 0 < n ∧ n = filedUnder dayOf k Samples.shelf)
      ∧ (StatsData.watchedByMonth Samples.shelfStats !! k = Some n
         <-> 0 < n ∧ n = filedUnder monthOf k Samples.shelf)
      ∧ (StatsData.watchedByYear Samples.shelfStats !! k = Some n
         <-> 0 < n ∧ n = filedUnder yearOf k Samples.shelf).
Proof.
  split; [reflexivity|].
  apply (histograms_count_items Samples.shelf Samples.shelfStats). reflexivity.
Defined.

Lemma histograms_add_up_witness :
  generateStats Samples.shelf = Some Samples.shelfStats
  ∧ histogramTotal (StatsData.watchedByDay Samples.shelfStats)
    = StatsData.totalWatched Samples.shelfStats
  ∧ histogramTotal (StatsData.watchedByMonth Samples.shelfStats)
    = StatsData.totalWatched Samples.shelfStats
  ∧ histogramTotal (StatsData.watchedByYear Samples.shelfStats)
    = StatsData.totalWatched Samples.shelfStats.
Proof.
  split; [reflexivity|].
  apply (histograms_add_up Samples.shelf Samples.shelfStats). reflexivity.
Defined.

Lemma most_watched_are_the_top_ten_witness :
  generateStats Samples.shelf = Some Samples.shelfStats
  ∧ length (StatsData.mostWatchedShows Samples.shelfStats) = min 10 (length Samples.shelf)
  ∧ StronglySorted (λ a b, counted b ≤ counted a)
      (StatsData.mostWatchedShows Samples.shelfStats)
  ∧ ∃ others, StatsData.mostWatchedShows Samples.shelfStats ++ others ≡ₚ Samples.shelf
      ∧ ∀ a b, a ∈ StatsData.mostWatchedShows Samples.shelfStats -> b ∈ others ->
          counted b ≤ counted a.
Proof.
  split; [reflexivity|].
  apply (most_watched_are_the_top_ten Samples.shelf Samples.shelfStats). reflexivity.
Defined.

Lemma continue_watching_lists_continuing_series_witness :
  generateStats Samples.shelf = Some Samples.shelfStats
  ∧ StatsData.continueWatchingShows Samples.shelfStats
    ≡ₚ List.filter continuingShow Samples.shelf
  ∧ latestFirst (StatsData.continueWatchingShows Samples.shelfStats)
  ∧ (latestFirst Samples.shelf ->
     StatsData.continueWatchingShows Samples.shelfStats
     = List.filter continuingShow Samples.shelf).
Proof.
  split; [reflexivity|].
  apply (continue_watching_lists_continuing_series Samples.shelf Samples.shelfStats).
  reflexivity.
Defined.

(** The two episodes under overlapping lookups. *)
Lemma completed_run_is_latest_first_witness :
  Forall validDate Demo.twoEpisodes
  ∧ ∃ r w', processViewingHistory Demo.overlapping Demo.twoEpisodes true true 0 None
              Demo.idle = Some (r, w')
      ∧ (∀ item, item ∈ mediaItems r ->
           is_Some (Date_getTime (MediaItem.watchedDate item)))
      ∧ (cancelled r = false -> latestFirst (mediaItems r)).
Proof.
  split; [apply twoEpisodes_valid|].
  apply (completed_run_is_latest_first Demo.twoEpisodes Demo.overlapping true true
           Demo.idle).
  apply twoEpisodes_valid.
Defined.


(** The two episodes, run to the end. *)
Lemma completed_run_is_not_resumed_witness :
  ∃ r w',
    processViewingHistory Demo.calm Demo.twoEpisodes true true 0 None Demo.idle
    = Some (r, w')
    ∧ cancelled r = false
    ∧ ps_isProcessing (loadProcessingState (localStorage w')) = false
    ∧ Page.loadSavedData Demo.calm (Page.reload w') = None.
Proof.
  eexists _, _. split; [vm_compute; reflexivity|]. split; [reflexivity|].
  eapply (completed_run_is_not_resumed Demo.calm Demo.twoEpisodes true true 0 None
            Demo.idle); [vm_compute; reflexivity | reflexivity].
Defined.

(** Eighty-five viewings, cancelled while the second batch is in flight. *)
Lemma cancelled_run_is_resumed_on_reload_witness :
  (0 mod 10 = 0 ∧ 0 < 1
   ∧ (∀ j, j < 1 ->
        hostCancels (Demo.cancelDuring 40) (length Samples.film85) (0 + batchSize * j)
        = false)
   ∧ cancelInBatch (Demo.cancelDuring 40) (0 + batchSize * 1) = true
   ∧ cancelInYield (Demo.cancelDuring 40) (0 + batchSize * 1) = false
   ∧ cancelInDelay (Demo.cancelDuring 40) (0 + batchSize * 1) = false
   ∧ 0 + batchSize * 1 + batchSize < length Samples.film85)
  ∧ ∃ r w',
      processViewingHistory (Demo.cancelDuring 40) Samples.film85 true true 0 None
        Demo.idle = Some (r, w')
      ∧ cancelled r = true
      ∧ loadProcessingState (localStorage w')
        = {| ps_viewingHistory := Some Samples.film85;
             ps_processedCount := 0 + batchSize * 1;
             ps_partialItems := Some (mediaItems r);
             ps_isProcessing := true |}
      ∧ Page.loadSavedData Demo.calm (Page.reload w')
        = Some (processViewingHistory Demo.calm Samples.film85 true true
                  (0 + batchSize * 1)
                  (Some (Page.resumeMediaMap (Some (mediaItems r))))
                  (Page.reload w')).
Proof.
  assert (∀ j, j < 1 ->
            hostCancels (Demo.cancelDuring 40) (length Samples.film85)
              (0 + batchSize * j) = false) as Hbefore
    by (intros j Hj; assert (j = 0) as -> by lia; reflexivity).
  split; [split_and!; [reflexivity | lia | exact Hbefore | reflexivity | reflexivity
                       | reflexivity | vm_compute; lia]|].
  apply (cancelled_run_is_resumed_on_reload (Demo.cancelDuring 40) Samples.film85
           true true 0 None Demo.idle 1 Demo.calm);
    [reflexivity | lia | exact Hbefore | reflexivity | reflexivity | reflexivity
     | vm_compute; lia].
Defined.

Lemma most_active_month_and_year_witness :
  (generateStats Samples.shelf = Some Samples.shelfStats ∧ 0 < length Samples.shelf)
  ∧ (filedUnder monthOf
       (StatsOverview.getMostActive
          (map_to_list (StatsData.watchedByMonth Samples.shelfStats))).1 Samples.shelf
     = (StatsOverview.getMostActive
          (map_to_list (StatsData.watchedByMonth Samples.shelfStats))).2
     ∧ ∀ k, filedUnder monthOf k Samples.shelf
            ≤ (StatsOverview.getMostActive
                 (map_to_list (StatsData.watchedByMonth Samples.shelfStats))).2)
  ∧ (filedUnder yearOf
       (StatsOverview.getMostActive
          (map_to_list (StatsData.watchedByYear Samples.shelfStats))).1 Samples.shelf
     = (StatsOverview.getMostActive
          (map_to_list (StatsData.watchedByYear Samples.shelfStats))).2
     ∧ ∀ k, filedUnder yearOf k Samples.shelf
            ≤ (StatsOverview.getMostActive
                 (map_to_list (StatsData.watchedByYear Samples.shelfStats))).2).
Proof.
  split; [split; [reflexivity | simpl; lia]|].
  apply (most_active_month_and_year Samples.shelf Samples.shelfStats);
    [reflexivity | simpl; lia | reflexivity | reflexivity].
Defined.

Lemma cancellation_support_keeps_the_result_witness :
  neverCancels Demo.overlapping
  ∧ ∃ items w' effects,
      processViewingHistory Demo.overlapping Demo.twoEpisodes true true 0 None Demo.idle
      = Some ({| mediaItems := items; cancelled := false |}, w')
      ∧ Middle.processViewingHistory (arrivals Demo.overlapping) Demo.twoEpisodes
          true true = Some (items, effects).
Proof.
  assert (neverCancels Demo.overlapping) as Hnever by (intros i; repeat split).
  split; [exact Hnever|].
  apply (cancellation_support_keeps_the_result Demo.overlapping Demo.twoEpisodes
           true true Demo.idle Hnever).
Defined.

Lemma title_without_colon_or_parenthesis_is_only_trimmed_witness :
  (mentions ":" " Inception " = false ∧ mentions "(" " Inception " = false)
  ∧ Title.cleanTitle " Inception " = Title.trim " Inception ".
Proof.
  split; [split; reflexivity|].
  apply (title_without_colon_or_parenthesis_is_only_trimmed " Inception ");
    reflexivity.
Defined.

Lemma subtitle_is_cut_at_the_first_colon_witness :
  (mentions ":" "Star Wars" = false ∧ mentions "(" "Star Wars" = false
   ∧ Title.dotStarToEnd "Episode IV: A New Hope" = true)
  ∧ Title.cleanTitle ("Star Wars" +:+ ": " +:+ "Episode IV: A New Hope")
    = Title.trim "Star Wars".
Proof.
  split; [split_and!; reflexivity|].
  apply (subtitle_is_cut_at_the_first_colon "Star Wars"
           "Episode IV: A New Hope"); reflexivity.
Defined.

Lemma watch_date_order_of_the_grid_witness :
  Forall dated Samples.shelf
  ∧ (MediaGrid.sortItems (λ _ _, 0%Z) MediaGrid.recent MediaGrid.desc Samples.shelf
     ≡ₚ Samples.shelf
     ∧ earliestFirst
         (MediaGrid.sortItems (λ _ _, 0%Z) MediaGrid.recent MediaGrid.desc Samples.shelf))
  ∧ (MediaGrid.sortItems (λ _ _, 0%Z) MediaGrid.recent MediaGrid.asc Samples.shelf
     ≡ₚ Samples.shelf
     ∧ latestFirst
         (MediaGrid.sortItems (λ _ _, 0%Z) MediaGrid.recent MediaGrid.asc Samples.shelf)).
Proof.
  split; [apply shelf_dated|].
  apply (watch_date_order_of_the_grid (λ _ _, 0%Z) Samples.shelf). apply shelf_dated.
Defined.

Lemma filmMap_matched :
  NoDup (JsMap.keys Samples.filmMap) ∧ keyed Samples.filmMap
  ∧ Forall (λ kv, ∃ n, MediaItem.id kv.2 = IdNum n) Samples.filmMap.
Proof.
  split_and!; [apply NoDup_singleton | by repeat constructor
               | repeat constructor; by eexists].
Qed.

Lemma resume_rebuilds_a_map_of_matched_items_witness :
  (NoDup (JsMap.keys Samples.filmMap) ∧ keyed Samples.filmMap
   ∧ Forall (λ kv, ∃ n, MediaItem.id kv.2 = IdNum n) Samples.filmMap)
  ∧ Page.resumeMediaMap (Some (JsMap.values Samples.filmMap)) = Samples.filmMap.
Proof.
  split; [apply filmMap_matched|].
  apply (resume_rebuilds_a_map_of_matched_items Samples.filmMap); apply filmMap_matched.
Defined.


(** The two episodes, uploaded and analysed to the end. *)
Lemma analysis_is_restored_after_reload_witness :
  ∃ r w',
    (Forall validDate Demo.twoEpisodes ∧ 0 < length Demo.twoEpisodes
     ∧ Page.handleFileUpload Demo.calm Demo.twoEpisodes Demo.idle = Some (r, w')
     ∧ cancelled r = false)
    ∧ ∃ stats w'' data',
        generateStats (mediaItems r) = Some stats
        ∧ Upload.afterProcessing 1704412800000 (r, w') Samples.nothingStored
          = Some (w'', data')
        ∧ loadProcessingState (localStorage w'') = nothingSaved
        ∧ (∀ tl', Page.loadSavedData tl' (Page.reload w'') = None)
        ∧ DataStore.restored data' = Some (mediaItems r, stats).
Proof.
  eexists _, _. split.
  - split_and!; [apply twoEpisodes_valid | simpl; lia | vm_compute; reflexivity
                 | reflexivity].
  - apply (analysis_is_restored_after_reload Demo.calm Demo.twoEpisodes 1704412800000
             Demo.idle Samples.nothingStored);
      [apply twoEpisodes_valid | simpl; lia | vm_compute; reflexivity | reflexivity].
Defined.

End MoreExamples.
